(** * SaltPack encryption prototype (encrypt.py): a shallow embedding

    The development follows the Python source function by function.

    - Python [bytes] are lists of [Byte.byte]; Python integers are [Z].
    - Values that travel through the MessagePack framing are the
      inductive type [obj] (None, bool, int, float, str, bytes, Ext, list,
      dict).
    - Exceptions are explicit: a computation returns [Ok v] or [Err e].
    - The two unbounded [while] loops of the source carry a fuel argument;
      running out of fuel is the third possible result, [None].
    - The libraries the script imports (PyNaCl, u-msgpack, hashlib) are
      interfaces (type classes); what the proofs need from them is stated as
      separate contract classes, and [Module Reference] gives a small
      executable instance of every contract. [umsgpack.packb] can raise;
      [Module Limits] is the reference framing with the size limits of
      MessagePack.
    - Every call into PyNaCl is recorded in a ghost trace, so that
      statements about which nonce or which recipient slot is used are
      statements about the run itself.
    - The command line ([get_private], [get_recipients], [do_encrypt],
      [do_decrypt], [main]) works on the dict that docopt returns, with
      the standard input and the random draws as arguments and what is
      written to the standard output as result. [json_repr] and the
      runs of [decrypt] with [debug=True], which print through it, are
      not modelled. *)

From Stdlib Require Import ZArith NArith Lia.
From Stdlib.Strings Require Import Byte String Ascii.
From stdpp Require Import base option list gmap countable.

Local Open Scope Z_scope.

(** ** Bytes *)

Abbreviation bytes := (list byte).

#[global] Instance byte_eq_dec : EqDecision byte := Byte.byte_eq_dec.
#[global] Instance byte_countable : Countable byte :=
  inj_countable Byte.to_N Byte.of_N Byte.of_to_N.

Definition byte_of_Z (z : Z) : byte :=
  match Byte.of_N (Z.to_N z) with
  | Some b => b
  | None => x00
  end.

Definition Z_of_byte (b : byte) : Z := Z.of_N (Byte.to_N b).

(** A Python bytes literal. *)
Definition b_lit (s : string) : bytes := list_byte_of_string s.

(** ** Exceptions and results *)

Inductive exn : Type :=
  | TypeError
  | ValueError
  | IndexError
  | KeyError
  | OverflowError
  | RuntimeError (msg : string)
  | CryptoError                 (* nacl.exceptions.CryptoError *)
  | InsufficientDataException   (* umsgpack: the stream ended inside a value *)
  | UnpackException             (* any other umsgpack decoding failure *)
  | UnsupportedTypeException.   (* umsgpack: a value MessagePack cannot hold *)

Inductive result (A : Type) : Type :=
  | Ok (a : A)
  | Err (e : exn).
Arguments Ok {A} a.
Arguments Err {A} e.

(** ** Python objects carried by the framing

    What [umsgpack.unpack] can return: None, a bool, an int, a float (its
    64 bits), a str (its code points), bytes, an [umsgpack.Ext] object, a
    list, and a dict (its items in insertion order, with keys that are
    pairwise different; a list that was a key is a tuple in Python, which
    this program cannot tell from a list). *)

#[warnings="-register-all"]
Inductive obj : Type :=
  | ONone
  | OBool (b : bool)
  | OInt (z : Z)
  | OFloat (bits : Z)
  | OStr (codepoints : list N)
  | OBytes (b : bytes)
  | OExt (type : Z) (data : bytes)
  | OList (l : list obj)
  | ODict (items : list (obj * obj)).

Definition str_lit (s : string) : obj :=
  OStr (map N_of_ascii (list_ascii_of_string s)).

(** [iter(o)]: the items a [for] loop or an unpacking assignment sees;
    for a dict, its keys. *)
Definition py_iter (o : obj) : result (list obj) :=
  match o with
  | OList l => Ok l
  | OStr s => Ok (map (fun c => OStr [c]) s)
  | OBytes b => Ok (map (fun x => OInt (Z_of_byte x)) b)
  | ODict items => Ok (map fst items)
  | ONone | OBool _ | OInt _ | OFloat _ | OExt _ _ => Err TypeError
  end.

(** [[a, b] = o] *)
Definition unpack2 (o : obj) : result (obj * obj) :=
  match py_iter o with
  | Err e => Err e
  | Ok [a; b] => Ok (a, b)
  | Ok _ => Err ValueError
  end.

(** [[a, b, c, d, e] = o] *)
Definition unpack5 (o : obj) : result (obj * obj * obj * obj * obj) :=
  match py_iter o with
  | Err e => Err e
  | Ok [a; b; c; d; e] => Ok (a, b, c, d, e)
  | Ok _ => Err ValueError
  end.

(** The integer a double is equal to, if any, from its 64 bits (sign,
    11 bits of exponent, 52 bits of fraction). *)
Definition float_as_int (bits : Z) : option Z :=
  let negative := (bits / 2 ^ 63) mod 2 =? 1 in
  let e := (bits / 2 ^ 52) mod 2 ^ 11 in
  let fraction := bits mod 2 ^ 52 in
  let signed z := if negative then - z else z in
  if e =? 2047 then None
  else if e =? 0 then (if fraction =? 0 then Some 0 else None)
  else
    let m := 2 ^ 52 + fraction in
    if 1075 <=? e then Some (signed (m * 2 ^ (e - 1075)))
    else if m mod 2 ^ (1075 - e) =? 0
         then Some (signed (m / 2 ^ (1075 - e)))
         else None.

(** [key == i] for a dict key and an int: True equals 1, False equals 0,
    and a float equals the integer of the same value. *)
Definition key_equals_int (key : obj) (i : Z) : bool :=
  match key with
  | OInt z => z =? i
  | OBool b => (if b then 1 else 0) =? i
  | OFloat bits =>
      match float_as_int bits with
      | Some z => z =? i
      | None => false
      end
  | _ => false
  end.

(** [o[i]] for a non-negative index [i]. *)
Definition py_getitem (o : obj) (i : nat) : result obj :=
  match o with
  | OList l =>
      match l !! i with Some x => Ok x | None => Err IndexError end
  | OStr s =>
      match s !! i with Some c => Ok (OStr [c]) | None => Err IndexError end
  | OBytes b =>
      match b !! i with
      | Some x => Ok (OInt (Z_of_byte x))
      | None => Err IndexError
      end
  | ODict items =>
      match find (fun item => key_equals_int (fst item) (Z.of_nat i)) items with
      | Some item => Ok (snd item)
      | None => Err KeyError
      end
  | ONone | OBool _ | OInt _ | OFloat _ | OExt _ _ => Err TypeError
  end.

(** [b'...' + o]: an object concatenated to bytes must be a bytes object. *)
Definition as_bytes (o : obj) : result bytes :=
  match o with
  | OBytes b => Ok b
  | _ => Err TypeError
  end.

(** [l[start:stop]] with Python's treatment of negative and out-of-range
    bounds. *)
Definition py_slice {A} (l : list A) (start stop : Z) : list A :=
  let len := Z.of_nat (length l) in
  let norm i := if i <? 0 then Z.max (i + len) 0 else Z.min i len in
  let s := norm start in
  let e := norm stop in
  if s <? e then take (Z.to_nat (e - s)) (drop (Z.to_nat s) l) else [].

(** ** Utility functions of the script *)

(** The [while] loop of [chunks_with_empty]. *)
Fixpoint chunks_loop (fuel : nat) (message : bytes) (chunk_size : Z)
    (chunk_start : Z) (chunks : list bytes) : option (list bytes) :=
  match fuel with
  | O => None
  | S fuel' =>
      if chunk_start <? Z.of_nat (length message) then
        chunks_loop fuel' message chunk_size (chunk_start + chunk_size)
          (chunks ++ [py_slice message chunk_start (chunk_start + chunk_size)])
      else Some (chunks ++ [[]])
  end.

Definition chunks_with_empty_fuel (fuel : nat) (message : bytes)
    (chunk_size : Z) : option (list bytes) :=
  chunks_loop fuel message chunk_size 0 [].

(** One loop test per byte of the message, and the final one, always
    suffice when the loop terminates at all. *)
Definition chunks_with_empty (message : bytes) (chunk_size : Z)
    : option (list bytes) :=
  chunks_with_empty_fuel (S (length message)) message chunk_size.

(** [i.to_bytes(len, 'big')] without the range check. *)
Fixpoint to_bytes_big (len : nat) (i : Z) : bytes :=
  match len with
  | O => []
  | S len' => to_bytes_big len' (i / 256) ++ [byte_of_Z (i mod 256)]
  end.

(** [counter(i)]: [i.to_bytes(8, 'big')] raises OverflowError outside
    [0, 2^64). *)
Definition counter (i : Z) : result bytes :=
  if (0 <=? i) && (i <? 2 ^ 64) then Ok (to_bytes_big 8 i)
  else Err OverflowError.

(** ** The libraries the script imports *)

(** [nacl.bindings]: each function either returns bytes or raises. An
    argument that [decrypt] passes on as it came out of the stream (a
    public key, a box, the encryption key) is an object: what the bindings
    do with one that is not a bytes object is theirs to decide. *)
Class NaCl : Type := {
  crypto_scalarmult_base : bytes -> result bytes;                    (* n *)
  crypto_box_beforenm : obj -> bytes -> result bytes;                (* pk sk *)
  crypto_box : bytes -> bytes -> bytes -> bytes -> result bytes;     (* message nonce pk sk *)
  crypto_box_afternm : bytes -> bytes -> bytes -> result bytes;      (* message nonce k *)
  crypto_box_open_afternm : obj -> bytes -> bytes -> result bytes;   (* ciphertext nonce k *)
  crypto_secretbox : bytes -> bytes -> bytes -> result bytes;        (* message nonce key *)
  crypto_secretbox_open : bytes -> bytes -> obj -> result bytes;     (* ciphertext nonce key *)
}.

(** [hashlib.sha512(x).digest()] *)
Class Hashlib : Type := {
  sha512 : bytes -> bytes;
}.

(** [umsgpack]. [packb v] is what [umsgpack.packb] returns for [v] when it
    returns, and [packb_raises v] the exception it raises instead, if any
    (UnsupportedTypeException for a bytes, str, list or dict of 2^32 items
    or more, or an int outside 64 bits). [unpack] reads one value from a
    stream and leaves the stream positioned after it; a stream is the list
    of bytes not yet read. *)
Class Umsgpack : Type := {
  packb : obj -> bytes;
  packb_raises : obj -> option exn;
  unpack : bytes -> result (obj * bytes);
  unpackb : bytes -> result obj;
}.

(** ** Runs: result, divergence and the ghost trace of PyNaCl calls *)

Inductive call : Type :=
  | Call_scalarmult_base (n : bytes)
  | Call_box_beforenm (pk : obj) (sk : bytes)
  | Call_box (message nonce pk sk : bytes)
  | Call_box_afternm (message nonce k : bytes)
  | Call_box_open_afternm (ciphertext : obj) (nonce k : bytes)
  | Call_secretbox (message nonce key : bytes)
  | Call_secretbox_open (ciphertext nonce : bytes) (key : obj).

(** The nonce a call is made with, if it takes one. *)
Definition call_nonce (c : call) : option bytes :=
  match c with
  | Call_scalarmult_base _ | Call_box_beforenm _ _ => None
  | Call_box _ nonce _ _ => Some nonce
  | Call_box_afternm _ nonce _ => Some nonce
  | Call_box_open_afternm _ nonce _ => Some nonce
  | Call_secretbox _ nonce _ => Some nonce
  | Call_secretbox_open _ nonce _ => Some nonce
  end.

(** [None]: the run does not finish. Otherwise the result and the calls
    made, in order. *)
Definition M (A : Type) : Type := option (result A * list call).

Definition ret {A} (a : A) : M A := Some (Ok a, []).
Definition raise {A} (e : exn) : M A := Some (Err e, []).
Definition lift {A} (r : result A) : M A := Some (r, []).
Definition from_loop {A} (o : option A) : M A :=
  match o with
  | Some a => Some (Ok a, [])
  | None => None
  end.

(** The calls [tr] were made before the run [m] started. *)
Definition prepend {A} (tr : list call) (m : M A) : M A :=
  match m with
  | None => None
  | Some (r, tr') => Some (r, tr ++ tr')
  end.

Definition bind {A B} (m : M A) (k : A -> M B) : M B :=
  match m with
  | None => None
  | Some (Err e, tr) => Some (Err e, tr)
  | Some (Ok a, tr) => prepend tr (k a)
  end.

(** [try: body  except CryptoError: handler] *)
Definition try_except_CryptoError {A} (body handler : M A) : M A :=
  match body with
  | Some (Err CryptoError, tr) => prepend tr handler
  | _ => body
  end.

(** What the caller of a run observes. *)
Definition outcome {A} (m : M A) : option (result A) := fst <$> m.
Definition calls {A} (m : M A) : list call :=
  match m with
  | Some (_, tr) => tr
  | None => []
  end.

Declare Scope run_scope.
Delimit Scope run_scope with run.
Notation "x <- m ;; k" := (bind m (fun x => k))
  (at level 20, m at level 99, k at level 200, only parsing) : run_scope.
Notation "' pat <- m ;; k" := (bind m (fun x => match x with pat => k end))
  (at level 20, pat pattern, m at level 99, k at level 200, only parsing)
  : run_scope.
Local Open Scope run_scope.

Section Bindings.
Context `{NaCl}.

Definition bindings_crypto_scalarmult_base (n : bytes) : M bytes :=
  Some (crypto_scalarmult_base n, [Call_scalarmult_base n]).
Definition bindings_crypto_box_beforenm (pk : obj) (sk : bytes) : M bytes :=
  Some (crypto_box_beforenm pk sk, [Call_box_beforenm pk sk]).
Definition bindings_crypto_box (message nonce pk sk : bytes) : M bytes :=
  Some (crypto_box message nonce pk sk, [Call_box message nonce pk sk]).
Definition bindings_crypto_box_afternm (message nonce k : bytes) : M bytes :=
  Some (crypto_box_afternm message nonce k,
        [Call_box_afternm message nonce k]).
Definition bindings_crypto_box_open_afternm (ciphertext : obj)
    (nonce k : bytes) : M bytes :=
  Some (crypto_box_open_afternm ciphertext nonce k,
        [Call_box_open_afternm ciphertext nonce k]).
Definition bindings_crypto_secretbox (message nonce key : bytes) : M bytes :=
  Some (crypto_secretbox message nonce key,
        [Call_secretbox message nonce key]).
Definition bindings_crypto_secretbox_open (ciphertext nonce : bytes)
    (key : obj) : M bytes :=
  Some (crypto_secretbox_open ciphertext nonce key,
        [Call_secretbox_open ciphertext nonce key]).
End Bindings.

(** [umsgpack.packb(v)] *)
Definition umsgpack_packb `{Umsgpack} (v : obj) : M bytes :=
  match packb_raises v with
  | Some e => raise e
  | None => ret (packb v)
  end.

(** [d[key]] on a dict *)
Definition dict_getitem (d : gmap bytes bytes) (key : bytes) : result bytes :=
  match d !! key with
  | Some v => Ok v
  | None => Err KeyError
  end.

(** ** encrypt and decrypt *)

Section Program.
Context `{NaCl, Hashlib, Umsgpack}.

(** First loop of [encrypt]: one recipient pair per public key, and the
    dict of precomputed shared secrets. *)
Fixpoint encrypt_recipients (keys_bytes header_nonce : bytes)
    (ephemeral_private sender_private : bytes)
    (recipient_public_keys : list bytes)
    (recipient_pairs : list obj) (recipient_beforenms : gmap bytes bytes)
    : M (list obj * gmap bytes bytes) :=
  match recipient_public_keys with
  | [] => ret (recipient_pairs, recipient_beforenms)
  | recipient_public :: rest =>
      recipient_box <- bindings_crypto_box keys_bytes header_nonce
                         recipient_public ephemeral_private ;;
      let pair := OList [ONone; OBytes recipient_box] in
      let recipient_pairs := recipient_pairs ++ [pair] in
      beforenm <- bindings_crypto_box_beforenm (OBytes recipient_public)
                    sender_private ;;
      let recipient_beforenms :=
        <[recipient_public := beforenm]> recipient_beforenms in
      encrypt_recipients keys_bytes header_nonce ephemeral_private
        sender_private rest recipient_pairs recipient_beforenms
  end.

(** Inner loop of the payload loop: one tag box per recipient. *)
Fixpoint encrypt_tag_boxes (payload_tag payload_nonce : bytes)
    (recipient_beforenms : gmap bytes bytes)
    (recipient_public_keys : list bytes) (tag_boxes : list obj)
    : M (list obj) :=
  match recipient_public_keys with
  | [] => ret tag_boxes
  | recipient_public :: rest =>
      beforenm <- lift (dict_getitem recipient_beforenms recipient_public) ;;
      tag_box <- bindings_crypto_box_afternm payload_tag payload_nonce
                   beforenm ;;
      encrypt_tag_boxes payload_tag payload_nonce recipient_beforenms rest
        (tag_boxes ++ [OBytes tag_box])
  end.

(** Body of the payload loop: the packet written for one chunk. *)
Definition encrypt_packet (nonce_prefix encryption_key : bytes)
    (recipient_beforenms : gmap bytes bytes)
    (recipient_public_keys : list bytes)
    (packetnum : Z) (chunk : bytes) : M obj :=
  c <- lift (counter (packetnum + 2)) ;;
  let payload_nonce := nonce_prefix ++ c in
  payload_secretbox <- bindings_crypto_secretbox chunk payload_nonce
                         encryption_key ;;
  let payload_tag := take 16 payload_secretbox in
  let stripped_payload_secretbox := drop 16 payload_secretbox in
  tag_boxes <- encrypt_tag_boxes payload_tag payload_nonce
                 recipient_beforenms recipient_public_keys [] ;;
  let packet :=
    OList [OList tag_boxes; OBytes stripped_payload_secretbox] in
  ret packet.

(** The payload loop, over [enumerate(chunks_with_empty(...))]:
    [packetnum] is the index of the head of [chunks]. *)
Fixpoint encrypt_packets (nonce_prefix encryption_key : bytes)
    (recipient_beforenms : gmap bytes bytes)
    (recipient_public_keys : list bytes)
    (packetnum : Z) (chunks : list bytes) (output : bytes) : M bytes :=
  match chunks with
  | [] => ret output
  | chunk :: rest =>
      packet <- encrypt_packet nonce_prefix encryption_key
                  recipient_beforenms recipient_public_keys packetnum
                  chunk ;;
      packet_bytes <- umsgpack_packb packet ;;
      encrypt_packets nonce_prefix encryption_key recipient_beforenms
        recipient_public_keys (packetnum + 1) rest (output ++ packet_bytes)
  end.

(** [encrypt]. The two values drawn from [os.urandom(32)] are the
    arguments [ephemeral_private] and [encryption_key]. *)
Definition encrypt (sender_private : bytes)
    (recipient_public_keys : list bytes) (message : bytes) (chunk_size : Z)
    (ephemeral_private encryption_key : bytes) : M bytes :=
  sender_public <- bindings_crypto_scalarmult_base sender_private ;;
  ephemeral_public <- bindings_crypto_scalarmult_base ephemeral_private ;;
  let nonce_prefix_preimage :=
    (b_lit "SaltPack" ++ [x00]) ++
    (b_lit "encryption nonce prefix" ++ [x00]) ++
    ephemeral_public in
  let nonce_prefix := take 16 (sha512 nonce_prefix_preimage) in
  let keys := OList [OBytes sender_public; OBytes encryption_key] in
  keys_bytes <- umsgpack_packb keys ;;
  c <- lift (counter 0) ;;
  let header_nonce := nonce_prefix ++ c in
  ' (recipient_pairs, recipient_beforenms) <-
      encrypt_recipients keys_bytes header_nonce ephemeral_private
        sender_private recipient_public_keys [] ∅ ;;
  let header :=
    OList [str_lit "SaltBox";
           OList [OInt 1; OInt 0];
           OInt 0;
           OBytes ephemeral_public;
           OList recipient_pairs] in
  output <- umsgpack_packb header ;;
  chunks <- from_loop (chunks_with_empty message chunk_size) ;;
  encrypt_packets nonce_prefix encryption_key recipient_beforenms
    recipient_public_keys 0 chunks output.

(** The recipient loop of [decrypt] ([for ... else]): returns the index
    and the opened bytes of the first pair whose box opens. *)
Fixpoint decrypt_recipients (nonce_prefix ephemeral_beforenm : bytes)
    (recipient_pairs : list obj) (recipient_index : nat)
    : M (nat * bytes) :=
  match recipient_pairs with
  | [] => raise (RuntimeError "Failed to find matching recipient.")
  | pair' :: rest =>
      ' (_, recipient_box) <- lift (unpack2 pair') ;;
      try_except_CryptoError
        (c <- lift (counter 0) ;;
         keys_bytes <- bindings_crypto_box_open_afternm recipient_box
                         (nonce_prefix ++ c) ephemeral_beforenm ;;
         ret (recipient_index, keys_bytes))
        (decrypt_recipients nonce_prefix ephemeral_beforenm rest
           (S recipient_index))
  end.

(** Body of the [while True] loop of [decrypt]: reads one packet and
    returns its chunk and the stream after it. *)
Definition decrypt_packet (nonce_prefix sender_beforenm : bytes)
    (encryption_key : obj) (recipient_index : nat)
    (stream : bytes) (packetnum : Z) : M (bytes * bytes) :=
  c <- lift (counter packetnum) ;;
  let payload_nonce := nonce_prefix ++ c in
  ' (packet, stream) <- lift (unpack stream) ;;
  ' (tag_boxes, stripped_payload_secretbox) <- lift (unpack2 packet) ;;
  tag_box <- lift (py_getitem tag_boxes recipient_index) ;;
  payload_tag <- bindings_crypto_box_open_afternm tag_box payload_nonce
                   sender_beforenm ;;
  stripped <- lift (as_bytes stripped_payload_secretbox) ;;
  let payload_secretbox := payload_tag ++ stripped in
  chunk <- bindings_crypto_secretbox_open payload_secretbox
             payload_nonce encryption_key ;;
  ret (chunk, stream).

(** The [while True] loop of [decrypt]. *)
Fixpoint decrypt_packets (fuel : nat) (nonce_prefix sender_beforenm : bytes)
    (encryption_key : obj) (recipient_index : nat)
    (stream : bytes) (packetnum : Z) (output : bytes) : M bytes :=
  match fuel with
  | O => None
  | S fuel' =>
      ' (chunk, stream) <- decrypt_packet nonce_prefix sender_beforenm
                             encryption_key recipient_index stream
                             packetnum ;;
      let output := output ++ chunk in
      if decide (chunk = []) then ret output
      else decrypt_packets fuel' nonce_prefix sender_beforenm
             encryption_key recipient_index stream (packetnum + 1) output
  end.

(** The payload phase of [decrypt]: from "Unpack the sender key and the
    message encryption key" to the end. *)
Definition decrypt_payload (recipient_private nonce_prefix : bytes)
    (recipient_index : nat) (keys_bytes : bytes) (stream : bytes)
    : M bytes :=
  keys <- lift (unpackb keys_bytes) ;;
  ' (sender_public, encryption_key) <- lift (unpack2 keys) ;;
  sender_beforenm <- bindings_crypto_box_beforenm sender_public
                       recipient_private ;;
  decrypt_packets (S (length stream)) nonce_prefix sender_beforenm
    encryption_key recipient_index stream 2 [].

(** [decrypt] (with [debug=False]). *)
Definition decrypt (input : bytes) (recipient_private : bytes) : M bytes :=
  ' (header, stream) <- lift (unpack input) ;;
  ' (format_name, version, mode, ephemeral_public, recipient_pairs) <-
      lift (unpack5 header) ;;
  ' (major_version, minor_version) <- lift (unpack2 version) ;;
  ephemeral_public <- lift (as_bytes ephemeral_public) ;;
  let nonce_prefix_preimage :=
    (b_lit "SaltPack" ++ [x00]) ++
    (b_lit "encryption nonce prefix" ++ [x00]) ++
    ephemeral_public in
  let nonce_prefix := take 16 (sha512 nonce_prefix_preimage) in
  ephemeral_beforenm <- bindings_crypto_box_beforenm
                          (OBytes ephemeral_public) recipient_private ;;
  pairs <- lift (py_iter recipient_pairs) ;;
  ' (recipient_index, keys_bytes) <-
      decrypt_recipients nonce_prefix ephemeral_beforenm pairs 0 ;;
  decrypt_payload recipient_private nonce_prefix recipient_index keys_bytes
    stream.
End Program.

(** ** Vocabulary for the statements *)

Section Vocabulary.
Context `{NaCl, Hashlib, Umsgpack}.

(** The nonce prefix both [encrypt] and [decrypt] compute from the
    ephemeral public key. *)
Definition nonce_prefix_for (ephemeral_public : bytes) : bytes :=
  take 16 (sha512 ((b_lit "SaltPack" ++ [x00]) ++
                   (b_lit "encryption nonce prefix" ++ [x00]) ++
                   ephemeral_public)).

(** The recipient pair [encrypt] writes around a box. *)
Definition recipient_pair_for (recipient_box : bytes) : obj :=
  OList [ONone; OBytes recipient_box].

(** The header [encrypt] writes. *)
Definition header_for (ephemeral_public : bytes)
    (recipient_boxes : list bytes) : obj :=
  OList [str_lit "SaltBox";
         OList [OInt 1; OInt 0];
         OInt 0;
         OBytes ephemeral_public;
         OList (recipient_pair_for <$> recipient_boxes)].

(** [packets_written ... j chunks packets tr]: the payload loop, entered
    with packet number [j], writes [packets] for [chunks] and makes the
    calls [tr]. *)
Inductive packets_written (nonce_prefix encryption_key : bytes)
    (recipient_beforenms : gmap bytes bytes)
    (recipient_public_keys : list bytes)
    : Z -> list bytes -> list obj -> list call -> Prop :=
  | packets_written_nil j :
      packets_written nonce_prefix encryption_key recipient_beforenms
        recipient_public_keys j [] [] []
  | packets_written_cons j chunk chunks packet packets tr trs :
      encrypt_packet nonce_prefix encryption_key recipient_beforenms
        recipient_public_keys j chunk = Some (Ok packet, tr) ->
      packets_written nonce_prefix encryption_key recipient_beforenms
        recipient_public_keys (j + 1) chunks packets trs ->
      packets_written nonce_prefix encryption_key recipient_beforenms
        recipient_public_keys j (chunk :: chunks) (packet :: packets)
        (tr ++ trs).

(** [packets_open ... j packets chunks]: the payload loop of [decrypt],
    entered with packet number [j], reads [packets] one after the other
    from any stream that starts with them and opens them to [chunks]. *)
Inductive packets_open (nonce_prefix sender_beforenm : bytes)
    (encryption_key : obj) (recipient_index : nat)
    : Z -> list obj -> list bytes -> Prop :=
  | packets_open_nil j :
      packets_open nonce_prefix sender_beforenm encryption_key
        recipient_index j [] []
  | packets_open_cons j packet packets chunk chunks :
      (forall rest, exists tr,
         decrypt_packet nonce_prefix sender_beforenm encryption_key
           recipient_index (packb packet ++ rest) j
         = Some (Ok (chunk, rest), tr)) ->
      packets_open nonce_prefix sender_beforenm encryption_key
        recipient_index (j + 1) packets chunks ->
      packets_open nonce_prefix sender_beforenm encryption_key
        recipient_index j (packet :: packets) (chunk :: chunks).

(** [reads_packet ... packetnum stream chunk rest tr]: what the libraries
    answer when the value at the head of [stream] is taken as packet
    number [packetnum] by the recipient at [recipient_index]. The value
    has two items; the item of the first one at [recipient_index] opens
    under the sender's shared secret and the packet's nonce to the
    payload tag; the tag followed by the second item opens under the
    encryption key and the same nonce to [chunk]. [rest] is the stream
    after the value and [tr] the two calls. *)
Definition reads_packet (nonce_prefix sender_beforenm : bytes)
    (encryption_key : obj) (recipient_index : nat) (packetnum : Z)
    (stream chunk rest : bytes) (tr : list call) : Prop :=
  exists packet tag_boxes body tag_box payload_tag stripped,
    0 <= packetnum < 2 ^ 64
    /\ unpack stream = Ok (packet, rest)
    /\ unpack2 packet = Ok (tag_boxes, body)
    /\ py_getitem tag_boxes recipient_index = Ok tag_box
    /\ crypto_box_open_afternm tag_box
         (nonce_prefix ++ to_bytes_big 8 packetnum) sender_beforenm
       = Ok payload_tag
    /\ as_bytes body = Ok stripped
    /\ crypto_secretbox_open (payload_tag ++ stripped)
         (nonce_prefix ++ to_bytes_big 8 packetnum) encryption_key
       = Ok chunk
    /\ tr = [Call_box_open_afternm tag_box
               (nonce_prefix ++ to_bytes_big 8 packetnum) sender_beforenm;
             Call_secretbox_open (payload_tag ++ stripped)
               (nonce_prefix ++ to_bytes_big 8 packetnum) encryption_key].

(** [reads_payload ... packetnum stream chunks tr]: from packet number
    [packetnum] on, the values of [stream] are packets in the sense of
    [reads_packet], each at the same [recipient_index] and with the next
    packet number, up to the first one whose chunk is empty; [chunks] are
    the chunks before that one and [tr] all the calls. *)
Inductive reads_payload (nonce_prefix sender_beforenm : bytes)
    (encryption_key : obj) (recipient_index : nat)
    : Z -> bytes -> list bytes -> list call -> Prop :=
  | reads_payload_last packetnum stream rest tr :
      reads_packet nonce_prefix sender_beforenm encryption_key
        recipient_index packetnum stream [] rest tr ->
      reads_payload nonce_prefix sender_beforenm encryption_key
        recipient_index packetnum stream [] tr
  | reads_payload_more packetnum stream chunk rest chunks tr trs :
      reads_packet nonce_prefix sender_beforenm encryption_key
        recipient_index packetnum stream chunk rest tr ->
      chunk <> [] ->
      reads_payload nonce_prefix sender_beforenm encryption_key
        recipient_index (packetnum + 1) rest chunks trs ->
      reads_payload nonce_prefix sender_beforenm encryption_key
        recipient_index packetnum stream (chunk :: chunks) (tr ++ trs).

(** Every value of the dict of shared secrets is the sender's shared
    secret with its key. *)
Definition beforenms_of (sender_private : bytes)
    (recipient_beforenms : gmap bytes bytes) : Prop :=
  forall pk k,
    recipient_beforenms !! pk = Some k ->
    crypto_box_beforenm (OBytes pk) sender_private = Ok k.

(** In the message [encrypt] writes with these arguments, the recipient's
    shared secret with the ephemeral key opens none of the boxes sealed to
    the other recipients. *)
Definition other_boxes_rejected (sender_private : bytes)
    (recipient_public_keys : list bytes)
    (ephemeral_private encryption_key recipient_private : bytes) : Prop :=
  forall sender_public ephemeral_public recipient_public ephemeral_beforenm
         pk box,
    crypto_scalarmult_base sender_private = Ok sender_public ->
    crypto_scalarmult_base ephemeral_private = Ok ephemeral_public ->
    crypto_scalarmult_base recipient_private = Ok recipient_public ->
    crypto_box_beforenm (OBytes ephemeral_public) recipient_private
    = Ok ephemeral_beforenm ->
    pk ∈ recipient_public_keys ->
    pk <> recipient_public ->
    crypto_box (packb (OList [OBytes sender_public; OBytes encryption_key]))
      (nonce_prefix_for ephemeral_public ++ to_bytes_big 8 0) pk
      ephemeral_private = Ok box ->
    crypto_box_open_afternm (OBytes box)
      (nonce_prefix_for ephemeral_public ++ to_bytes_big 8 0)
      ephemeral_beforenm = Err CryptoError.
End Vocabulary.

(** ** What the proofs assume of the libraries *)

(** The digest has 64 bytes. *)
Class HashlibSpec `{Hashlib} : Prop := {
  sha512_length : forall x, length (sha512 x) = 64%nat;
}.

(** Framing: a packed value is read back, and the reader stops exactly at
    its end; every read consumes at least one byte. *)
Class UmsgpackCore `{Umsgpack} : Prop := {
  unpack_packb : forall v rest, unpack (packb v ++ rest) = Ok (v, rest);
  unpackb_packb : forall v, unpackb (packb v) = Ok v;
  unpack_consumes : forall s v rest,
    unpack s = Ok (v, rest) -> (length rest < length s)%nat;
}.

(** [UmsgpackCore] and an idealisation: [packb] never raises, that is, the
    framing without MessagePack's size limits. What is proved from it says
    that [encrypt] returns where umsgpack may raise on a value of 2^32
    bytes or items; it is used only where a statement needs a ciphertext
    to exist. *)
Class UmsgpackSpec `{Umsgpack} : Prop := {
  umsgpack_core :: UmsgpackCore;
  packb_returns : forall v, packb_raises v = None;
}.

(** A stream that ends inside a value (or before its first byte) makes the
    reader raise InsufficientDataException. *)
Class UmsgpackEOF `{Umsgpack} : Prop := {
  unpack_truncated : forall v p q,
    packb v = p ++ q -> q <> [] -> unpack p = Err InsufficientDataException;
}.

(** Functional correctness of the boxes, for arguments of the right sizes:
    keys of 32 bytes, nonces of 24 bytes. The key agreement is required to
    succeed only with a public key that [crypto_scalarmult_base] gave. *)
Class NaClCore `{NaCl} : Prop := {
  scalarmult_base_ok : forall n,
    length n = 32%nat ->
    exists q, crypto_scalarmult_base n = Ok q /\ length q = 32%nat;
  box_beforenm_derived : forall n pk sk,
    length n = 32%nat ->
    crypto_scalarmult_base n = Ok pk ->
    length sk = 32%nat ->
    exists k, crypto_box_beforenm (OBytes pk) sk = Ok k;
  box_beforenm_comm : forall a b pa pb,
    crypto_scalarmult_base a = Ok pa ->
    crypto_scalarmult_base b = Ok pb ->
    crypto_box_beforenm (OBytes pa) b = crypto_box_beforenm (OBytes pb) a;
  box_is_afternm : forall message nonce pk sk k,
    crypto_box_beforenm (OBytes pk) sk = Ok k ->
    crypto_box message nonce pk sk = crypto_box_afternm message nonce k;
  box_afternm_ok : forall message nonce pk sk k,
    length nonce = 24%nat ->
    crypto_box_beforenm (OBytes pk) sk = Ok k ->
    exists c, crypto_box_afternm message nonce k = Ok c;
  box_open_afternm_seal : forall message nonce k c,
    crypto_box_afternm message nonce k = Ok c ->
    crypto_box_open_afternm (OBytes c) nonce k = Ok message;
  secretbox_ok : forall message nonce key,
    length nonce = 24%nat -> length key = 32%nat ->
    exists c, crypto_secretbox message nonce key = Ok c;
  secretbox_open_seal : forall message nonce key c,
    crypto_secretbox message nonce key = Ok c ->
    crypto_secretbox_open c nonce (OBytes key) = Ok message;
}.

(** [NaClCore] and an idealisation: the key agreement succeeds with every
    32 bytes given as a public key. PyNaCl raises on some of them (the
    points of low order, such as 32 zero bytes); what is proved from this
    says that [encrypt] returns for recipient keys on which it may raise,
    and it is used only where a statement needs a ciphertext to exist for
    arbitrary recipient keys. *)
Class NaClSpec `{NaCl} : Prop := {
  nacl_core :: NaClCore;
  box_beforenm_ok : forall pk sk,
    length pk = 32%nat -> length sk = 32%nat ->
    exists k, crypto_box_beforenm (OBytes pk) sk = Ok k;
}.

(** Idealised authentication: a box sealed to one public key is rejected by
    the holder of any other key pair. A real box rejects with overwhelming
    probability only; the theorems below ask for [other_boxes_rejected] of
    the message at hand, which this contract implies. *)
Class NaClIsolation `{NaCl} : Prop := {
  box_foreign_rejected : forall message nonce pk esk epk sk' pk' k' c,
    crypto_scalarmult_base esk = Ok epk ->
    crypto_scalarmult_base sk' = Ok pk' ->
    pk <> pk' ->
    crypto_box message nonce pk esk = Ok c ->
    crypto_box_beforenm (OBytes epk) sk' = Ok k' ->
    crypto_box_open_afternm (OBytes c) nonce k' = Err CryptoError;
}.

(** ** A reference instance of the libraries

    Small executable stand-ins that satisfy every contract above: a
    self-delimiting framing with unary lengths, boxes that prefix the
    message with the key and the nonce, and a key agreement that pairs the
    two public keys in sorted order. They make the contracts inhabited and
    let the program be run on concrete inputs. *)

Module Reference.

Fixpoint enc_nat (n : nat) : bytes :=
  match n with
  | O => [x00]
  | S n' => x01 :: enc_nat n'
  end.

Fixpoint dec_nat (s : bytes) : result (nat * bytes) :=
  match s with
  | [] => Err InsufficientDataException
  | x00 :: rest => Ok (O, rest)
  | x01 :: rest =>
      match dec_nat rest with
      | Ok (n, rest') => Ok (S n, rest')
      | Err e => Err e
      end
  | _ :: _ => Err UnpackException
  end.

Definition enc_blob (b : bytes) : bytes := enc_nat (length b) ++ b.

Definition dec_blob (s : bytes) : result (bytes * bytes) :=
  match dec_nat s with
  | Err e => Err e
  | Ok (n, rest) =>
      if (length rest <? n)%nat then Err InsufficientDataException
      else Ok (take n rest, drop n rest)
  end.

Definition enc_Z (z : Z) : bytes :=
  (if z <? 0 then x01 else x00) :: enc_nat (Z.abs_nat z).

Definition dec_Z (s : bytes) : result (Z * bytes) :=
  match s with
  | [] => Err InsufficientDataException
  | x00 :: rest =>
      match dec_nat rest with
      | Ok (n, rest') => Ok (Z.of_nat n, rest')
      | Err e => Err e
      end
  | x01 :: rest =>
      match dec_nat rest with
      | Ok (n, rest') => Ok (- Z.of_nat n, rest')
      | Err e => Err e
      end
  | _ :: _ => Err UnpackException
  end.

Fixpoint enc_codepoints (l : list N) : bytes :=
  match l with
  | [] => []
  | c :: l' => enc_nat (N.to_nat c) ++ enc_codepoints l'
  end.

Fixpoint dec_codepoints (count : nat) (s : bytes) : result (list N * bytes) :=
  match count with
  | O => Ok ([], s)
  | S count' =>
      match dec_nat s with
      | Err e => Err e
      | Ok (c, rest) =>
          match dec_codepoints count' rest with
          | Err e => Err e
          | Ok (l, rest') => Ok (N.of_nat c :: l, rest')
          end
      end
  end.

Fixpoint ref_packb (o : obj) : bytes :=
  match o with
  | ONone => [xc0]
  | OBool false => [xc2]
  | OBool true => [xc3]
  | OInt z => xd3 :: enc_Z z
  | OFloat bits => xcb :: enc_Z bits
  | OStr s => xdb :: enc_nat (length s) ++ enc_codepoints s
  | OBytes b => xc6 :: enc_blob b
  | OExt type data => xc9 :: enc_Z type ++ enc_blob data
  | OList l =>
      xdd :: enc_nat (length l) ++
      (fix pack_items (l : list obj) : bytes :=
         match l with
         | [] => []
         | o' :: l' => ref_packb o' ++ pack_items l'
         end) l
  | ODict items =>
      xdf :: enc_nat (length items) ++
      (fix pack_pairs (l : list (obj * obj)) : bytes :=
         match l with
         | [] => []
         | (key, value) :: l' =>
             ref_packb key ++ ref_packb value ++ pack_pairs l'
         end) items
  end.

(** The keys and values of a dict, one after the other, and back. *)
Fixpoint flatten (items : list (obj * obj)) : list obj :=
  match items with
  | [] => []
  | (key, value) :: items' => key :: value :: flatten items'
  end.

Fixpoint pairs_of (l : list obj) : list (obj * obj) :=
  match l with
  | key :: value :: l' => (key, value) :: pairs_of l'
  | _ => []
  end.

(** Reads [count] values with the reader [read]. *)
Fixpoint read_items (read : bytes -> result (obj * bytes)) (count : nat)
    (s : bytes) : result (list obj * bytes) :=
  match count with
  | O => Ok ([], s)
  | S count' =>
      match read s with
      | Err e => Err e
      | Ok (o, rest) =>
          match read_items read count' rest with
          | Err e => Err e
          | Ok (l, rest') => Ok (o :: l, rest')
          end
      end
  end.

(** [fuel] bounds the nesting depth of the value read. *)
Fixpoint parse (fuel : nat) (s : bytes) : result (obj * bytes) :=
  match fuel with
  | O => Err InsufficientDataException
  | S fuel' =>
      match s with
      | [] => Err InsufficientDataException
      | xc0 :: rest => Ok (ONone, rest)
      | xc2 :: rest => Ok (OBool false, rest)
      | xc3 :: rest => Ok (OBool true, rest)
      | xd3 :: rest =>
          match dec_Z rest with
          | Ok (z, rest') => Ok (OInt z, rest')
          | Err e => Err e
          end
      | xcb :: rest =>
          match dec_Z rest with
          | Ok (bits, rest') => Ok (OFloat bits, rest')
          | Err e => Err e
          end
      | xc9 :: rest =>
          match dec_Z rest with
          | Err e => Err e
          | Ok (type, rest') =>
              match dec_blob rest' with
              | Ok (data, rest'') => Ok (OExt type data, rest'')
              | Err e => Err e
              end
          end
      | xdf :: rest =>
          match dec_nat rest with
          | Err e => Err e
          | Ok (n, rest') =>
              match read_items (parse fuel') (n + n) rest' with
              | Ok (l, rest'') => Ok (ODict (pairs_of l), rest'')
              | Err e => Err e
              end
          end
      | xdb :: rest =>
          match dec_nat rest with
          | Err e => Err e
          | Ok (n, rest') =>
              match dec_codepoints n rest' with
              | Ok (l, rest'') => Ok (OStr l, rest'')
              | Err e => Err e
              end
          end
      | xc6 :: rest =>
          match dec_blob rest with
          | Ok (b, rest') => Ok (OBytes b, rest')
          | Err e => Err e
          end
      | xdd :: rest =>
          match dec_nat rest with
          | Err e => Err e
          | Ok (n, rest') =>
              match read_items (parse fuel') n rest' with
              | Ok (l, rest'') => Ok (OList l, rest'')
              | Err e => Err e
              end
          end
      | _ :: _ => Err UnpackException
      end
  end.

(** Nesting depth of a value: the fuel [parse] needs for it. *)
Fixpoint depth (o : obj) : nat :=
  match o with
  | OList l => S (foldr (fun o' d => Nat.max (depth o') d) O l)
  | ODict items =>
      S (foldr (fun '(key, value) d =>
                  Nat.max (depth key) (Nat.max (depth value) d)) O items)
  | _ => 1
  end.

Definition ref_unpack (s : bytes) : result (obj * bytes) :=
  parse (length s) s.

Definition ref_unpackb (s : bytes) : result obj :=
  match ref_unpack s with
  | Ok (o, _) => Ok o
  | Err e => Err e
  end.

(** The reference framing has no size limit. *)
#[export] Instance umsgpack : Umsgpack :=
  {| packb := ref_packb; packb_raises := fun _ => None;
     unpack := ref_unpack; unpackb := ref_unpackb |}.

#[export] Instance hashlib : Hashlib :=
  {| sha512 := fun x => take 64 (rev x ++ replicate 64 x00) |}.

(** Lexicographic order on bytes. *)
Fixpoint bytes_leb (a b : bytes) : bool :=
  match a, b with
  | [], _ => true
  | _ :: _, [] => false
  | x :: a', y :: b' =>
      if (Byte.to_N x <? Byte.to_N y)%N then true
      else if (Byte.to_N y <? Byte.to_N x)%N then false
      else bytes_leb a' b'
  end.

Definition ref_scalarmult_base (n : bytes) : result bytes := Ok (rev n).

(** The shared secret of two key pairs: their public keys, sorted. *)
Definition ref_beforenm (pk : obj) (sk : bytes) : result bytes :=
  match pk with
  | OBytes pk =>
      let mine := rev sk in
      if bytes_leb pk mine then Ok (enc_blob pk ++ enc_blob mine)
      else Ok (enc_blob mine ++ enc_blob pk)
  | _ => Err TypeError
  end.

Definition ref_seal (message nonce k : bytes) : result bytes :=
  Ok (enc_blob k ++ enc_blob nonce ++ message).

Definition ref_open_bytes (ciphertext nonce k : bytes) : result bytes :=
  match dec_blob ciphertext with
  | Ok (k', rest) =>
      match dec_blob rest with
      | Ok (nonce', message) =>
          if decide (k' = k /\ nonce' = nonce) then Ok message
          else Err CryptoError
      | Err _ => Err CryptoError
      end
  | Err _ => Err CryptoError
  end.

Definition ref_open (ciphertext : obj) (nonce k : bytes) : result bytes :=
  match ciphertext with
  | OBytes c => ref_open_bytes c nonce k
  | _ => Err TypeError
  end.

Definition ref_secretbox_open (ciphertext nonce : bytes) (key : obj)
    : result bytes :=
  match key with
  | OBytes k => ref_open_bytes ciphertext nonce k
  | _ => Err TypeError
  end.

Definition ref_box (message nonce pk sk : bytes) : result bytes :=
  match ref_beforenm (OBytes pk) sk with
  | Ok k => ref_seal message nonce k
  | Err e => Err e
  end.

#[export] Instance nacl : NaCl :=
  {| crypto_scalarmult_base := ref_scalarmult_base;
     crypto_box_beforenm := ref_beforenm;
     crypto_box := ref_box;
     crypto_box_afternm := ref_seal;
     crypto_box_open_afternm := ref_open;
     crypto_secretbox := ref_seal;
     crypto_secretbox_open := ref_secretbox_open |}.

End Reference.

(** ** The limits of MessagePack

    MessagePack has 32 bits for a length and 64 for an int:
    [umsgpack.packb] raises UnsupportedTypeException on a bytes object,
    on a str (in UTF-8) or on the data of an Ext of 2^32 bytes or more,
    on a list or dict of 2^32 items or more, on an int below -2^63 or
    above 2^64 - 1, and on a value that holds one of these. The instance
    below is the reference framing with these limits. *)

Module Limits.
Import Reference.

(** Bytes of the UTF-8 encoding of a str. *)
Definition utf8_length (codepoints : list N) : Z :=
  foldr (fun c n =>
           (if (c <? 128)%N then 1
            else if (c <? 2048)%N then 2
            else if (c <? 65536)%N then 3
            else 4) + n) 0 codepoints.

Fixpoint within_limits (v : obj) : bool :=
  match v with
  | ONone | OBool _ | OFloat _ => true
  | OInt z => (- 2 ^ 63 <=? z) && (z <? 2 ^ 64)
  | OStr s => utf8_length s <? 2 ^ 32
  | OBytes b => Z.of_nat (length b) <? 2 ^ 32
  | OExt _ data => Z.of_nat (length data) <? 2 ^ 32
  | OList l => (Z.of_nat (length l) <? 2 ^ 32) && forallb within_limits l
  | ODict items =>
      (Z.of_nat (length items) <? 2 ^ 32)
      && forallb (fun item =>
                    within_limits (fst item) && within_limits (snd item))
           items
  end.

Definition bounded_umsgpack : Umsgpack :=
  {| packb := ref_packb;
     packb_raises := fun v =>
       if within_limits v then None else Some UnsupportedTypeException;
     unpack := ref_unpack;
     unpackb := ref_unpackb |}.
End Limits.

(** ** Concrete messages over the reference instance *)

Module Examples.
Import Reference.

(** [jack_private] of the script. *)
Definition sender_private : bytes := replicate 32 xaa.
Definition recipient_private : bytes := replicate 31 x01 ++ [x02].
Definition ephemeral_private : bytes := replicate 32 x07.
Definition encryption_key : bytes := replicate 32 x09.
Definition message : bytes := b_lit "hello world".

Definition public_of (private : bytes) : bytes :=
  match crypto_scalarmult_base private with
  | Ok public => public
  | Err _ => []
  end.

Definition recipients : list bytes :=
  [public_of sender_private; public_of recipient_private].

(** [encrypt] to the sender and to the recipient, in chunks of 4 bytes. *)
Definition ciphertext : bytes :=
  match encrypt sender_private recipients message 4 ephemeral_private
          encryption_key with
  | Some (Ok output, _) => output
  | _ => []
  end.

(** The framed values of a stream, as many as can be read. *)
Fixpoint read_all (fuel : nat) (stream : bytes) : list obj :=
  match fuel with
  | O => []
  | S fuel' =>
      match unpack stream with
      | Ok (o, rest) => o :: read_all fuel' rest
      | Err _ => []
      end
  end.

Definition write_all (values : list obj) : bytes := concat (packb <$> values).

Definition set_version_mode (version mode : obj) (header : obj) : obj :=
  match header with
  | OList [format_name; _; _; ephemeral_public; recipient_pairs] =>
      OList [format_name; version; mode; ephemeral_public; recipient_pairs]
  | _ => header
  end.

Definition add_tag_box (extra : obj) (packet : obj) : obj :=
  match packet with
  | OList [OList tag_boxes; body] => OList [OList (tag_boxes ++ [extra]); body]
  | _ => packet
  end.

(** [ciphertext] with version [2, 0] and mode 1 in its header. *)
Definition ciphertext_version_2_mode_1 : bytes :=
  match read_all (length ciphertext) ciphertext with
  | header :: packets =>
      write_all
        (set_version_mode (OList [OInt 2; OInt 0]) (OInt 1) header :: packets)
  | [] => []
  end.

(** [ciphertext] with one more entry in the tag boxes of every packet:
    three tag boxes per packet, two recipient pairs in the header. *)
Definition ciphertext_extra_tag_box : bytes :=
  match read_all (length ciphertext) ciphertext with
  | header :: packets =>
      write_all (header :: (add_tag_box (OBytes []) <$> packets))
  | [] => []
  end.

(** [ciphertext] without its last packet. *)
Definition ciphertext_without_last_packet : bytes :=
  write_all (removelast (read_all (length ciphertext) ciphertext)).

(** The PyNaCl calls of that run of [encrypt]. *)
Definition ciphertext_calls : list call :=
  calls (encrypt sender_private recipients message 4 ephemeral_private
           encryption_key).

Definition set_recipient_ids (id : obj) (header : obj) : obj :=
  match header with
  | OList [format_name; version; mode; ephemeral_public;
           OList recipient_pairs] =>
      OList [format_name; version; mode; ephemeral_public;
             OList ((fun p =>
                       match p with
                       | OList [_; box] => OList [id; box]
                       | _ => p
                       end) <$> recipient_pairs)]
  | _ => header
  end.

(** [ciphertext] with the integer 7 as recipient identifier in every
    recipient pair. *)
Definition ciphertext_with_recipient_ids : bytes :=
  match read_all (length ciphertext) ciphertext with
  | header :: packets =>
      write_all (set_recipient_ids (OInt 7) header :: packets)
  | [] => []
  end.

(** Number of recipient pairs in the header at the start of a stream. *)
Definition header_pairs (stream : bytes) : option nat :=
  match unpack stream with
  | Ok (OList [_; _; _; _; OList recipient_pairs], _) =>
      Some (length recipient_pairs)
  | _ => None
  end.

(** Number of tag boxes of each packet after the header. *)
Definition packet_tag_boxes (stream : bytes) : list (option nat) :=
  match read_all (length stream) stream with
  | _ :: packets =>
      (fun packet =>
         match packet with
         | OList [OList tag_boxes; _] => Some (length tag_boxes)
         | _ => None
         end) <$> packets
  | [] => []
  end.

(** Version and mode in the header at the start of a stream. *)
Definition header_version_mode (stream : bytes) : option (obj * obj) :=
  match unpack stream with
  | Ok (OList [_; version; mode; _; _], _) => Some (version, mode)
  | _ => None
  end.
End Examples.

(** ** Vocabulary for further statements *)

(** [int.from_bytes(b, 'big')], which reads back what [counter] writes. *)
Definition from_bytes_big (b : bytes) : Z :=
  fold_left (fun acc x => acc * 256 + Z_of_byte x) b 0.

(** Every call of a run that finishes, with a result or an exception,
    satisfies [P]. *)
Definition all_calls {A} (P : call -> Prop) (m : M A) : Prop :=
  forall r tr, m = Some (r, tr) -> Forall P tr.

(** The calls [decrypt] may make: a key agreement, or the opening of a box
    or of a secretbox under the nonce prefix followed by a counter, which
    is 0 or at least 2 for a box and at least 2 for a secretbox. *)
Definition decrypt_call (nonce_prefix : bytes) (x : call) : Prop :=
  match x with
  | Call_box_beforenm _ _ => True
  | Call_box_open_afternm _ nonce _ =>
      exists j, (j = 0 \/ 2 <= j < 2 ^ 64)
                /\ nonce = nonce_prefix ++ to_bytes_big 8 j
  | Call_secretbox_open _ nonce _ =>
      exists j, 2 <= j < 2 ^ 64
                /\ nonce = nonce_prefix ++ to_bytes_big 8 j
  | _ => False
  end.

(** ** The command line of the script *)

(** The dict that [docopt.docopt(__doc__)] returns for the usage text of
    the script. A str is the list of its code points, as in [OStr]; an
    argument or option that was not given is None. *)
Record Args : Type := {
  args_encrypt : bool;                 (* args['encrypt'] *)
  args_decrypt : bool;                 (* args['decrypt'] *)
  args_private : option (list N);      (* args['<private>'] *)
  args_recipients : list (list N);     (* args['<recipients>'] *)
  args_chunk : option (list N);        (* args['--chunk'] *)
  args_message : option (list N);      (* args['--message'] *)
  args_debug : bool;                   (* args['--debug'] *)
}.

(** What ends a run of the command line with a traceback: an exception
    out of [encrypt], [decrypt], PyNaCl or [int], or one of those the
    argument handling adds. *)
Inductive uncaught : Type :=
  | Raised (e : exn)
  | AssertionError
  | BinasciiError               (* binascii.Error *)
  | UnicodeEncodeError.

Inductive completion (A : Type) : Type :=
  | Returns (a : A)
  | Raises (e : uncaught).
Arguments Returns {A} a.
Arguments Raises {A} e.

(** A run of the command line is observed through its completion only;
    [None]: the run does not finish. *)
Definition Cmd (A : Type) : Type := option (completion A).

Definition cmd_ret {A} (a : A) : Cmd A := Some (Returns a).
Definition cmd_lift {A} (c : completion A) : Cmd A := Some c.
Definition cmd_bind {A B} (m : Cmd A) (k : A -> Cmd B) : Cmd B :=
  match m with
  | None => None
  | Some (Raises e) => Some (Raises e)
  | Some (Returns a) => k a
  end.

(** A run of [encrypt], [decrypt] or a PyNaCl binding, seen from the
    command line. *)
Definition of_run {A} (m : M A) : Cmd A :=
  match m with
  | None => None
  | Some (Ok a, _) => Some (Returns a)
  | Some (Err e, _) => Some (Raises (Raised e))
  end.

(** [assert b] *)
Definition py_assert (b : bool) : Cmd unit :=
  if b then cmd_ret tt else Some (Raises AssertionError).

Declare Scope cmd_scope.
Delimit Scope cmd_scope with cmd.
Notation "x <- m ;; k" := (cmd_bind m (fun x => k))
  (at level 20, m at level 99, k at level 200, only parsing) : cmd_scope.

(** The standard library functions the argument handling calls. *)
Class Builtins : Type := {
  binascii_unhexlify : list N -> completion bytes;  (* binascii.unhexlify(s) *)
  encode_utf8 : list N -> completion bytes;         (* s.encode('utf8') *)
  py_int : list N -> completion Z;                  (* int(s) *)
}.

Section CommandLine.
Context `{NaCl, Hashlib, Umsgpack, Builtins}.

(** [decrypt(input, recipient_private, debug=True)]: the runs that also
    print the header and the packets through [json_repr]. They are not
    modelled; [do_decrypt] takes them as given. *)
Variable decrypt_debug : bytes -> bytes -> Cmd bytes.

Local Open Scope cmd_scope.

(** [get_private]: an argument that is None or the empty str is false in
    the [if]. *)
Definition get_private (args : Args) : Cmd bytes :=
  match args_private args with
  | Some ((_ :: _) as hex) =>
      private <- cmd_lift (binascii_unhexlify hex) ;;
      _ <- py_assert (length private =? 32)%nat ;;
      cmd_ret private
  | _ => cmd_ret (replicate 32 x00)
  end.

(** The [for] loop of [get_recipients]. *)
Fixpoint get_recipients_loop (rest : list (list N)) (recipients : list bytes)
    : Cmd (list bytes) :=
  match rest with
  | [] => cmd_ret recipients
  | recipient :: rest =>
      key <- cmd_lift (binascii_unhexlify recipient) ;;
      _ <- py_assert (length recipient =? 32)%nat ;;
      get_recipients_loop rest (recipients ++ [key])
  end.

Definition get_recipients (args : Args) : Cmd (list bytes) :=
  match args_recipients args with
  | _ :: _ => get_recipients_loop (args_recipients args) []
  | [] =>
      private <- get_private args ;;
      public <- of_run (bindings_crypto_scalarmult_base private) ;;
      cmd_ret [public]
  end.

(** [do_encrypt]: [stdin] is what [sys.stdin.buffer.read()] returns, the
    result is what is written to [sys.stdout.buffer]; the last two
    arguments are the [os.urandom(32)] draws of [encrypt]. *)
Definition do_encrypt (args : Args) (stdin : bytes)
    (ephemeral_private encryption_key : bytes) : Cmd bytes :=
  let message := args_message args in
  encoded_message <- match message with
                     | None => cmd_ret stdin
                     | Some message => cmd_lift (encode_utf8 message)
                     end ;;
  sender <- get_private args ;;
  chunk_size <- match args_chunk args with
                | Some ((_ :: _) as chunk) => cmd_lift (py_int chunk)
                | _ => cmd_ret (10 ^ 6)
                end ;;
  recipients <- get_recipients args ;;
  output <- of_run (encrypt sender recipients encoded_message chunk_size
                      ephemeral_private encryption_key) ;;
  cmd_ret output.

(** [do_decrypt]: the result is what is written to [sys.stdout.buffer]. *)
Definition do_decrypt (args : Args) (stdin : bytes) : Cmd bytes :=
  let message := stdin in
  private <- get_private args ;;
  decoded_message <- (if args_debug args then decrypt_debug message private
                      else of_run (decrypt message private)) ;;
  cmd_ret decoded_message.

(** [main], after [docopt] has parsed the command line into [args]. *)
Definition main (args : Args) (stdin : bytes)
    (ephemeral_private encryption_key : bytes) : Cmd bytes :=
  if args_encrypt args then
    do_encrypt args stdin ephemeral_private encryption_key
  else do_decrypt args stdin.
End CommandLine.

(** What the proofs assume of [binascii.unhexlify]: two characters of the
    argument for every byte of the result. *)
Class BuiltinsSpec `{Builtins} : Prop := {
  unhexlify_length : forall s b,
    binascii_unhexlify s = Returns b -> length s = (2 * length b)%nat;
}.

(** ** A reference instance of the standard library functions *)

Module ReferenceBuiltins.

Definition hex_digit (c : N) : option Z :=
  if ((48 <=? c) && (c <=? 57))%N then Some (Z.of_N c - 48)
  else if ((97 <=? c) && (c <=? 102))%N then Some (Z.of_N c - 87)
  else if ((65 <=? c) && (c <=? 70))%N then Some (Z.of_N c - 55)
  else None.

Fixpoint ref_unhexlify (s : list N) : completion bytes :=
  match s with
  | [] => Returns []
  | [_] => Raises BinasciiError
  | hi :: lo :: rest =>
      match hex_digit hi, hex_digit lo with
      | Some h, Some l =>
          match ref_unhexlify rest with
          | Returns b => Returns (byte_of_Z (16 * h + l) :: b)
          | Raises e => Raises e
          end
      | _, _ => Raises BinasciiError
      end
  end.

Definition utf8_of_codepoint (c : N) : completion bytes :=
  let z := Z.of_N c in
  if z <? 128 then Returns [byte_of_Z z]
  else if z <? 2048 then
    Returns [byte_of_Z (192 + z / 64); byte_of_Z (128 + z mod 64)]
  else if (55296 <=? z) && (z <? 57344) then Raises UnicodeEncodeError
  else if z <? 65536 then
    Returns [byte_of_Z (224 + z / 4096); byte_of_Z (128 + (z / 64) mod 64);
             byte_of_Z (128 + z mod 64)]
  else
    Returns [byte_of_Z (240 + z / 262144);
             byte_of_Z (128 + (z / 4096) mod 64);
             byte_of_Z (128 + (z / 64) mod 64); byte_of_Z (128 + z mod 64)].

Fixpoint ref_encode_utf8 (s : list N) : completion bytes :=
  match s with
  | [] => Returns []
  | c :: rest =>
      match utf8_of_codepoint c, ref_encode_utf8 rest with
      | Returns b, Returns bs => Returns (b ++ bs)
      | Raises e, _ => Raises e
      | _, Raises e => Raises e
      end
  end.

Fixpoint decimal (s : list N) (acc : Z) : option Z :=
  match s with
  | [] => Some acc
  | c :: rest =>
      if ((48 <=? c) && (c <=? 57))%N then
        decimal rest (10 * acc + (Z.of_N c - 48))
      else None
  end.

(** Decimal digits after an optional sign. *)
Definition ref_int (s : list N) : completion Z :=
  let digits sign rest :=
    match rest, decimal rest 0 with
    | _ :: _, Some z => Returns (sign * z)
    | _, _ => Raises (Raised ValueError)
    end in
  match s with
  | 45%N :: rest => digits (-1) rest
  | 43%N :: rest => digits 1 rest
  | _ => digits 1 s
  end.

#[export] Instance builtins : Builtins :=
  {| binascii_unhexlify := ref_unhexlify;
     encode_utf8 := ref_encode_utf8;
     py_int := ref_int |}.

(** PyNaCl as in [Reference], except that [crypto_box] raises on a
    public key that does not have 32 bytes. *)
Definition strict_box (message nonce pk sk : bytes) : result bytes :=
  if decide (length pk = 32%nat) then Reference.ref_box message nonce pk sk
  else Err ValueError.

Definition strict_nacl : NaCl :=
  {| crypto_scalarmult_base := Reference.ref_scalarmult_base;
     crypto_box_beforenm := Reference.ref_beforenm;
     crypto_box := strict_box;
     crypto_box_afternm := Reference.ref_seal;
     crypto_box_open_afternm := Reference.ref_open;
     crypto_secretbox := Reference.ref_seal;
     crypto_secretbox_open := Reference.ref_secretbox_open |}.

End ReferenceBuiltins.

(** ** Concrete command lines over the reference instances *)

Module CommandLines.
Import Reference ReferenceBuiltins.

Definition codepoints (s : string) : list N :=
  map N_of_ascii (list_ascii_of_string s).

(** encrypt.py encrypt *)
Definition encrypt_to_self : Args :=
  {| args_encrypt := true; args_decrypt := false; args_private := None;
     args_recipients := []; args_chunk := None; args_message := None;
     args_debug := false |}.

(** encrypt.py decrypt *)
Definition decrypt_as_self : Args :=
  {| args_encrypt := false; args_decrypt := true; args_private := None;
     args_recipients := []; args_chunk := None; args_message := None;
     args_debug := false |}.

(** 64 hexadecimal digits: a private key of 32 bytes. *)
Definition private_hex : list N :=
  codepoints
    "000102030405060708090a0b0c0d0e0f101112131415161718191A1B1C1D1E1F".

(** encrypt.py encrypt <private> --chunk=4 --message="hello world" *)
Definition encrypt_hello : Args :=
  {| args_encrypt := true; args_decrypt := false;
     args_private := Some private_hex; args_recipients := [];
     args_chunk := Some (codepoints "4");
     args_message := Some (codepoints "hello world"); args_debug := false |}.

(** encrypt.py decrypt <private> *)
Definition decrypt_hello : Args :=
  {| args_encrypt := false; args_decrypt := true;
     args_private := Some private_hex; args_recipients := [];
     args_chunk := None; args_message := None; args_debug := false |}.

(** encrypt.py encrypt <private> --chunk=0 *)
Definition encrypt_chunk_0 : Args :=
  {| args_encrypt := true; args_decrypt := false;
     args_private := Some private_hex; args_recipients := [];
     args_chunk := Some (codepoints "0"); args_message := None;
     args_debug := false |}.

(** 32 hexadecimal digits: what the [assert] of [get_recipients] lets
    through. *)
Definition recipient_hex : list N :=
  codepoints "00112233445566778899aabbccddeeff".

(** encrypt.py encrypt <private> <recipient> *)
Definition encrypt_to_recipient : Args :=
  {| args_encrypt := true; args_decrypt := false;
     args_private := Some private_hex; args_recipients := [recipient_hex];
     args_chunk := None; args_message := None; args_debug := false |}.

(** What [binascii.unhexlify] makes of [recipient_hex]. *)
Definition recipient_key : bytes :=
  match binascii_unhexlify recipient_hex with
  | Returns key => key
  | Raises _ => []
  end.

(** The runs with [debug=True] are not modelled. *)
Definition no_debug (input recipient_private : bytes) : Cmd bytes := None.

(** A private key that is not among [Examples.recipients]. *)
Definition stranger_private : bytes := replicate 32 x05.

(** The PyNaCl calls of the recipient's [decrypt] of
    [Examples.ciphertext]. *)
Definition decrypt_calls : list call :=
  calls (decrypt Examples.ciphertext Examples.recipient_private).
End CommandLines.

(** * Proofs *)

(** ** chunks_with_empty *)

Lemma py_slice_chunk (message : bytes) (chunk_start chunk_size : Z) :
  0 <= chunk_start < Z.of_nat (length message) ->
  1 <= chunk_size ->
  py_slice message chunk_start (chunk_start + chunk_size)
  = take (Z.to_nat chunk_size) (drop (Z.to_nat chunk_start) message).
Proof.
  intros Hs Hc. unfold py_slice.
  destruct (Z.ltb_spec chunk_start 0) as [?|_]; [lia|].
  destruct (Z.ltb_spec (chunk_start + chunk_size) 0) as [?|_]; [lia|].
  rewrite (Z.min_l chunk_start) by lia.
  destruct (Z.ltb_spec chunk_start
              (Z.min (chunk_start + chunk_size) (Z.of_nat (length message))))
    as [_|?]; [|lia].
  destruct (Z.le_ge_cases (chunk_start + chunk_size)
              (Z.of_nat (length message))) as [Hle|Hge].
  - rewrite Z.min_l by lia. f_equal. lia.
  - rewrite Z.min_r by lia.
    rewrite !take_ge; [done| |]; rewrite length_drop; lia.
Qed.

Lemma chunks_loop_terminates (message : bytes) (chunk_size : Z) :
  1 <= chunk_size ->
  forall fuel chunk_start chunks,
    0 <= chunk_start ->
    (Z.to_nat (Z.of_nat (length message) - chunk_start) < fuel)%nat ->
    exists new,
      chunks_loop fuel message chunk_size chunk_start chunks
      = Some (chunks ++ new ++ [[]])
      /\ concat new = drop (Z.to_nat chunk_start) message
      /\ Forall (fun c : bytes =>
                   (1 <= length c)%nat /\ Z.of_nat (length c) <= chunk_size)
           new.
Proof.
  intros Hc. induction fuel as [|fuel IH]; intros chunk_start chunks Hs Hf.
  - lia.
  - cbn [chunks_loop].
    destruct (Z.ltb_spec chunk_start (Z.of_nat (length message))) as [Hlt|Hge].
    + destruct (IH (chunk_start + chunk_size)
                  (chunks ++
                   [py_slice message chunk_start (chunk_start + chunk_size)]))
        as (new & Hrun & Hcat & Hall); [lia|lia|].
      rewrite py_slice_chunk in Hrun |- * by lia.
      set (c := take (Z.to_nat chunk_size) (drop (Z.to_nat chunk_start) message))
        in *.
      exists (c :: new). split; [|split].
      * rewrite Hrun. f_equal. by rewrite <- app_assoc.
      * cbn [concat]. rewrite Hcat. subst c.
        replace (Z.to_nat (chunk_start + chunk_size))
          with (Z.to_nat chunk_start + Z.to_nat chunk_size)%nat by lia.
        rewrite <- drop_drop. apply take_drop.
      * constructor; [|done]. subst c.
        rewrite length_take, length_drop. lia.
    + exists []. split; [done|]. split; [|constructor].
      cbn. symmetry. apply drop_ge. lia.
Qed.

Lemma chunks_loop_diverges (message : bytes) (chunk_size : Z) :
  chunk_size <= 0 -> message <> [] ->
  forall fuel chunk_start chunks,
    chunk_start <= 0 ->
    chunks_loop fuel message chunk_size chunk_start chunks = None.
Proof.
  intros Hc Hm. induction fuel as [|fuel IH]; intros chunk_start chunks Hs.
  - done.
  - cbn [chunks_loop].
    destruct (Z.ltb_spec chunk_start (Z.of_nat (length message))) as [_|Hge].
    + apply IH. lia.
    + destruct message; [done|]. cbn [length] in Hge. lia.
Qed.

Lemma chunks_loop_more_fuel (message : bytes) (chunk_size : Z) :
  forall fuel fuel' chunk_start chunks r,
    (fuel <= fuel')%nat ->
    chunks_loop fuel message chunk_size chunk_start chunks = Some r ->
    chunks_loop fuel' message chunk_size chunk_start chunks = Some r.
Proof.
  induction fuel as [|fuel IH]; intros fuel' chunk_start chunks r Hle Hrun.
  - done.
  - destruct fuel' as [|fuel']; [lia|]. cbn [chunks_loop] in *.
    destruct (chunk_start <? Z.of_nat (length message)); [|done].
    eapply IH; [|done]. lia.
Qed.

(** The chunks of a message: non-empty pieces of at most [chunk_size]
    bytes that tile it, then the empty chunk. *)
Lemma chunks_with_empty_shape (message : bytes) (chunk_size : Z) :
  1 <= chunk_size ->
  exists body,
    (forall fuel, (length message < fuel)%nat ->
       chunks_with_empty_fuel fuel message chunk_size = Some (body ++ [[]]))
    /\ concat body = message
    /\ Forall (fun c : bytes =>
                 (1 <= length c)%nat /\ Z.of_nat (length c) <= chunk_size)
         body.
Proof.
  intros Hc.
  destruct (chunks_loop_terminates message chunk_size Hc
              (S (length message)) 0 []) as (body & Hrun & Hcat & Hall);
    [lia|lia|].
  exists body. split; [|done].
  intros fuel Hf. unfold chunks_with_empty_fuel.
  eapply chunks_loop_more_fuel; [|exact Hrun]. lia.
Qed.

(** ** Lists *)

(** Two ways to cut the same list: one cut is inside the first part of the
    other. *)
Lemma app_split {A} (p q a b : list A) :
  p ++ q = a ++ b ->
  (exists k, k <> [] /\ a = p ++ k /\ q = k ++ b)
  \/ (exists k, p = a ++ k /\ b = k ++ q).
Proof.
  revert a. induction p as [|x p IH]; intros a Heq.
  - destruct a as [|y a].
    + right. exists []. by cbn in *.
    + left. exists (y :: a). by cbn in *.
  - destruct a as [|y a].
    + right. exists (x :: p). by cbn in *.
    + cbn in Heq. injection Heq as -> Heq.
      destruct (IH a Heq) as [(k & ? & -> & ->)|(k & -> & ->)].
      * left. by exists k.
      * right. by exists k.
Qed.

Lemma elem_of_concat_fmap {A B} (f : A -> list B) (l : list A) (x : B) :
  x ∈ concat (f <$> l) <-> exists y, y ∈ l /\ x ∈ f y.
Proof.
  induction l as [|a l IH]; cbn.
  - split; [by intros ?%elem_of_nil|]. by intros (y & ?%elem_of_nil & _).
  - rewrite elem_of_app, IH. split.
    + intros [Hx | (y & Hy & Hx)].
      * exists a. split; [by left|done].
      * exists y. split; [by right|done].
    + intros (y & [->|Hy]%elem_of_cons & Hx); [by left|].
      right. by exists y.
Qed.

(** ** Counters *)

Lemma byte_of_Z_inj a b :
  0 <= a < 256 -> 0 <= b < 256 -> byte_of_Z a = byte_of_Z b -> a = b.
Proof.
  intros Ha Hb. unfold byte_of_Z.
  destruct (Byte.of_N (Z.to_N a)) as [x|] eqn:Ex.
  - destruct (Byte.of_N (Z.to_N b)) as [y|] eqn:Ey.
    + intros ->. apply Byte.to_of_N in Ex, Ey. lia.
    + apply Byte.of_N_None_iff in Ey. lia.
  - apply Byte.of_N_None_iff in Ex. lia.
Qed.

Lemma to_bytes_big_inj len :
  forall i j,
    0 <= i < 256 ^ Z.of_nat len -> 0 <= j < 256 ^ Z.of_nat len ->
    to_bytes_big len i = to_bytes_big len j -> i = j.
Proof.
  induction len as [|len IH]; intros i j Hi Hj Heq.
  - cbn in Hi, Hj. lia.
  - cbn [to_bytes_big] in Heq. apply app_inj_tail in Heq as [Hhigh Hlow].
    rewrite Nat2Z.inj_succ, Z.pow_succ_r in Hi, Hj by lia.
    apply byte_of_Z_inj in Hlow; [|by apply Z.mod_pos_bound..].
    apply IH in Hhigh.
    + rewrite (Z.div_mod i 256), (Z.div_mod j 256) by lia. congruence.
    + split; [by apply Z.div_pos; lia|]. apply Z.div_lt_upper_bound; lia.
    + split; [by apply Z.div_pos; lia|]. apply Z.div_lt_upper_bound; lia.
Qed.

Lemma length_to_bytes_big len i : length (to_bytes_big len i) = len.
Proof.
  revert i. induction len as [|len IH]; intros i; cbn; [done|].
  rewrite length_app, IH. cbn. lia.
Qed.

Lemma counter_Ok i : 0 <= i < 2 ^ 64 -> counter i = Ok (to_bytes_big 8 i).
Proof.
  intros Hi. unfold counter.
  destruct (Z.leb_spec 0 i); [|lia]. destruct (Z.ltb_spec i (2 ^ 64)); [|lia].
  done.
Qed.

Lemma counter_inv i c : counter i = Ok c -> 0 <= i < 2 ^ 64 /\ c = to_bytes_big 8 i.
Proof.
  unfold counter.
  destruct (Z.leb_spec 0 i); destruct (Z.ltb_spec i (2 ^ 64)); cbn; try done.
  intros [= <-]. split; [lia|done].
Qed.

Lemma counter_inj i j c : counter i = Ok c -> counter j = Ok c -> i = j.
Proof.
  intros [Hi ->]%counter_inv [Hj Heq]%counter_inv.
  symmetry in Heq. by apply (to_bytes_big_inj 8) in Heq.
Qed.

(** ** Runs *)

Lemma prepend_nil {A} (m : M A) : prepend [] m = m.
Proof. by destruct m as [[r tr]|]. Qed.

Lemma prepend_prepend {A} tr1 tr2 (m : M A) :
  prepend tr1 (prepend tr2 m) = prepend (tr1 ++ tr2) m.
Proof. destruct m as [[r tr]|]; [|done]. cbn. by rewrite app_assoc. Qed.

Lemma outcome_prepend {A} tr (m : M A) : outcome (prepend tr m) = outcome m.
Proof. by destruct m as [[r tr']|]. Qed.

Lemma bind_lift_Ok {A B} (a : A) (k : A -> M B) : bind (lift (Ok a)) k = k a.
Proof. cbn. apply prepend_nil. Qed.

Lemma bind_ret {A B} (a : A) (k : A -> M B) : bind (ret a) k = k a.
Proof. cbn. apply prepend_nil. Qed.

Lemma bind_prepend {A B} tr (m : M A) (k : A -> M B) :
  bind (prepend tr m) k = prepend tr (bind m k).
Proof.
  destruct m as [[[a|e] tr']|]; cbn; [|done..].
  by rewrite prepend_prepend.
Qed.

Lemma bind_Ok_inv {A B} (m : M A) (k : A -> M B) b tr :
  bind m k = Some (Ok b, tr) ->
  exists a tr1 tr2,
    m = Some (Ok a, tr1) /\ k a = Some (Ok b, tr2) /\ tr = tr1 ++ tr2.
Proof.
  destruct m as [[[a|e] tr1]|]; cbn; [|done..].
  destruct (k a) as [[r tr2]|] eqn:E; cbn; [|done].
  intros [= -> <-]. by exists a, tr1, tr2.
Qed.

Lemma from_loop_inv {A} (o : option A) a tr :
  from_loop o = Some (Ok a, tr) -> o = Some a /\ tr = [].
Proof. destruct o; cbn; [|done]. by intros [= -> <-]. Qed.

Lemma umsgpack_packb_inv `{Umsgpack} v b tr :
  umsgpack_packb v = Some (Ok b, tr) ->
  packb_raises v = None /\ b = packb v /\ tr = [].
Proof.
  unfold umsgpack_packb. destruct (packb_raises v); [done|].
  by intros [= <- <-].
Qed.

Lemma umsgpack_packb_None `{Umsgpack} v :
  packb_raises v = None -> umsgpack_packb v = ret (packb v).
Proof. unfold umsgpack_packb. by intros ->. Qed.

(** ** What [encrypt] writes *)

Section EncryptShape.
Context `{NaCl, Hashlib, Umsgpack}.

Lemma encrypt_tag_boxes_inv payload_tag payload_nonce recipient_beforenms :
  forall recipient_public_keys acc tag_boxes tr,
    encrypt_tag_boxes payload_tag payload_nonce recipient_beforenms
      recipient_public_keys acc = Some (Ok tag_boxes, tr) ->
    exists ks new,
      Forall2 (fun pk k => recipient_beforenms !! pk = Some k)
        recipient_public_keys ks
      /\ Forall2 (fun k tb =>
                    crypto_box_afternm payload_tag payload_nonce k = Ok tb)
           ks new
      /\ tag_boxes = acc ++ (OBytes <$> new)
      /\ tr = Call_box_afternm payload_tag payload_nonce <$> ks.
Proof.
  induction recipient_public_keys as [|pk pks IH]; intros acc tag_boxes tr.
  - cbn. intros [= <- <-]. exists [], []. by rewrite app_nil_r.
  - cbn [encrypt_tag_boxes]. intros Hrun.
    apply bind_Ok_inv in Hrun as (k & t1 & t2 & Hk & Hrun & ->).
    injection Hk as Hk <-. unfold dict_getitem in Hk.
    destruct (recipient_beforenms !! pk) as [k'|] eqn:Hd; [|done].
    injection Hk as ->.
    apply bind_Ok_inv in Hrun as (tb & t3 & t4 & Htb & Hrun & ->).
    injection Htb as Htb <-.
    apply IH in Hrun as (ks & new & Hks & Hnew & -> & ->).
    exists (k :: ks), (tb :: new). repeat split.
    + by constructor.
    + by constructor.
    + cbn. by rewrite <- app_assoc.
Qed.

Lemma encrypt_recipients_inv keys_bytes header_nonce ephemeral_private
    sender_private :
  forall recipient_public_keys pairs d pairs' d' tr,
    encrypt_recipients keys_bytes header_nonce ephemeral_private
      sender_private recipient_public_keys pairs d
    = Some (Ok (pairs', d'), tr) ->
    exists boxes,
      Forall2 (fun pk box =>
                 crypto_box keys_bytes header_nonce pk ephemeral_private
                 = Ok box) recipient_public_keys boxes
      /\ pairs' = pairs ++ (recipient_pair_for <$> boxes)
      /\ (beforenms_of sender_private d -> beforenms_of sender_private d')
      /\ (forall pk, pk ∈ recipient_public_keys -> is_Some (d' !! pk))
      /\ (forall pk, is_Some (d !! pk) -> is_Some (d' !! pk))
      /\ tr = concat ((fun pk =>
                        [Call_box keys_bytes header_nonce pk
                           ephemeral_private;
                         Call_box_beforenm (OBytes pk) sender_private])
                     <$> recipient_public_keys).
Proof.
  induction recipient_public_keys as [|pk pks IH];
    intros pairs d pairs' d' tr.
  - cbn. intros [= <- <- <-]. exists []. rewrite app_nil_r.
    repeat split; try done. by intros pk ?%elem_of_nil.
  - cbn [encrypt_recipients]. intros Hrun.
    apply bind_Ok_inv in Hrun as (box & t1 & t2 & Hbox & Hrun & ->).
    injection Hbox as Hbox <-.
    apply bind_Ok_inv in Hrun as (k & t3 & t4 & Hk & Hrun & ->).
    injection Hk as Hk <-.
    apply IH in Hrun as (boxes & Hboxes & -> & Hd & Hdom & Hmono & ->).
    exists (box :: boxes). repeat split.
    + by constructor.
    + cbn. by rewrite <- app_assoc.
    + intros Hok. apply Hd. intros pk' k'.
      rewrite lookup_insert. case_decide as Hpk; [|apply Hok].
      intros [= <-]. by subst pk'.
    + intros pk' [->|Hin]%elem_of_cons; [|by apply Hdom].
      apply Hmono. rewrite lookup_insert_eq. by eexists.
    + intros pk' Hsome. apply Hmono. rewrite lookup_insert.
      case_decide; [by eexists|done].
Qed.

Lemma encrypt_packet_inv nonce_prefix encryption_key recipient_beforenms
    recipient_public_keys packetnum chunk packet tr :
  encrypt_packet nonce_prefix encryption_key recipient_beforenms
    recipient_public_keys packetnum chunk = Some (Ok packet, tr) ->
  exists c ct ks tbs,
    counter (packetnum + 2) = Ok c
    /\ crypto_secretbox chunk (nonce_prefix ++ c) encryption_key = Ok ct
    /\ Forall2 (fun pk k => recipient_beforenms !! pk = Some k)
         recipient_public_keys ks
    /\ Forall2 (fun k tb =>
                  crypto_box_afternm (take 16 ct) (nonce_prefix ++ c) k
                  = Ok tb) ks tbs
    /\ packet = OList [OList (OBytes <$> tbs); OBytes (drop 16 ct)]
    /\ tr = Call_secretbox chunk (nonce_prefix ++ c) encryption_key
            :: (Call_box_afternm (take 16 ct) (nonce_prefix ++ c) <$> ks).
Proof.
  unfold encrypt_packet. intros Hrun.
  apply bind_Ok_inv in Hrun as (c & t1 & t2 & Hc & Hrun & ->).
  injection Hc as Hc <-.
  apply bind_Ok_inv in Hrun as (ct & t3 & t4 & Hct & Hrun & ->).
  injection Hct as Hct <-.
  apply bind_Ok_inv in Hrun as (tag_boxes & t5 & t6 & Htb & Hrun & ->).
  injection Hrun as <- <-.
  apply encrypt_tag_boxes_inv in Htb as (ks & tbs & Hks & Htbs & -> & ->).
  exists c, ct, ks, tbs. repeat split; try done.
  cbn. by rewrite app_nil_r.
Qed.

Lemma encrypt_packets_inv nonce_prefix encryption_key recipient_beforenms
    recipient_public_keys :
  forall chunks packetnum output output' tr,
    encrypt_packets nonce_prefix encryption_key recipient_beforenms
      recipient_public_keys packetnum chunks output
    = Some (Ok output', tr) ->
    exists packets,
      packets_written nonce_prefix encryption_key recipient_beforenms
        recipient_public_keys packetnum chunks packets tr
      /\ output' = output ++ concat (packb <$> packets).
Proof.
  induction chunks as [|chunk chunks IH]; intros packetnum output output' tr.
  - cbn. intros [= <- <-]. exists []. split; [constructor|].
    cbn. by rewrite app_nil_r.
  - cbn [encrypt_packets]. intros Hrun.
    apply bind_Ok_inv in Hrun as (packet & t1 & t2 & Hp & Hrun & ->).
    apply bind_Ok_inv in Hrun as (b & t3 & t4 & Hb & Hrun & ->).
    apply umsgpack_packb_inv in Hb as (_ & -> & ->).
    apply IH in Hrun as (packets & Hw & ->).
    exists (packet :: packets). split; [by constructor|].
    cbn. by rewrite <- app_assoc.
Qed.

Lemma packets_written_lookup nonce_prefix encryption_key d
    recipient_public_keys :
  forall packetnum chunks packets tr,
    packets_written nonce_prefix encryption_key d recipient_public_keys
      packetnum chunks packets tr ->
    length packets = length chunks
    /\ forall j chunk,
         chunks !! j = Some chunk ->
         exists packet t,
           packets !! j = Some packet
           /\ encrypt_packet nonce_prefix encryption_key d
                recipient_public_keys (packetnum + Z.of_nat j) chunk
              = Some (Ok packet, t)
           /\ t ⊆ tr.
Proof.
  induction 1 as [j0|j0 chunk chunks packet packets tr trs Hp _ [IHlen IH]].
  - split; [done|]. intros j chunk. by rewrite lookup_nil.
  - split; [cbn; congruence|]. intros [|j] c Hc.
    + injection Hc as <-. exists packet, tr. rewrite Z.add_0_r.
      repeat split; try done. intros x Hx. apply elem_of_app. by left.
    + cbn in Hc. destruct (IH j c Hc) as (p & t & Hl & Hrun & Hsub).
      exists p, t. repeat split; try done.
      * replace (j0 + Z.of_nat (S j)) with (j0 + 1 + Z.of_nat j) by lia.
        done.
      * intros x Hx. apply elem_of_app. right. by apply Hsub.
Qed.

Lemma packets_written_calls nonce_prefix encryption_key d
    recipient_public_keys :
  forall packetnum chunks packets tr,
    packets_written nonce_prefix encryption_key d recipient_public_keys
      packetnum chunks packets tr ->
    forall x, x ∈ tr ->
      exists j chunk c,
        chunks !! j = Some chunk
        /\ counter (packetnum + Z.of_nat j + 2) = Ok c
        /\ (x = Call_secretbox chunk (nonce_prefix ++ c) encryption_key
            \/ exists tag k,
                 x = Call_box_afternm tag (nonce_prefix ++ c) k).
Proof.
  induction 1 as [j0|j0 chunk chunks packet packets tr trs Hp _ IH];
    intros x Hx.
  - by apply elem_of_nil in Hx.
  - apply elem_of_app in Hx as [Hx|Hx].
    + apply encrypt_packet_inv in Hp
        as (c & ct & ks & tbs & Hc & _ & _ & _ & _ & ->).
      exists 0%nat, chunk, c. rewrite Z.add_0_r. repeat split; try done.
      apply elem_of_cons in Hx as [->|Hx]; [by left|right].
      apply list_elem_of_fmap in Hx as (k & -> & _). by eexists _, _.
    + destruct (IH x Hx) as (j & ch & c & Hch & Hc & Hcall).
      exists (S j), ch, c. repeat split; try done.
      replace (j0 + Z.of_nat (S j) + 2) with (j0 + 1 + Z.of_nat j + 2)
        by lia.
      done.
Qed.

Lemma counter_0 : counter 0 = Ok (to_bytes_big 8 0).
Proof. done. Qed.

(** Everything a successful run of [encrypt] computed. *)
Lemma encrypt_inv sender_private recipient_public_keys message chunk_size
    ephemeral_private encryption_key output tr :
  encrypt sender_private recipient_public_keys message chunk_size
    ephemeral_private encryption_key = Some (Ok output, tr) ->
  exists sender_public ephemeral_public boxes d chunks packets tr_p,
    crypto_scalarmult_base sender_private = Ok sender_public
    /\ crypto_scalarmult_base ephemeral_private = Ok ephemeral_public
    /\ Forall2 (fun pk box =>
                  crypto_box
                    (packb (OList [OBytes sender_public;
                                   OBytes encryption_key]))
                    (nonce_prefix_for ephemeral_public ++ to_bytes_big 8 0)
                    pk ephemeral_private = Ok box)
         recipient_public_keys boxes
    /\ beforenms_of sender_private d
    /\ (forall pk, pk ∈ recipient_public_keys -> is_Some (d !! pk))
    /\ chunks_with_empty message chunk_size = Some chunks
    /\ packets_written (nonce_prefix_for ephemeral_public) encryption_key d
         recipient_public_keys 0 chunks packets tr_p
    /\ output = packb (header_for ephemeral_public boxes)
                ++ concat (packb <$> packets)
    /\ tr = [Call_scalarmult_base sender_private;
             Call_scalarmult_base ephemeral_private]
            ++ concat ((fun pk =>
                         [Call_box
                            (packb (OList [OBytes sender_public;
                                           OBytes encryption_key]))
                            (nonce_prefix_for ephemeral_public
                             ++ to_bytes_big 8 0)
                            pk ephemeral_private;
                          Call_box_beforenm (OBytes pk) sender_private])
                      <$> recipient_public_keys)
            ++ tr_p.
Proof.
  unfold encrypt. intros Hrun.
  apply bind_Ok_inv in Hrun as (spk & t1 & t2 & Hspk & Hrun & ->).
  injection Hspk as Hspk <-.
  apply bind_Ok_inv in Hrun as (epk & t3 & t4 & Hepk & Hrun & ->).
  injection Hepk as Hepk <-.
  apply bind_Ok_inv in Hrun as (kb & ? & ? & Hkb & Hrun & ->).
  apply umsgpack_packb_inv in Hkb as (_ & -> & ->).
  rewrite counter_0, bind_lift_Ok in Hrun.
  apply bind_Ok_inv in Hrun as ([pairs d] & t5 & t6 & Hrec & Hrun & ->).
  apply encrypt_recipients_inv in Hrec
    as (boxes & Hboxes & -> & Hd & Hdom & _ & ->).
  apply bind_Ok_inv in Hrun as (hb & ? & ? & Hhb & Hrun & ->).
  apply umsgpack_packb_inv in Hhb as (_ & -> & ->).
  apply bind_Ok_inv in Hrun as (chunks & t7 & t8 & Hch & Hrun & ->).
  apply from_loop_inv in Hch as [Hch ->].
  apply encrypt_packets_inv in Hrun as (packets & Hw & ->).
  exists spk, epk, boxes, d, chunks, packets, t8.
  repeat split; try done.
  apply Hd. intros pk k. by rewrite lookup_empty.
Qed.
End EncryptShape.

(** ** [encrypt] succeeds on well-sized arguments *)

Lemma bind_Ok_intro {A B} (m : M A) (k : A -> M B) a b tr1 tr2 :
  m = Some (Ok a, tr1) -> k a = Some (Ok b, tr2) ->
  bind m k = Some (Ok b, tr1 ++ tr2).
Proof. intros -> Hk. cbn. by rewrite Hk. Qed.

Lemma length_concat_nonempty {A} (l : list (list A)) :
  Forall (fun c => (1 <= length c)%nat) l ->
  (length l <= length (concat l))%nat.
Proof.
  induction 1 as [|c l Hc _ IH]; cbn; [lia|]. rewrite length_app. lia.
Qed.

Section EncryptRuns.
Context `{NaCl, Hashlib, Umsgpack}.
Context `{!NaClCore, !HashlibSpec}.

Lemma length_nonce ephemeral_public i :
  length (nonce_prefix_for ephemeral_public ++ to_bytes_big 8 i) = 24%nat.
Proof.
  unfold nonce_prefix_for.
  rewrite length_app, length_take, sha512_length, length_to_bytes_big. lia.
Qed.

Lemma encrypt_tag_boxes_ok payload_tag payload_nonce sender_private d :
  length payload_nonce = 24%nat ->
  beforenms_of sender_private d ->
  forall recipient_public_keys acc,
    (forall pk, pk ∈ recipient_public_keys -> is_Some (d !! pk)) ->
    exists tag_boxes tr,
      encrypt_tag_boxes payload_tag payload_nonce d recipient_public_keys acc
      = Some (Ok tag_boxes, tr).
Proof.
  intros Hn Hd. induction recipient_public_keys as [|pk pks IH];
    intros acc Hdom.
  - by eexists _, _.
  - cbn [encrypt_tag_boxes].
    destruct (Hdom pk) as [k Hk]; [by left|].
    destruct (box_afternm_ok payload_tag payload_nonce pk sender_private k
                Hn (Hd _ _ Hk)) as [tb Htb].
    destruct (IH (acc ++ [OBytes tb])) as (tbs & tr & Hrun).
    { intros pk' Hin. apply Hdom. by right. }
    unfold dict_getitem. rewrite Hk, bind_lift_Ok.
    unfold bindings_crypto_box_afternm. rewrite Htb.
    eexists _, _. by eapply bind_Ok_intro.
Qed.

Lemma encrypt_packet_ok ephemeral_public encryption_key sender_private d
    recipient_public_keys packetnum chunk :
  length encryption_key = 32%nat ->
  beforenms_of sender_private d ->
  (forall pk, pk ∈ recipient_public_keys -> is_Some (d !! pk)) ->
  0 <= packetnum + 2 < 2 ^ 64 ->
  exists packet tr,
    encrypt_packet (nonce_prefix_for ephemeral_public) encryption_key d
      recipient_public_keys packetnum chunk = Some (Ok packet, tr).
Proof.
  intros Hkey Hd Hdom Hj. unfold encrypt_packet.
  rewrite (counter_Ok _ Hj), bind_lift_Ok.
  destruct (secretbox_ok chunk
              (nonce_prefix_for ephemeral_public
               ++ to_bytes_big 8 (packetnum + 2)) encryption_key)
    as [ct Hct]; [apply length_nonce|done|].
  unfold bindings_crypto_secretbox. rewrite Hct.
  destruct (encrypt_tag_boxes_ok (take 16 ct)
              (nonce_prefix_for ephemeral_public
               ++ to_bytes_big 8 (packetnum + 2)) sender_private d
              (length_nonce _ _) Hd recipient_public_keys [] Hdom)
    as (tbs & tr & Htbs).
  eexists _, _. eapply bind_Ok_intro; [done|].
  by eapply bind_Ok_intro.
Qed.

Lemma encrypt_packets_ok ephemeral_public encryption_key sender_private d
    recipient_public_keys :
  (forall v, packb_raises v = None) ->
  length encryption_key = 32%nat ->
  beforenms_of sender_private d ->
  (forall pk, pk ∈ recipient_public_keys -> is_Some (d !! pk)) ->
  forall chunks packetnum output,
    0 <= packetnum ->
    packetnum + Z.of_nat (length chunks) + 2 <= 2 ^ 64 ->
    exists output' tr,
      encrypt_packets (nonce_prefix_for ephemeral_public) encryption_key d
        recipient_public_keys packetnum chunks output
      = Some (Ok output', tr).
Proof.
  intros Hpack Hkey Hd Hdom. induction chunks as [|chunk chunks IH];
    intros packetnum output Hj Hbound.
  - by eexists _, _.
  - cbn [encrypt_packets]. cbn [length] in Hbound.
    destruct (encrypt_packet_ok ephemeral_public encryption_key
                sender_private d recipient_public_keys packetnum chunk)
      as (packet & t1 & Hp); [done|done|done|lia|].
    destruct (IH (packetnum + 1) (output ++ packb packet))
      as (output' & t2 & Hrun); [lia|lia|].
    eexists _, _. eapply bind_Ok_intro; [done|].
    rewrite (umsgpack_packb_None _ (Hpack packet)). by rewrite bind_ret.
Qed.

Lemma crypto_box_agreed message nonce pk sk k :
  length nonce = 24%nat ->
  crypto_box_beforenm (OBytes pk) sk = Ok k ->
  exists box, crypto_box message nonce pk sk = Ok box.
Proof.
  intros Hn Hk. rewrite (box_is_afternm _ _ _ _ _ Hk).
  by eapply box_afternm_ok.
Qed.

(** The recipient loop of [encrypt] runs through when the key agreement
    succeeds with every recipient key, for the ephemeral and for the
    sender's private key. *)
Lemma encrypt_recipients_runs keys_bytes header_nonce ephemeral_private
    sender_private :
  length header_nonce = 24%nat ->
  forall recipient_public_keys pairs d,
    Forall (fun pk : bytes =>
              (exists k, crypto_box_beforenm (OBytes pk) ephemeral_private
                         = Ok k)
              /\ (exists k, crypto_box_beforenm (OBytes pk) sender_private
                            = Ok k)) recipient_public_keys ->
    exists r tr,
      encrypt_recipients keys_bytes header_nonce ephemeral_private
        sender_private recipient_public_keys pairs d = Some (Ok r, tr).
Proof.
  intros Hn. induction recipient_public_keys as [|pk pks IH];
    intros pairs d Hall.
  - by eexists _, _.
  - cbn [encrypt_recipients].
    inversion Hall as [|? ? [[ke Hke] [k Hk]] Hpks]; subst.
    destruct (crypto_box_agreed keys_bytes header_nonce pk ephemeral_private
                ke Hn Hke) as [box Hbox].
    destruct (IH (pairs ++ [OList [ONone; OBytes box]]) (<[pk:=k]> d) Hpks)
      as (r & tr & Hrun).
    unfold bindings_crypto_box, bindings_crypto_box_beforenm.
    rewrite Hbox, Hk.
    eexists _, _. eapply bind_Ok_intro; [done|].
    by eapply bind_Ok_intro.
Qed.

(** A recipient key that is the public key of some private key. *)
Lemma derived_keys_agree (private : bytes) (recipient_public_keys : list bytes) :
  length private = 32%nat ->
  Forall (fun pk : bytes =>
            exists n, length n = 32%nat /\ crypto_scalarmult_base n = Ok pk)
    recipient_public_keys ->
  Forall (fun pk : bytes =>
            exists k, crypto_box_beforenm (OBytes pk) private = Ok k)
    recipient_public_keys.
Proof.
  intros Hlen. apply Forall_impl. intros pk (n & Hn & Hpk).
  by eapply box_beforenm_derived.
Qed.

(** [encrypt] returns when the key agreement succeeds with every recipient
    key and [packb] raises on nothing, for private keys of 32 bytes, a
    chunk size of at least 1 and a message no longer than a Python bytes
    object can be. *)
Lemma encrypt_runs sender_private recipient_public_keys message chunk_size
    ephemeral_private encryption_key :
  (forall v, packb_raises v = None) ->
  length sender_private = 32%nat ->
  Forall (fun pk : bytes =>
            (exists k, crypto_box_beforenm (OBytes pk) ephemeral_private
                       = Ok k)
            /\ (exists k, crypto_box_beforenm (OBytes pk) sender_private
                          = Ok k)) recipient_public_keys ->
  length ephemeral_private = 32%nat ->
  length encryption_key = 32%nat ->
  1 <= chunk_size ->
  Z.of_nat (length message) < 2 ^ 63 ->
  exists output tr,
    encrypt sender_private recipient_public_keys message chunk_size
      ephemeral_private encryption_key = Some (Ok output, tr).
Proof.
  intros Hpack Hsk Hpks Hesk Hkey Hcs Hlen. unfold encrypt.
  destruct (scalarmult_base_ok sender_private Hsk) as (spk & Hspk & _).
  destruct (scalarmult_base_ok ephemeral_private Hesk) as (epk & Hepk & _).
  unfold bindings_crypto_scalarmult_base. rewrite Hspk, Hepk.
  destruct (encrypt_recipients_runs
              (packb (OList [OBytes spk; OBytes encryption_key]))
              (nonce_prefix_for epk ++ to_bytes_big 8 0)
              ephemeral_private sender_private (length_nonce _ _)
              recipient_public_keys [] ∅ Hpks) as ([pairs d] & t1 & Hrec).
  pose proof Hrec as Hinv.
  apply encrypt_recipients_inv in Hinv as (boxes & _ & _ & Hd & Hdom & _).
  destruct (chunks_with_empty_shape message chunk_size Hcs)
    as (body & Hch & Hcat & Hbody).
  specialize (Hch (S (length message)) (Nat.lt_succ_diag_r _)).
  fold (chunks_with_empty message chunk_size) in Hch.
  assert (beforenms_of sender_private d) as Hd'.
  { apply Hd. intros pk k. by rewrite lookup_empty. }
  destruct (encrypt_packets_ok epk encryption_key sender_private d
              recipient_public_keys Hpack Hkey Hd' Hdom (body ++ [[]]) 0
              (packb (OList [str_lit "SaltBox"; OList [OInt 1; OInt 0];
                             OInt 0; OBytes epk; OList pairs])))
    as (output & t2 & Hrun).
  - done.
  - rewrite length_app. cbn [length].
    assert (length body <= length message)%nat.
    { rewrite <- Hcat. apply length_concat_nonempty.
      revert Hbody. apply Forall_impl. by intros c [? _]. }
    lia.
  - eexists _, _.
    eapply bind_Ok_intro; [done|]. eapply bind_Ok_intro; [done|].
    cbn beta zeta.
    rewrite (umsgpack_packb_None _ (Hpack _)), bind_ret.
    rewrite counter_0, bind_lift_Ok.
    eapply bind_Ok_intro; [exact Hrec|]. cbn beta iota zeta.
    rewrite (umsgpack_packb_None _ (Hpack _)), bind_ret.
    rewrite Hch. eapply bind_Ok_intro; [done|]. exact Hrun.
Qed.
End EncryptRuns.

Section EncryptReturns.
Context `{NaCl, Hashlib, Umsgpack}.
Context `{!NaClSpec, !HashlibSpec, !UmsgpackSpec}.

(** [encrypt] returns, for keys of 32 bytes, a chunk size of at least 1
    and a message no longer than a Python bytes object can be. *)
Lemma encrypt_ok sender_private recipient_public_keys message chunk_size
    ephemeral_private encryption_key :
  length sender_private = 32%nat ->
  Forall (fun pk : bytes => length pk = 32%nat) recipient_public_keys ->
  length ephemeral_private = 32%nat ->
  length encryption_key = 32%nat ->
  1 <= chunk_size ->
  Z.of_nat (length message) < 2 ^ 63 ->
  exists output tr,
    encrypt sender_private recipient_public_keys message chunk_size
      ephemeral_private encryption_key = Some (Ok output, tr).
Proof.
  intros Hsk Hpks Hesk Hkey Hcs Hlen.
  apply encrypt_runs; try done; [apply packb_returns|].
  revert Hpks. apply Forall_impl. intros pk Hpk.
  split; by apply box_beforenm_ok.
Qed.
End EncryptReturns.

(** ** The payload loop of [decrypt] *)

Section DecryptPackets.
Context `{NaCl, Hashlib, Umsgpack}.
Context `{!UmsgpackCore}.

Lemma packb_nonempty v : (1 <= length (packb v))%nat.
Proof.
  pose proof (unpack_consumes _ _ _ (unpack_packb v [])) as Hlt.
  rewrite app_nil_r in Hlt. lia.
Qed.

Lemma length_packets_le (packets : list obj) :
  (length packets <= length (concat (packb <$> packets)))%nat.
Proof.
  induction packets as [|p ps IH]; cbn in *; [lia|].
  rewrite length_app. pose proof (packb_nonempty p). lia.
Qed.

(** A packet that opens to the given chunk, from its parts. *)
Lemma decrypt_packet_opens nonce_prefix sender_beforenm key recipient_index
    packetnum c tag_boxes tag_box body payload_tag chunk rest :
  counter packetnum = Ok c ->
    tag_boxes !! recipient_index = Some tag_box ->
  crypto_box_open_afternm tag_box (nonce_prefix ++ c) sender_beforenm
  = Ok payload_tag ->
  crypto_secretbox_open (payload_tag ++ body) (nonce_prefix ++ c) key
  = Ok chunk ->
  decrypt_packet nonce_prefix sender_beforenm key recipient_index
    (packb (OList [OList tag_boxes; OBytes body]) ++ rest) packetnum
  = Some (Ok (chunk, rest),
          [Call_box_open_afternm tag_box (nonce_prefix ++ c)
             sender_beforenm;
           Call_secretbox_open (payload_tag ++ body) (nonce_prefix ++ c)
             key]).
Proof.
  intros Hc Htb Hopen Hsopen. unfold decrypt_packet.
  rewrite Hc, bind_lift_Ok, unpack_packb, bind_lift_Ok.
  cbn [unpack2 py_iter]. rewrite bind_lift_Ok.
    cbn [py_getitem]. rewrite Htb, bind_lift_Ok.
  unfold bindings_crypto_box_open_afternm, bindings_crypto_secretbox_open.
  rewrite Hopen. cbn [bind as_bytes]. rewrite bind_lift_Ok, Hsopen. done.
Qed.

Lemma decrypt_packets_prefix nonce_prefix sender_beforenm key
    recipient_index packetnum packets chunks :
  packets_open nonce_prefix sender_beforenm key recipient_index packetnum
    packets chunks ->
  Forall (fun c : bytes => c <> []) chunks ->
  forall fuel rest output,
    (length packets <= fuel)%nat ->
    exists tr,
      decrypt_packets fuel nonce_prefix sender_beforenm key recipient_index
        (concat (packb <$> packets) ++ rest) packetnum output
      = prepend tr
          (decrypt_packets (fuel - length packets) nonce_prefix
             sender_beforenm key recipient_index rest
             (packetnum + Z.of_nat (length packets))
             (output ++ concat chunks)).
Proof.
  induction 1 as [j|j packet packets chunk chunks Hp _ IH];
    intros Hne fuel rest output Hfuel.
  - exists []. cbn [length fmap list_fmap app concat].
    rewrite prepend_nil, Nat.sub_0_r, Z.add_0_r, app_nil_r. done.
  - inversion Hne as [|? ? Hchunk Hchunks]; subst.
    destruct fuel as [|fuel]; [cbn in Hfuel; lia|].
    cbn [fmap list_fmap concat]. rewrite <- app_assoc.
    destruct (Hp (concat (packb <$> packets) ++ rest)) as [t1 Hrun].
    destruct (IH Hchunks fuel rest (output ++ chunk)) as [t2 Hrest].
    { cbn in Hfuel. lia. }
    exists (t1 ++ t2). cbn [decrypt_packets]. rewrite Hrun. cbn [bind].
    rewrite decide_False by done.
    rewrite Hrest, prepend_prepend. cbn [length concat].
    rewrite <- app_assoc.
    replace (j + 1 + Z.of_nat (length packets))
      with (j + Z.of_nat (S (length packets))) by lia.
    done.
Qed.

(** The loop stops at the packet that opens to the empty chunk and
    returns what it has collected; the stream after it is not read. *)
Lemma decrypt_packets_sentinel nonce_prefix sender_beforenm key
    recipient_index packetnum packet fuel rest output :
  (forall rest, exists tr,
     decrypt_packet nonce_prefix sender_beforenm key recipient_index
       (packb packet ++ rest) packetnum = Some (Ok ([], rest), tr)) ->
  exists tr,
    decrypt_packets (S fuel) nonce_prefix sender_beforenm key
      recipient_index (packb packet ++ rest) packetnum output
    = Some (Ok output, tr).
Proof.
  intros Hp. destruct (Hp rest) as [tr Hrun]. exists tr.
  cbn [decrypt_packets]. rewrite Hrun. cbn [bind].
  rewrite decide_True by done. cbn. by rewrite !app_nil_r.
Qed.

Lemma packets_open_app_inv nonce_prefix sender_beforenm key recipient_index :
  forall chunks1 chunks2 packetnum packets,
    packets_open nonce_prefix sender_beforenm key recipient_index packetnum
      packets (chunks1 ++ chunks2) ->
    exists packets1 packets2,
      packets = packets1 ++ packets2
      /\ length packets1 = length chunks1
      /\ packets_open nonce_prefix sender_beforenm key recipient_index
           packetnum packets1 chunks1
      /\ packets_open nonce_prefix sender_beforenm key recipient_index
           (packetnum + Z.of_nat (length chunks1)) packets2 chunks2.
Proof.
  induction chunks1 as [|c chunks1 IH]; intros chunks2 j packets Hopen.
  - exists [], packets. cbn. rewrite Z.add_0_r.
    repeat split; [constructor|done].
  - cbn in Hopen. inversion Hopen as [|? p ps ? ? Hp Hps]; subst.
    apply IH in Hps as (ps1 & ps2 & -> & Hlen & H1' & H2').
    exists (p :: ps1), ps2. cbn [length]. repeat split.
    + by rewrite Hlen.
    + by constructor.
    + replace (j + Z.of_nat (S (length chunks1)))
        with (j + 1 + Z.of_nat (length chunks1)) by lia.
      done.
Qed.

(** Reading a whole message: the chunks before the empty one are
    returned, whatever follows the last packet. *)
Lemma decrypt_packets_complete nonce_prefix sender_beforenm key
    recipient_index packets body extra output :
  packets_open nonce_prefix sender_beforenm key recipient_index 2 packets
    (body ++ [[]]) ->
  Forall (fun c : bytes => c <> []) body ->
  exists tr,
    decrypt_packets (S (length (concat (packb <$> packets) ++ extra)))
      nonce_prefix sender_beforenm key recipient_index
      (concat (packb <$> packets) ++ extra) 2 output
    = Some (Ok (output ++ concat body), tr).
Proof.
  intros Hopen Hbody.
  apply packets_open_app_inv in Hopen as (ps1 & ps2 & -> & Hlen & H1' & H2').
  inversion H2' as [|? p ps ? ? Hp Hps]; subst.
  inversion Hps; subst.
  rewrite fmap_app, concat_app, <- app_assoc.
  cbn [fmap list_fmap concat]. rewrite app_nil_r.
  pose proof (length_packets_le ps1) as Hle.
  destruct (decrypt_packets_prefix _ _ _ _ _ _ _ H1' Hbody
              (S (length (concat (packb <$> ps1) ++ packb p ++ extra)))
              (packb p ++ extra) output) as [t1 Hrun].
  { rewrite length_app. lia. }
  rewrite Hrun.
  destruct (S (length (concat (packb <$> ps1) ++ packb p ++ extra))
            - length ps1)%nat as [|fuel] eqn:Hfuel.
  { rewrite length_app in Hfuel. lia. }
  destruct (decrypt_packets_sentinel nonce_prefix sender_beforenm key
              recipient_index (2 + Z.of_nat (length ps1)) p fuel extra
              (output ++ concat body)) as [t2 Hlast].
  { by rewrite Hlen. }
  rewrite Hlast. by eexists.
Qed.

(** A run of [decrypt_packet] that returns has a packet number in range. *)
Lemma decrypt_packet_counter nonce_prefix sender_beforenm key
    recipient_index stream packetnum r tr :
  decrypt_packet nonce_prefix sender_beforenm key recipient_index stream
    packetnum = Some (Ok r, tr) ->
  exists c, counter packetnum = Ok c.
Proof.
  unfold decrypt_packet. intros Hrun.
  apply bind_Ok_inv in Hrun as (c & t1 & t2 & Hc & _).
  injection Hc as Hc _. by exists c.
Qed.

(** The stream ends inside a packet, or between two packets, before the
    packet of the empty chunk: the reader raises. *)
Lemma decrypt_packets_cut `{!UmsgpackEOF} nonce_prefix sender_beforenm key
    recipient_index :
  forall packetnum packets chunks,
    packets_open nonce_prefix sender_beforenm key recipient_index packetnum
      packets chunks ->
    (forall i c, chunks !! i = Some c -> (S i < length chunks)%nat ->
                 c <> []) ->
    forall stream missing fuel output,
      concat (packb <$> packets) = stream ++ missing ->
      missing <> [] ->
      (length stream < fuel)%nat ->
      exists tr,
        decrypt_packets fuel nonce_prefix sender_beforenm key
          recipient_index stream packetnum output
        = Some (Err InsufficientDataException, tr).
Proof.
  induction 1 as [j|j packet packets chunk chunks Hp Hps IH];
    intros Hne stream missing fuel output Hcut Hmissing Hfuel.
  - cbn in Hcut. symmetry in Hcut.
    apply app_eq_nil in Hcut as [_ ->]. done.
  - destruct fuel as [|fuel]; [lia|]. cbn [fmap list_fmap concat] in Hcut.
    symmetry in Hcut.
    destruct (app_split _ _ _ _ Hcut) as [(k & Hk & Hpk & _)|(k & -> & Hrest)].
    + destruct (Hp []) as [t Hrun].
      apply decrypt_packet_counter in Hrun as [c Hc].
      exists []. cbn [decrypt_packets]. unfold decrypt_packet.
      rewrite Hc, bind_lift_Ok.
      by rewrite (unpack_truncated packet stream k Hpk Hk).
    + destruct (Hp k) as [t1 Hrun].
      assert (chunk <> []) as Hchunk.
      { apply (Hne 0%nat); [done|]. cbn [length].
        destruct chunks; [|cbn [length]; lia].
        inversion Hps; subst. cbn in Hrest. symmetry in Hrest.
        apply app_eq_nil in Hrest as [_ ->]. done. }
      destruct (IH (fun i c Hi Hlt => Hne (S i) c Hi (proj1 (Nat.succ_lt_mono _ _) Hlt))
                  k missing fuel (output ++ chunk) Hrest Hmissing)
        as [t2 Hcont].
      { rewrite length_app in Hfuel. pose proof (packb_nonempty packet).
        lia. }
      exists (t1 ++ t2). cbn [decrypt_packets]. rewrite Hrun. cbn [bind].
      rewrite decide_False by done. by rewrite Hcont.
Qed.

Lemma packets_open_length nonce_prefix sender_beforenm key recipient_index :
  forall packetnum packets chunks,
    packets_open nonce_prefix sender_beforenm key recipient_index packetnum
      packets chunks ->
    length packets = length chunks.
Proof. induction 1; cbn; congruence. Qed.

Lemma packets_open_take nonce_prefix sender_beforenm key recipient_index n :
  forall packetnum packets chunks,
    packets_open nonce_prefix sender_beforenm key recipient_index packetnum
      packets chunks ->
    packets_open nonce_prefix sender_beforenm key recipient_index packetnum
      (take n packets) (take n chunks).
Proof.
  induction n as [|n IH]; intros j packets chunks Hopen; [constructor|].
  destruct Hopen; cbn; constructor; auto.
Qed.

Lemma packets_open_counter nonce_prefix sender_beforenm key recipient_index :
  forall packetnum packets chunks,
    packets_open nonce_prefix sender_beforenm key recipient_index packetnum
      packets chunks ->
    forall n, (n < length packets)%nat ->
      exists c, counter (packetnum + Z.of_nat n) = Ok c.
Proof.
  induction 1 as [j|j packet packets chunk chunks Hp _ IH]; intros n Hn.
  - cbn in Hn. lia.
  - destruct n as [|n].
    + destruct (Hp []) as [t Hrun]. rewrite Z.add_0_r.
      by apply decrypt_packet_counter in Hrun.
    + destruct (IH n) as [c Hc]; [cbn in Hn; lia|]. exists c.
      by replace (j + Z.of_nat (S n)) with (j + 1 + Z.of_nat n) by lia.
Qed.

(** A packet that is not a sequence of two items, or whose first item has
    nothing at the recipient's index, makes the loop body raise. *)
Lemma decrypt_packet_malformed nonce_prefix sender_beforenm key
    recipient_index packetnum c bad rest e :
  counter packetnum = Ok c ->
  unpack2 bad = Err e
  \/ (exists tag_boxes body,
        unpack2 bad = Ok (tag_boxes, body)
        /\ py_getitem tag_boxes recipient_index = Err e) ->
  decrypt_packet nonce_prefix sender_beforenm key recipient_index
    (packb bad ++ rest) packetnum = Some (Err e, []).
Proof.
  intros Hc Hbad. unfold decrypt_packet.
  rewrite Hc, bind_lift_Ok, unpack_packb, bind_lift_Ok.
  destruct Hbad as [-> | (tag_boxes & body & -> & Hget)]; [done|].
  rewrite bind_lift_Ok, Hget. done.
Qed.
End DecryptPackets.

(** ** The recipient loop of [decrypt] *)

Section DecryptRecipients.
Context `{NaCl, Hashlib, Umsgpack}.

(** A pair whose box is rejected: the loop goes on to the next pair. *)
Lemma decrypt_recipients_rejected nonce_prefix ephemeral_beforenm pair' x box
    rest recipient_index :
  unpack2 pair' = Ok (x, box) ->
  crypto_box_open_afternm box (nonce_prefix ++ to_bytes_big 8 0)
    ephemeral_beforenm = Err CryptoError ->
  decrypt_recipients nonce_prefix ephemeral_beforenm (pair' :: rest)
    recipient_index
  = prepend [Call_box_open_afternm box (nonce_prefix ++ to_bytes_big 8 0)
               ephemeral_beforenm]
      (decrypt_recipients nonce_prefix ephemeral_beforenm rest
         (S recipient_index)).
Proof.
  intros Hpair Hopen. cbn [decrypt_recipients].
    rewrite Hpair, bind_lift_Ok, counter_0, bind_lift_Ok.
  unfold bindings_crypto_box_open_afternm. rewrite Hopen. done.
Qed.

(** A pair whose box opens: the loop stops there. *)
Lemma decrypt_recipients_opened nonce_prefix ephemeral_beforenm pair' x box
    keys_bytes rest recipient_index :
  unpack2 pair' = Ok (x, box) ->
  crypto_box_open_afternm box (nonce_prefix ++ to_bytes_big 8 0)
    ephemeral_beforenm = Ok keys_bytes ->
  decrypt_recipients nonce_prefix ephemeral_beforenm (pair' :: rest)
    recipient_index
  = Some (Ok (recipient_index, keys_bytes),
          [Call_box_open_afternm box (nonce_prefix ++ to_bytes_big 8 0)
             ephemeral_beforenm]).
Proof.
  intros Hpair Hopen. cbn [decrypt_recipients].
    rewrite Hpair, bind_lift_Ok, counter_0, bind_lift_Ok.
  unfold bindings_crypto_box_open_afternm. rewrite Hopen. done.
Qed.

(** The first pair whose box opens decides; the pairs after it play no
    part. *)
Lemma decrypt_recipients_first nonce_prefix ephemeral_beforenm :
  forall before boxes pair' x box keys_bytes after recipient_index,
    Forall2 (fun p b => exists y, unpack2 p = Ok (y, b)) before
      boxes ->
    Forall (fun b =>
              crypto_box_open_afternm b (nonce_prefix ++ to_bytes_big 8 0)
                ephemeral_beforenm = Err CryptoError) boxes ->
    unpack2 pair' = Ok (x, box) ->
    crypto_box_open_afternm box (nonce_prefix ++ to_bytes_big 8 0)
      ephemeral_beforenm = Ok keys_bytes ->
    decrypt_recipients nonce_prefix ephemeral_beforenm
      (before ++ pair' :: after) recipient_index
    = Some (Ok ((recipient_index + length before)%nat, keys_bytes),
            (fun b =>
               Call_box_open_afternm b (nonce_prefix ++ to_bytes_big 8 0)
                 ephemeral_beforenm) <$> (boxes ++ [box])).
Proof.
  induction before as [|p before IH];
    intros boxes pair' x box keys_bytes after recipient_index Hpairs Hrej
      Hpair Hopen.
  - inversion Hpairs; subst. cbn [app length]. rewrite Nat.add_0_r.
    by eapply decrypt_recipients_opened.
  - inversion Hpairs as [|? b ? bs [y Hp] Hps]; subst.
    inversion Hrej as [|? ? Hb Hbs]; subst.
    cbn [app]. rewrite (decrypt_recipients_rejected _ _ _ _ _ _ _ Hp Hb).
    rewrite (IH bs pair' x box keys_bytes after (S recipient_index)
               Hps Hbs Hpair Hopen).
    cbn [length].
    replace (recipient_index + S (length before))%nat
      with (S recipient_index + length before)%nat by lia.
    done.
Qed.

(** No pair opens: the [else] branch of the loop raises. *)
Lemma decrypt_recipients_none nonce_prefix ephemeral_beforenm :
  forall pairs boxes recipient_index,
    Forall2 (fun p b => exists y, unpack2 p = Ok (y, b)) pairs
      boxes ->
    Forall (fun b =>
              crypto_box_open_afternm b (nonce_prefix ++ to_bytes_big 8 0)
                ephemeral_beforenm = Err CryptoError) boxes ->
    decrypt_recipients nonce_prefix ephemeral_beforenm pairs recipient_index
    = Some (Err (RuntimeError "Failed to find matching recipient."),
            (fun b =>
               Call_box_open_afternm b (nonce_prefix ++ to_bytes_big 8 0)
                 ephemeral_beforenm) <$> boxes).
Proof.
  induction pairs as [|p pairs IH]; intros boxes recipient_index Hpairs Hrej.
  - by inversion Hpairs; subst.
  - inversion Hpairs as [|? b ? bs [y Hp] Hps]; subst.
    inversion Hrej as [|? ? Hb Hbs]; subst.
    rewrite (decrypt_recipients_rejected _ _ _ _ _ _ _ Hp Hb).
    by rewrite (IH bs (S recipient_index) Hps Hbs).
Qed.

(** The recipient loop does not look at the first item of a pair. *)
Lemma decrypt_recipients_ids nonce_prefix ephemeral_beforenm :
  forall pairs pairs' recipient_index,
    Forall2 (fun p p' =>
               p = p'
               \/ exists id id' box,
                    p = OList [id; box] /\ p' = OList [id'; box])
      pairs pairs' ->
    decrypt_recipients nonce_prefix ephemeral_beforenm pairs recipient_index
    = decrypt_recipients nonce_prefix ephemeral_beforenm pairs'
        recipient_index.
Proof.
  intros pairs pairs' recipient_index Hagree. revert recipient_index.
  induction Hagree as [|p p' pairs pairs' Hp _ IH]; intros recipient_index;
    [done|].
  cbn [decrypt_recipients]. rewrite (IH (S recipient_index)).
  destruct Hp as [-> | (id & id' & box & -> & ->)]; [done|].
  cbn [unpack2 py_iter]. by rewrite !bind_lift_Ok.
Qed.
End DecryptRecipients.

(** ** [decrypt] on what [encrypt] wrote *)

Section Encrypted.
Context `{NaCl, Hashlib, Umsgpack}.
Context `{!NaClCore, !UmsgpackCore}.

(** The recipient at index [i] opens every packet [encrypt] wrote. *)
Lemma packets_written_open nonce_prefix encryption_key d
    recipient_public_keys i pk sender_beforenm :
  recipient_public_keys !! i = Some pk ->
  d !! pk = Some sender_beforenm ->
  forall packetnum chunks packets tr,
    packets_written nonce_prefix encryption_key d recipient_public_keys
      packetnum chunks packets tr ->
    packets_open nonce_prefix sender_beforenm (OBytes encryption_key) i
      (packetnum + 2) packets chunks.
Proof.
  intros Hi Hd. induction 1 as [j|j chunk chunks packet packets tr trs Hp _ IH].
  - constructor.
  - replace (j + 1 + 2) with (j + 2 + 1) in IH by lia.
    constructor; [|done]. intros rest.
    apply encrypt_packet_inv in Hp
      as (c & ct & ks & tbs & Hc & Hct & Hks & Htbs & -> & _).
    destruct (Forall2_lookup_l _ _ _ _ _ Hks Hi) as (k & Hk & Hdk).
    rewrite Hd in Hdk. injection Hdk as <-.
    destruct (Forall2_lookup_l _ _ _ _ _ Htbs Hk) as (tb & Htb & Hseal).
    eexists.
    apply (decrypt_packet_opens _ _ _ _ _ c _ (OBytes tb) _ (take 16 ct)).
    + done.
    + by rewrite list_lookup_fmap, Htb.
    + by apply box_open_afternm_seal.
    + rewrite take_drop. by apply secretbox_open_seal.
Qed.

(** The payload phase, once the keys written by [encrypt] are found. *)
Lemma decrypt_payload_keys recipient_private nonce_prefix recipient_index
    sender_public encryption_key sender_beforenm stream :
  crypto_box_beforenm sender_public recipient_private = Ok sender_beforenm ->
  decrypt_payload recipient_private nonce_prefix recipient_index
    (packb (OList [sender_public; encryption_key])) stream
  = prepend [Call_box_beforenm sender_public recipient_private]
      (decrypt_packets (S (length stream)) nonce_prefix sender_beforenm
         encryption_key recipient_index stream 2 []).
Proof.
  intros Hk. unfold decrypt_payload.
  rewrite unpackb_packb, bind_lift_Ok. cbn [unpack2 py_iter].
  rewrite bind_lift_Ok.
  unfold bindings_crypto_box_beforenm. rewrite Hk. done.
Qed.

(** The header phase on a header of the shape [encrypt] writes. *)
Lemma decrypt_header recipient_private ephemeral_public ephemeral_beforenm
    format_name major_version minor_version mode pairs recipient_index
    keys_bytes tr stream :
  crypto_box_beforenm (OBytes ephemeral_public) recipient_private
  = Ok ephemeral_beforenm ->
  decrypt_recipients (nonce_prefix_for ephemeral_public) ephemeral_beforenm
    pairs 0 = Some (Ok (recipient_index, keys_bytes), tr) ->
  decrypt
    (packb (OList [format_name; OList [major_version; minor_version]; mode;
                   OBytes ephemeral_public; OList pairs]) ++ stream)
    recipient_private
  = prepend (Call_box_beforenm (OBytes ephemeral_public) recipient_private
             :: tr)
      (decrypt_payload recipient_private
         (nonce_prefix_for ephemeral_public) recipient_index keys_bytes
         stream).
Proof.
  intros Hk Hrec. unfold decrypt.
  rewrite unpack_packb, bind_lift_Ok. cbn [unpack5 py_iter].
  rewrite bind_lift_Ok. cbn [unpack2 py_iter]. rewrite bind_lift_Ok.
  cbn [as_bytes]. rewrite bind_lift_Ok.
  unfold bindings_crypto_box_beforenm. rewrite Hk. cbn [bind py_iter].
  rewrite bind_lift_Ok. fold (nonce_prefix_for ephemeral_public).
  rewrite Hrec. cbn [bind]. by rewrite prepend_prepend.
Qed.

Lemma recipient_pairs_unpack (boxes : list bytes) :
  Forall2 (fun p b => exists y, unpack2 p = Ok (y, b))
    (recipient_pair_for <$> boxes) (OBytes <$> boxes).
Proof.
  induction boxes as [|b boxes IH]; cbn; constructor; [|done].
  by exists ONone.
Qed.

(** The idealised contract gives [other_boxes_rejected] for every
    message. *)
Lemma isolation_other_boxes_rejected `{!NaClIsolation} sender_private
    recipient_public_keys ephemeral_private encryption_key
    recipient_private :
  other_boxes_rejected sender_private recipient_public_keys
    ephemeral_private encryption_key recipient_private.
Proof.
  intros spk epk rpk ek pk box _ Hepk Hrpk Hek _ Hne Hbox.
  exact (box_foreign_rejected _ _ pk ephemeral_private epk recipient_private
           rpk ek box Hepk Hrpk Hne Hbox Hek).
Qed.

(** With the recipient as the only addressee there is no other box. *)
Lemma sole_recipient_boxes_rejected sender_private ephemeral_private
    encryption_key recipient_private recipient_public :
  crypto_scalarmult_base recipient_private = Ok recipient_public ->
  other_boxes_rejected sender_private [recipient_public]
    ephemeral_private encryption_key recipient_private.
Proof.
  intros Hpub spk epk rpk ek pk box _ _ Hrpk _ Hin Hne _.
  rewrite Hpub in Hrpk. injection Hrpk as <-.
  apply list_elem_of_singleton in Hin. done.
Qed.

(** What a recipient's [decrypt] does with the output of [encrypt]:
    the header phase selects the first slot sealed to the recipient's
    public key, and every packet opens to its chunk. *)
Lemma decrypt_encrypted sender_private recipient_public_keys message
    chunk_size ephemeral_private encryption_key recipient_private
    recipient_public output tr :
  encrypt sender_private recipient_public_keys message chunk_size
    ephemeral_private encryption_key = Some (Ok output, tr) ->
  length ephemeral_private = 32%nat ->
  length recipient_private = 32%nat ->
  1 <= chunk_size ->
  crypto_scalarmult_base recipient_private = Ok recipient_public ->
  recipient_public ∈ recipient_public_keys ->
  other_boxes_rejected sender_private recipient_public_keys
    ephemeral_private encryption_key recipient_private ->
  exists ephemeral_public boxes packets body sender_beforenm i tr_h,
    output = packb (header_for ephemeral_public boxes)
             ++ concat (packb <$> packets)
    /\ concat body = message
    /\ Forall (fun c : bytes => c <> []) body
    /\ packets_open (nonce_prefix_for ephemeral_public) sender_beforenm
         (OBytes encryption_key) i 2 packets (body ++ [[]])
    /\ length boxes = length recipient_public_keys
    /\ recipient_public_keys !! i = Some recipient_public
    /\ (recipient_public ∉ take i recipient_public_keys)
    /\ forall stream,
         decrypt (packb (header_for ephemeral_public boxes) ++ stream)
           recipient_private
         = prepend tr_h
             (decrypt_packets (S (length stream))
                (nonce_prefix_for ephemeral_public) sender_beforenm
                (OBytes encryption_key) i stream 2 []).
Proof.
  intros Hrun Hesk Hrsk Hcs Hpub Hin Hiso.
  apply encrypt_inv in Hrun
    as (spk & epk & boxes & d & chunks & packets & tr_p & Hspk & Hepk
        & Hboxes & Hd & Hdom & Hch & Hw & -> & _).
  destruct (chunks_with_empty_shape message chunk_size Hcs)
    as (body & Hch' & Hcat & Hbody).
  specialize (Hch' (S (length message)) (Nat.lt_succ_diag_r _)).
  fold (chunks_with_empty message chunk_size) in Hch'.
  rewrite Hch in Hch'. injection Hch' as ->.
  destruct (scalarmult_base_ok ephemeral_private Hesk) as (q & Hq & Hlen).
  rewrite Hepk in Hq. injection Hq as <-.
  destruct (box_beforenm_derived ephemeral_private epk recipient_private
              Hesk Hepk Hrsk) as [ek Hek].
  specialize (Hiso spk epk recipient_public ek).
  apply list_elem_of_split_l in Hin as (pre & post & -> & Hpre).
  destruct (Hdom recipient_public) as [sbn Hsbn].
  { apply elem_of_app. right. by left. }
  pose proof (Hd _ _ Hsbn) as Hsbn'.
  rewrite (box_beforenm_comm _ _ _ _ Hpub Hspk) in Hsbn'.
  apply Forall2_app_inv_l in Hboxes as (bpre & brest & Hbpre & Hbrest & ->).
  apply Forall2_cons_inv_l in Hbrest as (box & bpost & Hbox & Hbpost & ->).
  assert (Forall (fun b =>
                    crypto_box_open_afternm b
                      (nonce_prefix_for epk ++ to_bytes_big 8 0) ek
                    = Err CryptoError) (OBytes <$> bpre)) as Hrej.
  { apply Forall_fmap, Forall_lookup_2. intros j b Hj.
    destruct (Forall2_lookup_r _ _ _ _ _ Hbpre Hj) as (pk & Hpk & Hb).
    apply list_elem_of_lookup_2 in Hpk. cbn.
    apply (Hiso pk b Hspk Hepk Hpub Hek);
      [apply elem_of_app; by left | by intros -> | done]. }
  assert (crypto_box_open_afternm (OBytes box)
            (nonce_prefix_for epk ++ to_bytes_big 8 0) ek
          = Ok (packb (OList [OBytes spk; OBytes encryption_key])))
    as Hopen.
  { apply box_open_afternm_seal.
    rewrite <- (box_is_afternm _ _ recipient_public ephemeral_private);
      [done|].
    by rewrite (box_beforenm_comm _ _ _ _ Hpub Hepk). }
  pose proof (decrypt_recipients_first (nonce_prefix_for epk) ek
                (recipient_pair_for <$> bpre) (OBytes <$> bpre)
                (recipient_pair_for box) ONone (OBytes box) _
                (recipient_pair_for <$> bpost) 0
                (recipient_pairs_unpack bpre) Hrej eq_refl Hopen) as Hrec.
  rewrite length_fmap in Hrec. cbn [Nat.add] in Hrec.
  exists epk, (bpre ++ box :: bpost), packets, body, sbn, (length bpre).
  eexists. repeat split; try done.
  - revert Hbody. apply Forall_impl. intros c [Hc _] ->. cbn in Hc. lia.
  - change 2 with (0 + 2).
    assert ((pre ++ recipient_public :: post) !! length bpre
            = Some recipient_public) as Hi.
    { rewrite <- (Forall2_length Hbpre). by apply list_lookup_middle. }
    apply (packets_written_open _ _ d (pre ++ recipient_public :: post)
             _ recipient_public _ Hi Hsbn 0 _ _ _ Hw).
  - rewrite !length_app. cbn [length].
    by rewrite (Forall2_length Hbpre), (Forall2_length Hbpost).
  - rewrite <- (Forall2_length Hbpre). by apply list_lookup_middle.
  - rewrite <- (Forall2_length Hbpre). by rewrite take_app_length.
  - intros stream. unfold header_for.
    rewrite fmap_app, fmap_cons.
    rewrite (decrypt_header _ _ _ _ _ _ _ _ _ _ _ _ Hek Hrec).
    rewrite (decrypt_payload_keys _ _ _ _ _ _ _ Hsbn').
    rewrite prepend_prepend. done.
Qed.
End Encrypted.

(** ** The reference instance satisfies the contracts *)

Module ReferenceFacts.
Import Reference.

(** *** Unary numbers and blobs *)

Lemma dec_nat_enc n rest : dec_nat (enc_nat n ++ rest) = Ok (n, rest).
Proof. induction n as [|n IH]; cbn; [done|]. by rewrite IH. Qed.

Lemma dec_nat_shrinks s n rest :
  dec_nat s = Ok (n, rest) -> (length rest < length s)%nat.
Proof.
  revert n rest. induction s as [|x s IH]; intros n rest Hd; [done|].
  cbn in Hd. destruct x; try done.
  - injection Hd as <- <-. cbn. lia.
  - destruct (dec_nat s) as [[n' rest']|] eqn:E; [|done].
    injection Hd as <- <-. specialize (IH _ _ eq_refl). cbn. lia.
Qed.

Lemma dec_nat_truncated n p q :
  enc_nat n = p ++ q -> q <> [] ->
  dec_nat p = Err InsufficientDataException.
Proof.
  revert p. induction n as [|n IH]; intros p Heq Hq.
  - destruct p as [|x p]; [done|]. cbn in Heq.
    injection Heq as _ Heq. by destruct p, q.
  - destruct p as [|x p]; [done|]. cbn in Heq.
    injection Heq as <- Heq. cbn. by rewrite (IH p Heq Hq).
Qed.

Lemma length_enc_nat n : length (enc_nat n) = S n.
Proof. induction n; cbn; congruence. Qed.

Lemma dec_blob_enc b rest : dec_blob (enc_blob b ++ rest) = Ok (b, rest).
Proof.
  unfold dec_blob, enc_blob. rewrite <- app_assoc, dec_nat_enc.
  destruct (Nat.ltb_spec (length (b ++ rest)) (length b)) as [Hlt|_].
  - rewrite length_app in Hlt. lia.
  - by rewrite take_app_length, drop_app_length.
Qed.

Lemma dec_blob_shrinks s b rest :
  dec_blob s = Ok (b, rest) -> (length rest < length s)%nat.
Proof.
  unfold dec_blob. destruct (dec_nat s) as [[n r]|] eqn:E; [|done].
  apply dec_nat_shrinks in E.
  destruct (length r <? n)%nat; [done|].
  intros [= <- <-]. rewrite length_drop. lia.
Qed.

Lemma dec_blob_truncated b p q :
  enc_blob b = p ++ q -> q <> [] ->
  dec_blob p = Err InsufficientDataException.
Proof.
  unfold enc_blob, dec_blob. intros Heq Hq. symmetry in Heq.
  destruct (app_split _ _ _ _ Heq) as [(k & Hk & Hn & ->)|(k & -> & ->)].
  - by rewrite (dec_nat_truncated _ _ _ Hn Hk).
  - rewrite dec_nat_enc.
    destruct (Nat.ltb_spec (length k) (length (k ++ q))) as [_|Hge];
      [done|].
    rewrite length_app in Hge. destruct q; [done|]. cbn in Hge. lia.
Qed.

Lemma enc_blob_pair_inj a b c d :
  enc_blob a ++ enc_blob b = enc_blob c ++ enc_blob d -> a = c /\ b = d.
Proof.
  intros Heq.
  pose proof (dec_blob_enc a (enc_blob b)) as H1.
  rewrite Heq, dec_blob_enc in H1. injection H1 as <- Hb.
  pose proof (dec_blob_enc b []) as H2.
  rewrite <- Hb, dec_blob_enc in H2. by injection H2 as <-.
Qed.

Lemma dec_Z_enc z rest : dec_Z (enc_Z z ++ rest) = Ok (z, rest).
Proof.
  unfold enc_Z. destruct (Z.ltb_spec z 0); cbn; rewrite dec_nat_enc;
    do 2 f_equal; lia.
Qed.

Lemma dec_Z_shrinks s z rest :
  dec_Z s = Ok (z, rest) -> (length rest < length s)%nat.
Proof.
  destruct s as [|x s]; [done|]. cbn.
  destruct x; try done;
    (destruct (dec_nat s) as [[n r]|] eqn:E; [|done]);
    apply dec_nat_shrinks in E; intros [= <- <-]; cbn; lia.
Qed.

Lemma dec_Z_truncated z p q :
  enc_Z z = p ++ q -> q <> [] -> dec_Z p = Err InsufficientDataException.
Proof.
  unfold enc_Z. intros Heq Hq. destruct p as [|x p]; [done|].
  cbn in Heq. injection Heq as <- Heq.
  destruct (z <? 0); cbn; by rewrite (dec_nat_truncated _ _ _ Heq Hq).
Qed.

Lemma dec_codepoints_enc l rest :
  dec_codepoints (length l) (enc_codepoints l ++ rest) = Ok (l, rest).
Proof.
  induction l as [|c l IH]; cbn; [done|].
  rewrite <- app_assoc, dec_nat_enc, IH. by rewrite N2Nat.id.
Qed.

Lemma dec_codepoints_shrinks count s l rest :
  dec_codepoints count s = Ok (l, rest) -> (length rest <= length s)%nat.
Proof.
  revert s l rest. induction count as [|count IH]; intros s l rest; cbn.
  - by intros [= <- <-].
  - destruct (dec_nat s) as [[c r]|] eqn:E; [|done].
    destruct (dec_codepoints count r) as [[l' r']|] eqn:E'; [|done].
    intros [= <- <-]. apply dec_nat_shrinks in E. apply IH in E'. lia.
Qed.

Lemma dec_codepoints_truncated l p q :
  enc_codepoints l = p ++ q -> q <> [] ->
  dec_codepoints (length l) p = Err InsufficientDataException.
Proof.
  revert p. induction l as [|c l IH]; intros p Heq Hq.
  - by destruct p, q.
  - cbn in *. symmetry in Heq.
    destruct (app_split _ _ _ _ Heq) as [(k & Hk & Hn & ->)|(k & -> & Hl)].
    + by rewrite (dec_nat_truncated _ _ _ Hn Hk).
    + rewrite dec_nat_enc. by rewrite (IH k Hl Hq).
Qed.

(** *** Values *)

Lemma obj_nested_ind (P : obj -> Prop) :
  P ONone ->
  (forall b, P (OBool b)) ->
  (forall z, P (OInt z)) ->
  (forall bits, P (OFloat bits)) ->
  (forall s, P (OStr s)) ->
  (forall b, P (OBytes b)) ->
  (forall type data, P (OExt type data)) ->
  (forall l, Forall P l -> P (OList l)) ->
  (forall items, Forall P (flatten items) -> P (ODict items)) ->
  forall o, P o.
Proof.
  intros HN HBo HI HF HS HB HE HL HD.
  fix IH 1. intros [| b | z | bits | s | b | type data | l | items];
    [exact HN|apply HBo|apply HI|apply HF|apply HS|apply HB|apply HE| |].
  - apply HL. induction l as [|o l IHl]; constructor; [apply IH|apply IHl].
  - apply HD. induction items as [|[key value] items IHi]; cbn [flatten];
      repeat constructor; [apply IH|apply IH|apply IHi].
Qed.

Lemma ref_packb_list l :
  ref_packb (OList l)
  = xdd :: enc_nat (length l) ++ concat (map ref_packb l).
Proof.
  cbn [ref_packb]. do 2 f_equal.
  induction l as [|o l IH]; [done|]. cbn [map concat]. by rewrite IH.
Qed.

Lemma ref_packb_dict items :
  ref_packb (ODict items)
  = xdf :: enc_nat (length items) ++ concat (map ref_packb (flatten items)).
Proof.
  cbn [ref_packb]. do 2 f_equal.
  induction items as [|[key value] items IH]; [done|].
  cbn [flatten map concat]. by rewrite IH.
Qed.

Lemma pairs_of_flatten items : pairs_of (flatten items) = items.
Proof.
  induction items as [|[key value] items IH]; [done|]. cbn. by rewrite IH.
Qed.

Lemma length_flatten items :
  length (flatten items) = (length items + length items)%nat.
Proof.
  induction items as [|[key value] items IH]; [done|]. cbn. rewrite IH. lia.
Qed.

Lemma depth_dict items :
  depth (ODict items)
  = S (foldr (fun o' d => Nat.max (depth o') d) O (flatten items)).
Proof.
  cbn [depth]. f_equal.
  induction items as [|[key value] items IH]; [done|]. cbn. by rewrite IH.
Qed.

Lemma depth_le_length_items l :
  Forall (fun o => (depth o <= length (ref_packb o))%nat) l ->
  (foldr (fun o' d => Nat.max (depth o') d) O l
   <= length (concat (map ref_packb l)))%nat.
Proof.
  induction 1 as [|o l Ho _ IHl]; cbn; [lia|]. rewrite length_app. lia.
Qed.

Lemma depth_le_length o : (depth o <= length (ref_packb o))%nat.
Proof.
  induction o as [| b | z | bits | s | b | type data | l IH | items IH]
    using obj_nested_ind; try (cbn; lia).
  - destruct b; cbn; lia.
  - rewrite ref_packb_list. cbn [depth length]. apply le_n_S.
    rewrite length_app. apply depth_le_length_items in IH. lia.
  - rewrite ref_packb_dict, depth_dict. cbn [length]. apply le_n_S.
    rewrite length_app. apply depth_le_length_items in IH. lia.
Qed.

Lemma read_items_packb read l rest :
  Forall (fun o => forall rest', read (ref_packb o ++ rest') = Ok (o, rest'))
    l ->
  read_items read (length l) (concat (map ref_packb l) ++ rest)
  = Ok (l, rest).
Proof.
  induction 1 as [|o l Ho _ IH]; cbn; [done|].
  by rewrite <- app_assoc, Ho, IH.
Qed.

Lemma parse_packb_items fuel l :
  Forall (fun o => forall fuel rest,
            (depth o <= fuel)%nat ->
            parse fuel (ref_packb o ++ rest) = Ok (o, rest)) l ->
  (foldr (fun o' d => Nat.max (depth o') d) O l <= fuel)%nat ->
  Forall (fun o => forall rest',
            parse fuel (ref_packb o ++ rest') = Ok (o, rest')) l.
Proof.
  induction 1 as [|o l Ho _ IHl]; intros Hf; constructor.
  - intros rest'. apply Ho. cbn in Hf. lia.
  - apply IHl. cbn in Hf. lia.
Qed.

Lemma parse_packb o :
  forall fuel rest,
    (depth o <= fuel)%nat -> parse fuel (ref_packb o ++ rest) = Ok (o, rest).
Proof.
  induction o as [| b | z | bits | s | b | type data | l IH | items IH]
    using obj_nested_ind;
    intros fuel rest Hf; (destruct fuel as [|fuel]; [cbn in Hf; lia|]).
  - done.
  - by destruct b.
  - cbn [ref_packb app parse]. by rewrite dec_Z_enc.
  - cbn [ref_packb app parse]. by rewrite dec_Z_enc.
  - cbn [ref_packb app parse].
    by rewrite <- app_assoc, dec_nat_enc, dec_codepoints_enc.
  - cbn [ref_packb app parse]. by rewrite dec_blob_enc.
  - cbn [ref_packb app parse].
    by rewrite <- app_assoc, dec_Z_enc, dec_blob_enc.
  - rewrite ref_packb_list. cbn [app parse]. rewrite <- app_assoc, dec_nat_enc.
    rewrite read_items_packb; [done|].
    cbn [depth] in Hf. apply le_S_n in Hf. by apply parse_packb_items.
  - rewrite ref_packb_dict. cbn [app parse]. rewrite <- app_assoc, dec_nat_enc.
    rewrite <- length_flatten, read_items_packb; [by rewrite pairs_of_flatten|].
    rewrite depth_dict in Hf. apply le_S_n in Hf. by apply parse_packb_items.
Qed.

Lemma read_items_shrinks read :
  (forall s o rest, read s = Ok (o, rest) -> (length rest < length s)%nat) ->
  forall count s l rest,
    read_items read count s = Ok (l, rest) -> (length rest <= length s)%nat.
Proof.
  intros Hread. induction count as [|count IH]; intros s l rest; cbn.
  - by intros [= <- <-].
  - destruct (read s) as [[o r]|] eqn:E; [|done].
    destruct (read_items read count r) as [[l' r']|] eqn:E'; [|done].
    intros [= <- <-]. apply Hread in E. apply IH in E'. lia.
Qed.

Lemma parse_shrinks fuel :
  forall s o rest,
    parse fuel s = Ok (o, rest) -> (length rest < length s)%nat.
Proof.
  induction fuel as [|fuel IH]; intros s o rest; [done|].
  destruct s as [|x s]; [done|]. cbn [parse length].
  destruct x; try done;
    try (intros [= <- <-]; lia);
    try (destruct (dec_blob s) as [[b r]|] eqn:E; [|done];
         intros [= <- <-]; apply dec_blob_shrinks in E; lia);
    try (destruct (dec_Z s) as [[z r]|] eqn:E; [|done];
         try (intros [= <- <-]; apply dec_Z_shrinks in E; lia)).
  - destruct (dec_blob r) as [[d r']|] eqn:E'; [|done].
    intros [= <- <-]. apply dec_Z_shrinks in E.
    apply dec_blob_shrinks in E'. lia.
  - destruct (dec_nat s) as [[n r]|] eqn:E; [|done].
    destruct (dec_codepoints n r) as [[l r']|] eqn:E'; [|done].
    intros [= <- <-]. apply dec_nat_shrinks in E.
    apply dec_codepoints_shrinks in E'. lia.
  - destruct (dec_nat s) as [[n r]|] eqn:E; [|done].
    destruct (read_items (parse fuel) n r) as [[l r']|] eqn:E'; [|done].
    intros [= <- <-]. apply dec_nat_shrinks in E.
    apply (read_items_shrinks _ IH) in E'. lia.
  - destruct (dec_nat s) as [[n r]|] eqn:E; [|done].
    destruct (read_items (parse fuel) (n + n) r) as [[l r']|] eqn:E'; [|done].
    intros [= <- <-]. apply dec_nat_shrinks in E.
    apply (read_items_shrinks _ IH) in E'. lia.
Qed.

Lemma read_items_any_fuel fuel l rest :
  Forall (fun o => forall fuel rest,
            parse fuel (ref_packb o ++ rest) = Ok (o, rest)
            \/ parse fuel (ref_packb o ++ rest)
               = Err InsufficientDataException) l ->
  read_items (parse fuel) (length l) (concat (map ref_packb l) ++ rest)
  = Ok (l, rest)
  \/ read_items (parse fuel) (length l) (concat (map ref_packb l) ++ rest)
     = Err InsufficientDataException.
Proof.
  induction 1 as [|o l Ho _ IHl]; cbn; [by left|].
  rewrite <- app_assoc.
  destruct (Ho fuel (concat (map ref_packb l) ++ rest)) as [-> | ->];
    [|by right].
  destruct IHl as [-> | ->]; [by left|by right].
Qed.

(** With any fuel, a whole value is read back or the reader gives up
    for lack of fuel; it never returns anything else. *)
Lemma parse_packb_any_fuel o :
  forall fuel rest,
    parse fuel (ref_packb o ++ rest) = Ok (o, rest)
    \/ parse fuel (ref_packb o ++ rest) = Err InsufficientDataException.
Proof.
  induction o as [| b | z | bits | s | b | type data | l IH | items IH]
    using obj_nested_ind;
    intros fuel rest; (destruct fuel as [|fuel]; [by right|]);
    try (left; by apply parse_packb; cbn; lia).
  - rewrite ref_packb_list. cbn [app parse].
    rewrite <- app_assoc, dec_nat_enc.
    by destruct (read_items_any_fuel fuel l rest IH) as [-> | ->];
      [left|right].
  - rewrite ref_packb_dict. cbn [app parse].
    rewrite <- app_assoc, dec_nat_enc, <- length_flatten.
    destruct (read_items_any_fuel fuel (flatten items) rest IH) as [-> | ->];
      [left|by right].
    by rewrite pairs_of_flatten.
Qed.

Lemma read_items_truncated fuel l :
  Forall (fun o => forall p q,
            ref_packb o = p ++ q -> q <> [] ->
            parse fuel p = Err InsufficientDataException) l ->
  forall p q,
    concat (map ref_packb l) = p ++ q -> q <> [] ->
    read_items (parse fuel) (length l) p = Err InsufficientDataException.
Proof.
  induction 1 as [|o l Ho _ IH]; intros p q Heq Hq.
  - by destruct p, q.
  - cbn in *. symmetry in Heq.
    destruct (app_split _ _ _ _ Heq) as [(k & Hk & Hn & ->)|(k & -> & Hl)].
    + by rewrite (Ho _ _ Hn Hk).
    + destruct (parse_packb_any_fuel o fuel k) as [-> | ->]; [|done].
      by rewrite (IH k q Hl Hq).
Qed.

Lemma parse_truncated o :
  forall fuel p q,
    ref_packb o = p ++ q -> q <> [] ->
    parse fuel p = Err InsufficientDataException.
Proof.
  induction o as [| b | z | bits | s | b | type data | l IH | items IH]
    using obj_nested_ind;
    intros fuel p q Heq Hq; (destruct fuel as [|fuel]; [done|]);
    (destruct p as [|x p]; [done|]).
  - cbn in Heq. injection Heq as <- Heq. by destruct p, q.
  - destruct b; cbn in Heq; injection Heq as <- Heq; by destruct p, q.
  - cbn in Heq. injection Heq as <- Heq. cbn.
    by rewrite (dec_Z_truncated _ _ _ Heq Hq).
  - cbn in Heq. injection Heq as <- Heq. cbn.
    by rewrite (dec_Z_truncated _ _ _ Heq Hq).
  - cbn in Heq. injection Heq as <- Heq. cbn. symmetry in Heq.
    destruct (app_split _ _ _ _ Heq) as [(k & Hk & Hn & ->)|(k & -> & Hl)].
    + by rewrite (dec_nat_truncated _ _ _ Hn Hk).
    + rewrite dec_nat_enc. by rewrite (dec_codepoints_truncated _ _ _ Hl Hq).
  - cbn in Heq. injection Heq as <- Heq. cbn.
    by rewrite (dec_blob_truncated _ _ _ Heq Hq).
  - cbn [ref_packb] in Heq. injection Heq as <- Heq. cbn [parse].
    symmetry in Heq. change (p ++ q = enc_Z type ++ enc_blob data) in Heq.
    destruct (app_split _ _ _ _ Heq) as [(k & Hk & Hn & ->)|(k & -> & Hl)].
    + by rewrite (dec_Z_truncated _ _ _ Hn Hk).
    + rewrite dec_Z_enc. by rewrite (dec_blob_truncated _ _ _ Hl Hq).
  - rewrite ref_packb_list in Heq. cbn in Heq. injection Heq as <- Heq.
    cbn [parse]. symmetry in Heq.
    destruct (app_split _ _ _ _ Heq) as [(k & Hk & Hn & ->)|(k & -> & Hl)].
    + by rewrite (dec_nat_truncated _ _ _ Hn Hk).
    + rewrite dec_nat_enc. rewrite (read_items_truncated fuel l) with (q := q);
        [done| |done|done].
      revert IH. apply Forall_impl. intros o Ho. apply Ho.
  - rewrite ref_packb_dict in Heq. cbn in Heq. injection Heq as <- Heq.
    cbn [parse]. symmetry in Heq.
    destruct (app_split _ _ _ _ Heq) as [(k & Hk & Hn & ->)|(k & -> & Hl)].
    + by rewrite (dec_nat_truncated _ _ _ Hn Hk).
    + rewrite dec_nat_enc, <- length_flatten.
      rewrite (read_items_truncated fuel (flatten items)) with (q := q);
        [done| |done|done].
      revert IH. apply Forall_impl. intros o Ho. apply Ho.
Qed.

#[export] Instance ref_umsgpack_core : UmsgpackCore.
Proof.
  split.
  - intros v rest. cbn. unfold ref_unpack. apply parse_packb.
    rewrite length_app. pose proof (depth_le_length v). lia.
  - intros v. cbn. unfold ref_unpackb, ref_unpack.
    pose proof (parse_packb v (length (ref_packb v)) []
                  (depth_le_length v)) as Hp.
    rewrite app_nil_r in Hp. by rewrite Hp.
  - intros s v rest. cbn. unfold ref_unpack. apply parse_shrinks.
Qed.

#[export] Instance umsgpack_spec : UmsgpackSpec.
Proof. split; [apply ref_umsgpack_core|done]. Qed.

#[export] Instance umsgpack_eof : UmsgpackEOF.
Proof.
  split. intros v p q Heq Hq. cbn. unfold ref_unpack.
  by apply (parse_truncated v _ p q).
Qed.

#[export] Instance hashlib_spec : HashlibSpec.
Proof.
  split. intros x.
  change (length (take 64 (rev x ++ replicate 64 x00)) = 64%nat).
  rewrite length_take, length_app, length_replicate. lia.
Qed.

(** *** Boxes and key agreement *)

Lemma to_N_inj x y : Byte.to_N x = Byte.to_N y -> x = y.
Proof.
  intros Heq. pose proof (Byte.of_to_N x) as Hx.
  rewrite Heq, Byte.of_to_N in Hx. by injection Hx.
Qed.

Lemma bytes_leb_total a : forall b, bytes_leb a b = false -> bytes_leb b a = true.
Proof.
  induction a as [|x a IH]; intros [|y b]; cbn; try done.
  destruct (N.ltb_spec (Byte.to_N x) (Byte.to_N y)); [done|].
  destruct (N.ltb_spec (Byte.to_N y) (Byte.to_N x)); [done|].
  apply IH.
Qed.

Lemma bytes_leb_antisym a :
  forall b, bytes_leb a b = true -> bytes_leb b a = true -> a = b.
Proof.
  induction a as [|x a IH]; intros [|y b]; cbn; try done.
  destruct (N.ltb_spec (Byte.to_N x) (Byte.to_N y));
    destruct (N.ltb_spec (Byte.to_N y) (Byte.to_N x)); try done; try lia.
  intros Hab Hba. f_equal; [|by apply IH].
  apply to_N_inj. lia.
Qed.

Lemma ref_beforenm_sym a b :
  ref_beforenm (OBytes (rev a)) b = ref_beforenm (OBytes (rev b)) a.
Proof.
  unfold ref_beforenm.
  destruct (bytes_leb (rev a) (rev b)) eqn:Eab;
    destruct (bytes_leb (rev b) (rev a)) eqn:Eba; try done.
  - by rewrite (bytes_leb_antisym _ _ Eab Eba).
  - apply bytes_leb_total in Eab. congruence.
Qed.

Lemma ref_beforenm_cancel pk e pk' k :
  ref_beforenm (OBytes pk) (rev e) = Ok k ->
  ref_beforenm (OBytes e) (rev pk') = Ok k ->
  pk = pk'.
Proof.
  unfold ref_beforenm. rewrite !rev_involutive.
  destruct (bytes_leb pk e), (bytes_leb e pk'); intros [= <-] [= Heq];
    apply enc_blob_pair_inj in Heq; destruct Heq; congruence.
Qed.

Lemma ref_open_seal message nonce k c :
  ref_seal message nonce k = Ok c ->
  ref_open_bytes c nonce k = Ok message.
Proof.
  intros [= <-]. unfold ref_open_bytes. rewrite !dec_blob_enc.
  by rewrite decide_True.
Qed.

Lemma ref_open_other_key message nonce k k' c :
  ref_seal message nonce k = Ok c -> k <> k' ->
  ref_open_bytes c nonce k' = Err CryptoError.
Proof.
  intros [= <-] Hk. unfold ref_open_bytes. rewrite !dec_blob_enc.
  rewrite decide_False; [done|]. by intros [? _].
Qed.

#[export] Instance ref_nacl_core : NaClCore.
Proof.
  split; cbn.
  - intros n Hn. exists (rev n). by rewrite length_rev.
  - intros n pk sk _ _ _. destruct (bytes_leb pk (rev sk)); eauto.
  - intros a b pa pb [= <-] [= <-]. apply ref_beforenm_sym.
  - intros message nonce pk sk k Hk.
    change (ref_beforenm (OBytes pk) sk = Ok k) in Hk.
    unfold ref_box. by rewrite Hk.
  - intros message nonce pk sk k _ _. by eexists.
  - apply ref_open_seal.
  - intros message nonce key _ _. by eexists.
  - apply ref_open_seal.
Qed.

#[export] Instance nacl_spec : NaClSpec.
Proof.
  split; [apply ref_nacl_core|]. cbn.
  intros pk sk _ _. destruct (bytes_leb pk (rev sk)); eauto.
Qed.

#[export] Instance nacl_isolation : NaClIsolation.
Proof.
  split; cbn [crypto_scalarmult_base crypto_box crypto_box_beforenm
              crypto_box_open_afternm nacl ref_open].
  intros message nonce pk esk epk sk' pk' k' c [= <-] [= <-] Hne Hbox Hk'.
  unfold ref_box in Hbox.
  destruct (ref_beforenm (OBytes pk) esk) as [k|] eqn:Hk; [|done].
  apply (ref_open_other_key _ _ _ _ _ Hbox).
  intros ->. apply Hne.
  apply (ref_beforenm_cancel pk (rev esk) (rev sk') k').
  - by rewrite rev_involutive.
  - by rewrite rev_involutive.
Qed.
End ReferenceFacts.

(** * The claims *)

Section Claims.
Context `{NaCl, Hashlib, Umsgpack}.

(** C9. For every message and every chunk size of at least 1,
    [chunks_with_empty] terminates (any fuel above the length of the
    message gives the same list) and returns chunks whose concatenation
    is the message, each of at most [chunk_size] bytes, the last one
    empty; there is at least one chunk, and [encrypt] writes exactly one
    packet per chunk. The bound on [chunk_size] is needed: the function
    checks nothing, and with a chunk size of 0 or less and a non-empty
    message the loop never ends, whatever the fuel. *)
Theorem chunks_with_empty_tiles (message : bytes) (chunk_size : Z) :
  1 <= chunk_size ->
  exists chunks,
    chunks_with_empty message chunk_size = Some chunks
    /\ (forall fuel, (length message < fuel)%nat ->
          chunks_with_empty_fuel fuel message chunk_size = Some chunks)
    /\ concat chunks = message
    /\ Forall (fun c : bytes => Z.of_nat (length c) <= chunk_size) chunks
    /\ list.last chunks = Some []
    /\ (1 <= length chunks <= S (length message))%nat
    /\ (forall sender_private recipient_public_keys ephemeral_private
               encryption_key output tr,
          encrypt sender_private recipient_public_keys message chunk_size
            ephemeral_private encryption_key = Some (Ok output, tr) ->
          exists header packets,
            output = packb header ++ concat (packb <$> packets)
            /\ length packets = length chunks)
    /\ (forall bad fuel,
          bad <= 0 -> message <> [] ->
          chunks_with_empty_fuel fuel message bad = None).
Proof.
  intros Hcs.
  destruct (chunks_with_empty_shape message chunk_size Hcs)
    as (body & Hrun & Hcat & Hbody).
  assert (chunks_with_empty message chunk_size = Some (body ++ [[]]))
    as Hch by (apply Hrun; lia).
  exists (body ++ [[]]). repeat split.
  - done.
  - done.
  - rewrite concat_app, Hcat. cbn. by rewrite app_nil_r.
  - apply Forall_app. split.
    + revert Hbody. apply Forall_impl. by intros c [_ ?].
    + repeat constructor. cbn. lia.
  - apply last_snoc.
  - rewrite length_app. cbn. lia.
  - rewrite length_app. cbn [length].
    assert (length body <= length message)%nat; [|lia].
    rewrite <- Hcat. apply length_concat_nonempty.
    revert Hbody. apply Forall_impl. by intros c [? _].
  - intros sender_private recipient_public_keys ephemeral_private
      encryption_key output tr Henc.
    apply encrypt_inv in Henc
      as (spk & epk & boxes & d & chunks & packets & tr_p & _ & _ & _ & _
          & _ & Hch' & Hw & -> & _).
    rewrite Hch in Hch'. injection Hch' as <-.
    exists (header_for epk boxes), packets. split; [done|].
    by apply packets_written_lookup in Hw as [Hlen _].
  - intros bad fuel Hbad Hne. by apply chunks_loop_diverges.
Qed.

(** C7. Whenever [encrypt] returns, its output is the packed header
    followed by one packed packet per chunk of [chunks_with_empty], in
    order. Packet [j] is the pair (tag boxes, body) where, with the nonce
    prefix + counter j+2 as nonce, the secretbox of chunk [j] under the
    encryption key is split into its first 16 bytes (the tag) and the
    rest (the body), and tag box [i] is [crypto_box_afternm] of the tag
    under the same nonce and the shared secret of the sender's private
    key and recipient [i]'s public key; the recipient pairs of the header
    are in the same order. *)
Theorem encrypt_packet_contents sender_private recipient_public_keys
    message chunk_size ephemeral_private encryption_key output tr :
  encrypt sender_private recipient_public_keys message chunk_size
    ephemeral_private encryption_key = Some (Ok output, tr) ->
  exists sender_public ephemeral_public boxes chunks packets,
    crypto_scalarmult_base sender_private = Ok sender_public
    /\ crypto_scalarmult_base ephemeral_private = Ok ephemeral_public
    /\ chunks_with_empty message chunk_size = Some chunks
    /\ output = packb (header_for ephemeral_public boxes)
                ++ concat (packb <$> packets)
    /\ length packets = length chunks
    /\ Forall2 (fun pk box =>
                  crypto_box
                    (packb (OList [OBytes sender_public;
                                   OBytes encryption_key]))
                    (nonce_prefix_for ephemeral_public ++ to_bytes_big 8 0)
                    pk ephemeral_private = Ok box)
         recipient_public_keys boxes
    /\ forall j chunk,
         chunks !! j = Some chunk ->
         exists payload_nonce payload_secretbox tag_boxes,
           counter (Z.of_nat j + 2) = Ok (to_bytes_big 8 (Z.of_nat j + 2))
           /\ payload_nonce
              = nonce_prefix_for ephemeral_public
                ++ to_bytes_big 8 (Z.of_nat j + 2)
           /\ crypto_secretbox chunk payload_nonce encryption_key
              = Ok payload_secretbox
           /\ packets !! j
              = Some (OList [OList (OBytes <$> tag_boxes);
                             OBytes (drop 16 payload_secretbox)])
           /\ length tag_boxes = length recipient_public_keys
           /\ forall i pk,
                recipient_public_keys !! i = Some pk ->
                exists beforenm tag_box,
                  crypto_box_beforenm (OBytes pk) sender_private = Ok beforenm
                  /\ crypto_box_afternm (take 16 payload_secretbox)
                       payload_nonce beforenm = Ok tag_box
                  /\ tag_boxes !! i = Some tag_box.
Proof.
  intros Henc.
  apply encrypt_inv in Henc
    as (spk & epk & boxes & d & chunks & packets & tr_p & Hspk & Hepk
        & Hboxes & Hd & _ & Hch & Hw & -> & _).
  apply packets_written_lookup in Hw as [Hlen Hlookup].
  exists spk, epk, boxes, chunks, packets. do 6 (split; [done|]).
  intros j chunk Hj.
  destruct (Hlookup j chunk Hj) as (packet & t & Hp & Hrun & _).
  apply encrypt_packet_inv in Hrun
    as (c & ct & ks & tbs & Hc & Hct & Hks & Htbs & -> & _).
  rewrite Z.add_0_l in Hc. pose proof Hc as [_ ->]%counter_inv.
  exists (nonce_prefix_for epk ++ to_bytes_big 8 (Z.of_nat j + 2)), ct, tbs.
  do 4 (split; [done|]). split.
  - by rewrite <- (Forall2_length Htbs), <- (Forall2_length Hks).
  - intros i pk Hi.
    destruct (Forall2_lookup_l _ _ _ _ _ Hks Hi) as (k & Hk & Hdk).
    destruct (Forall2_lookup_l _ _ _ _ _ Htbs Hk) as (tb & Htb & Hseal).
    exists k, tb. split; [by apply Hd|done].
Qed.

(** C8. The nonce prefix is the first 16 bytes of
    SHA-512("SaltPack\0encryption nonce prefix\0" + ephemeral public key)
    and nothing else enters it. Every nonce [encrypt] passes to PyNaCl has
    24 bytes and is that prefix followed by an 8-byte big-endian counter:
    counter 0 in the [crypto_box] call of each recipient pair, counter
    j+2 in the secretbox call and in every tag box call of packet [j].
    All these calls are made, and no call uses counter 1. *)
Theorem encrypt_nonces `{!HashlibSpec} sender_private
    recipient_public_keys message chunk_size ephemeral_private encryption_key output tr :
  encrypt sender_private recipient_public_keys message chunk_size
    ephemeral_private encryption_key = Some (Ok output, tr) ->
  exists ephemeral_public chunks,
    crypto_scalarmult_base ephemeral_private = Ok ephemeral_public
    /\ chunks_with_empty message chunk_size = Some chunks
    /\ let nonce_prefix :=
         take 16 (sha512 ((b_lit "SaltPack" ++ [x00]) ++
                          (b_lit "encryption nonce prefix" ++ [x00]) ++
                          ephemeral_public)) in
       length nonce_prefix = 16%nat
       /\ (forall x nonce,
             x ∈ tr -> call_nonce x = Some nonce ->
             length nonce = 24%nat
             /\ ((exists message pk sk,
                    x = Call_box message nonce pk sk
                    /\ nonce = nonce_prefix ++ to_bytes_big 8 0)
                 \/ (exists j chunk,
                       chunks !! j = Some chunk
                       /\ nonce
                          = nonce_prefix ++ to_bytes_big 8 (Z.of_nat j + 2)
                       /\ (x = Call_secretbox chunk nonce encryption_key
                           \/ exists tag k,
                                x = Call_box_afternm tag nonce k))))
       /\ (forall pk,
             pk ∈ recipient_public_keys ->
             exists keys_bytes,
               Call_box keys_bytes (nonce_prefix ++ to_bytes_big 8 0) pk
                 ephemeral_private ∈ tr)
       /\ (forall j chunk,
             chunks !! j = Some chunk ->
             Call_secretbox chunk
               (nonce_prefix ++ to_bytes_big 8 (Z.of_nat j + 2))
               encryption_key ∈ tr
             /\ forall pk,
                  pk ∈ recipient_public_keys ->
                  exists tag k,
                    crypto_box_beforenm (OBytes pk) sender_private = Ok k
                    /\ Call_box_afternm tag
                         (nonce_prefix
                          ++ to_bytes_big 8 (Z.of_nat j + 2)) k ∈ tr)
       /\ (forall x,
             x ∈ tr ->
             call_nonce x <> Some (nonce_prefix ++ to_bytes_big 8 1)).
Proof.
  intros Henc.
  apply encrypt_inv in Henc
    as (spk & epk & boxes & d & chunks & packets & tr_p & Hspk & Hepk
        & Hboxes & Hd & Hdom & Hch & Hw & -> & ->).
  exists epk, chunks. do 2 (split; [done|]).
  fold (nonce_prefix_for epk). cbn zeta.
  assert (length (nonce_prefix_for epk) = 16%nat) as Hlen16.
  { unfold nonce_prefix_for. rewrite length_take, sha512_length. lia. }
  assert (forall x nonce,
            x ∈ [Call_scalarmult_base sender_private;
                 Call_scalarmult_base ephemeral_private]
                ++ concat ((fun pk =>
                              [Call_box
                                 (packb (OList [OBytes spk;
                                                OBytes encryption_key]))
                                 (nonce_prefix_for epk ++ to_bytes_big 8 0)
                                 pk ephemeral_private;
                               Call_box_beforenm (OBytes pk) sender_private])
                           <$> recipient_public_keys)
                ++ tr_p ->
            call_nonce x = Some nonce ->
            (exists message pk sk,
               x = Call_box message nonce pk sk
               /\ nonce = nonce_prefix_for epk ++ to_bytes_big 8 0)
            \/ (exists j chunk,
                  chunks !! j = Some chunk
                  /\ counter (Z.of_nat j + 2)
                     = Ok (to_bytes_big 8 (Z.of_nat j + 2))
                  /\ nonce = nonce_prefix_for epk
                             ++ to_bytes_big 8 (Z.of_nat j + 2)
                  /\ (x = Call_secretbox chunk nonce encryption_key
                      \/ exists tag k, x = Call_box_afternm tag nonce k)))
    as Hclass.
  { intros x nonce Hx Hn.
    apply elem_of_app in Hx as [Hx|Hx].
    { apply elem_of_cons in Hx as [->|Hx]; [done|].
      apply elem_of_cons in Hx as [->|Hx]; [done|].
      by apply elem_of_nil in Hx. }
    apply elem_of_app in Hx as [Hx|Hx].
    - apply elem_of_concat_fmap in Hx as (pk & _ & Hx).
      apply elem_of_cons in Hx as [->|Hx].
      + injection Hn as <-. left. by eexists _, _, _.
      + apply elem_of_cons in Hx as [->|Hx]; [done|].
        by apply elem_of_nil in Hx.
    - destruct (packets_written_calls _ _ _ _ _ _ _ _ Hw x Hx)
        as (j & chunk & c & Hj & Hc & Hcall).
      rewrite Z.add_0_l in Hc. pose proof Hc as [_ ->]%counter_inv.
      right. exists j, chunk.
      destruct Hcall as [-> | (tag & k & ->)]; injection Hn as <-.
      + repeat split; try done. by left.
      + repeat split; try done. right. by eexists _, _. }
  split; [done|]. split; [|split; [|split]].
  - intros x nonce Hx Hn.
    destruct (Hclass x nonce Hx Hn)
      as [(m & pk & sk & -> & ->) | (j & chunk & Hj & _ & -> & Hcall)].
    + split; [|left; by eexists _, _, _].
      rewrite length_app, Hlen16, length_to_bytes_big. lia.
    + split; [|right; by eexists _, _].
      rewrite length_app, Hlen16, length_to_bytes_big. lia.
  - intros pk Hpk. eexists. apply elem_of_app. right.
    apply elem_of_app. left. apply elem_of_concat_fmap.
    exists pk. split; [done|]. by left.
  - intros j chunk Hj.
    pose proof Hw as [_ Hlookup]%packets_written_lookup.
    destruct (Hlookup j chunk Hj) as (packet & t & _ & Hrun & Hsub).
    apply encrypt_packet_inv in Hrun
      as (c & ct & ks & tbs & Hc & _ & Hks & _ & _ & ->).
    rewrite Z.add_0_l in Hc. pose proof Hc as [_ ->]%counter_inv.
    split.
    + apply elem_of_app. right. apply elem_of_app. right.
      apply Hsub. by left.
    + intros pk [i Hi]%list_elem_of_lookup_1.
      destruct (Forall2_lookup_l _ _ _ _ _ Hks Hi) as (k & Hk & Hdk).
      exists (take 16 ct), k. split; [by apply Hd|].
      apply elem_of_app. right. apply elem_of_app. right.
      apply Hsub. right. apply list_elem_of_fmap. exists k.
      split; [done|]. by apply list_elem_of_lookup_2 in Hk.
  - intros x Hx Hn.
    destruct (Hclass x _ Hx Hn)
      as [(m & pk & sk & _ & Heq) | (j & chunk & _ & Hc & Heq & _)];
      apply app_inv_head in Heq.
    + by vm_compute in Heq.
    + assert (counter 1 = Ok (to_bytes_big 8 1)) as H1' by done.
      rewrite Heq in H1'.
      pose proof (counter_inj _ _ _ H1' Hc). lia.
Qed.

(** C10. The result of [decrypt] (the plaintext or the exception, and the
    calls made) does not depend on the first item of any recipient pair
    of the header: two inputs whose headers differ only there, followed
    by the same stream, give the same run with the same private key. *)
Theorem decrypt_ignores_recipient_ids input input' format_name version mode
    ephemeral_public pairs pairs' stream recipient_private :
  unpack input
  = Ok (OList [format_name; version; mode; ephemeral_public; OList pairs],
        stream) ->
  unpack input'
  = Ok (OList [format_name; version; mode; ephemeral_public; OList pairs'],
        stream) ->
  Forall2 (fun p p' =>
             p = p'
             \/ exists id id' box,
                  p = OList [id; box] /\ p' = OList [id'; box])
    pairs pairs' ->
  decrypt input recipient_private = decrypt input' recipient_private.
Proof.
  intros Hin Hin' Hagree. unfold decrypt.
  rewrite Hin, Hin', !bind_lift_Ok. cbn [unpack5 py_iter].
  rewrite !bind_lift_Ok.
  destruct (unpack2 version) as [[major_version minor_version]|e]; [|done].
  rewrite !bind_lift_Ok.
  destruct (as_bytes ephemeral_public) as [epk|e]; [|done].
  rewrite !bind_lift_Ok.
  destruct (bindings_crypto_box_beforenm (OBytes epk) recipient_private)
    as [[[k|e] t]|]; [|done..].
  cbn [bind py_iter]. rewrite !bind_lift_Ok.
  by rewrite (decrypt_recipients_ids _ _ _ _ 0%nat Hagree).
Qed.

(** C2 (as amended). After parsing the header [decrypt] binds the format
    name, the version and the mode and never looks at them again: it
    requires a header of five items whose version unpacks into two
    items, and nothing of their values. Two inputs whose headers differ
    only in format name, version and mode, followed by the same stream,
    give the same run; so a non-zero mode or a version other than [1, 0]
    is accepted whenever mode 0 and version [1, 0] are. *)
Theorem decrypt_ignores_format_version_mode input input' format_name
    format_name' version version' mode mode' major minor major' minor'
    ephemeral_public recipient_pairs stream recipient_private :
  unpack input
  = Ok (OList [format_name; version; mode; ephemeral_public;
               recipient_pairs], stream) ->
  unpack input'
  = Ok (OList [format_name'; version'; mode'; ephemeral_public;
               recipient_pairs], stream) ->
  unpack2 version = Ok (major, minor) ->
  unpack2 version' = Ok (major', minor') ->
  decrypt input recipient_private = decrypt input' recipient_private.
Proof.
  intros Hin Hin' Hv Hv'. unfold decrypt.
  rewrite Hin, Hin', !bind_lift_Ok. cbn [unpack5 py_iter].
  rewrite !bind_lift_Ok, Hv, Hv'. by rewrite !bind_lift_Ok.
Qed.

Context `{!NaClCore, !HashlibSpec, !UmsgpackCore}.


(** A message of one chunk: the chunk is the message. *)
Lemma chunks_with_empty_whole (message : bytes) (chunk_size : Z) :
  message <> [] ->
  chunk_size = Z.of_nat (length message) ->
  chunks_with_empty message chunk_size = Some [message; []].
Proof.
  intros Hne ->. unfold chunks_with_empty, chunks_with_empty_fuel.
  destruct message as [|x message]; [done|].
  set (m := x :: message).
  assert (0 < Z.of_nat (length m)) as Hlen by (subst m; cbn [length]; lia).
  change (length m) with (S (length message)). cbn [chunks_loop].
  change (S (length message)) with (length m).
  destruct (Z.ltb_spec 0 (Z.of_nat (length m))) as [_|?]; [|lia].
  destruct (Z.ltb_spec (0 + Z.of_nat (length m)) (Z.of_nat (length m)))
    as [?|_]; [lia|].
  rewrite py_slice_chunk by lia.
  rewrite Nat2Z.id. change (Z.to_nat 0) with 0%nat.
  by rewrite drop_0, firstn_all.
Qed.

Lemma bind_Err_of_Ok {A B} (m : M A) (k k' : A -> M B) b tr e :
  bind m k' = Some (Ok b, tr) ->
  (forall a t b' tr',
     m = Some (Ok a, t) -> k' a = Some (Ok b', tr') ->
     outcome (k a) = Some (Err e)) ->
  outcome (bind m k) = Some (Err e).
Proof.
  destruct m as [[[a|e'] t]|]; cbn [bind]; try done. intros Hk' Hall.
  destruct (k' a) as [[[b'|e''] t']|] eqn:Hka; try done.
  rewrite outcome_prepend. by eapply Hall.
Qed.

(** With keys and random draws for which [encrypt] returns on the empty
    message, [encrypt] of a message in one chunk raises what [packb]
    raises on the packet of that chunk. *)
Lemma encrypt_raises_packing_chunk sender_private recipient_public_keys
    message chunk_size ephemeral_private encryption_key output tr e :
  encrypt sender_private recipient_public_keys [] 1 ephemeral_private
    encryption_key = Some (Ok output, tr) ->
  length encryption_key = 32%nat ->
  message <> [] ->
  chunk_size = Z.of_nat (length message) ->
  (forall nonce sealed tag_boxes,
     crypto_secretbox message nonce encryption_key = Ok sealed ->
     packb_raises (OList [OList tag_boxes; OBytes (drop 16 sealed)])
     = Some e) ->
  outcome (encrypt sender_private recipient_public_keys message chunk_size
             ephemeral_private encryption_key) = Some (Err e).
Proof.
  intros Henc Hkey Hne Hcs Hraise. unfold encrypt in *.
  eapply bind_Err_of_Ok; [exact Henc|]; clear Henc.
  intros spk t1 ? ? Hspk Henc. cbn beta zeta in *.
  eapply bind_Err_of_Ok; [exact Henc|]; clear Henc.
  intros epk t2 ? ? Hepk Henc. cbn beta zeta in *.
  eapply bind_Err_of_Ok; [exact Henc|]; clear Henc.
  intros keys_bytes t3 ? ? Hkeys Henc. cbn beta zeta in *.
  eapply bind_Err_of_Ok; [exact Henc|]; clear Henc.
  intros c t4 ? ? Hc Henc. cbn beta zeta in *.
  rewrite counter_0 in Hc. injection Hc as <- <-.
  eapply bind_Err_of_Ok; [exact Henc|]; clear Henc.
  intros [pairs d] t5 ? ? Hrec Henc. cbn beta iota zeta in *.
  eapply bind_Err_of_Ok; [exact Henc|]; clear Henc.
  intros header_bytes t6 ? ? Hheader Henc. cbn beta zeta in *.
  apply encrypt_recipients_inv in Hrec as (boxes & _ & _ & Hd & Hdom & _).
  assert (beforenms_of sender_private d) as Hd'.
  { apply Hd. intros pk k. by rewrite lookup_empty. }
  rewrite (chunks_with_empty_whole message chunk_size Hne Hcs).
  cbn [from_loop bind]. rewrite outcome_prepend. cbn [encrypt_packets].
  destruct (encrypt_packet_ok epk encryption_key sender_private d
              recipient_public_keys 0 message Hkey Hd' Hdom)
    as (packet & t7 & Hpacket); [lia|].
  unfold nonce_prefix_for in Hpacket. rewrite Hpacket. cbn [bind].
  rewrite outcome_prepend.
  apply encrypt_packet_inv in Hpacket
    as (c & sealed & ks & tbs & _ & Hsealed & _ & _ & -> & _).
  unfold umsgpack_packb. by rewrite (Hraise _ _ _ Hsealed).
Qed.

(** The exceptions of an unpacking assignment and of indexing. *)
Lemma unpack2_error (o : obj) (e : exn) :
  unpack2 o = Err e -> e ∈ [TypeError; ValueError].
Proof.
  unfold unpack2. intros Hu.
  destruct (py_iter o) as [[|? [|? [|? ?]]]|e'] eqn:Hi;
    try done; try (injection Hu as <-; set_solver).
  injection Hu as <-.
  destruct o; cbn in Hi; try done; injection Hi as <-; set_solver.
Qed.

Lemma py_getitem_error (o : obj) (i : nat) (e : exn) :
  py_getitem o i = Err e -> e ∈ [TypeError; IndexError; KeyError].
Proof.
  destruct o as [| b | z | f | s | b | t d | l | items]; cbn; intros Hg;
    try (injection Hg as <-; set_solver).
  - destruct (s !! i); [done|]. injection Hg as <-. set_solver.
  - destruct (b !! i); [done|]. injection Hg as <-. set_solver.
  - destruct (l !! i); [done|]. injection Hg as <-. set_solver.
  - destruct (find _ items); [done|]. injection Hg as <-. set_solver.
Qed.

(** A packet is used only through its tag box at the recipient's index. *)
Lemma decrypt_packet_same_tag_box nonce_prefix sender_beforenm encryption_key
    recipient_index tag_boxes tag_boxes' body rest rest' packetnum :
  tag_boxes' !! recipient_index = tag_boxes !! recipient_index ->
  decrypt_packet nonce_prefix sender_beforenm encryption_key recipient_index
    (packb (OList [OList tag_boxes'; body]) ++ rest') packetnum
  = match decrypt_packet nonce_prefix sender_beforenm encryption_key
            recipient_index (packb (OList [OList tag_boxes; body]) ++ rest)
            packetnum with
    | Some (Ok (chunk, _), tr) => Some (Ok (chunk, rest'), tr)
    | r => r
    end.
Proof.
  intros Hidx. unfold decrypt_packet. rewrite !unpack_packb.
  destruct (counter packetnum) as [c|e]; [|done].
  rewrite !bind_lift_Ok. cbn [unpack2 py_iter]. rewrite !bind_lift_Ok.
  cbn [py_getitem]. rewrite Hidx.
  destruct (tag_boxes !! recipient_index) as [tag_box|]; [|done].
  rewrite !bind_lift_Ok.
  unfold bindings_crypto_box_open_afternm, bindings_crypto_secretbox_open.
  destruct (crypto_box_open_afternm _ _ _) as [tag|e]; [|done].
  cbn [bind].
  destruct (as_bytes body) as [stripped|e]; [|done].
  rewrite !bind_lift_Ok.
  by destruct (crypto_secretbox_open _ _ _) as [chunk|e].
Qed.

Lemma packets_open_same_tag_boxes nonce_prefix sender_beforenm encryption_key
    recipient_index packetnum packets packets' chunks :
  packets_open nonce_prefix sender_beforenm encryption_key recipient_index
    packetnum packets chunks ->
  Forall2 (fun packet packet' =>
             exists tag_boxes tag_boxes' body,
               packet = OList [OList tag_boxes; body]
               /\ packet' = OList [OList tag_boxes'; body]
               /\ tag_boxes' !! recipient_index
                  = tag_boxes !! recipient_index) packets packets' ->
  packets_open nonce_prefix sender_beforenm encryption_key recipient_index
    packetnum packets' chunks.
Proof.
  intros Hopen. revert packets'.
  induction Hopen as [j|j packet packets chunk chunks Hp Hps IH];
    intros packets' Hsame.
  - apply Forall2_nil_inv_l in Hsame as ->. constructor.
  - apply Forall2_cons_inv_l in Hsame
      as (packet' & ps' & (tbs & tbs' & body & -> & -> & Hidx) & Hrest & ->).
    constructor; [|by apply IH].
    intros rest. destruct (Hp rest) as [tr Hrun].
    exists tr.
    by rewrite (decrypt_packet_same_tag_box _ _ _ _ tbs tbs' body rest rest _
                  Hidx), Hrun.
Qed.

(** C5 (as amended). In a ciphertext that [encrypt] returned, read by a
    recipient, a value in the place of a packet that does not unpack into
    exactly two items, or whose first item has no item at the recipient's
    index, makes [decrypt] raise the exception of that unpacking or
    indexing: TypeError, ValueError, IndexError or KeyError. The number
    of tag boxes is not compared with the number of recipient pairs:
    packets with any other lists of tag boxes that have the same item at
    the recipient's index, followed by anything, are read to the same
    message. *)
Theorem decrypt_malformed_packet sender_private recipient_public_keys
    message chunk_size ephemeral_private encryption_key recipient_private
    recipient_public ciphertext tr :
  encrypt sender_private recipient_public_keys message chunk_size
    ephemeral_private encryption_key = Some (Ok ciphertext, tr) ->
  length ephemeral_private = 32%nat ->
  length recipient_private = 32%nat ->
  1 <= chunk_size ->
  crypto_scalarmult_base recipient_private = Ok recipient_public ->
  recipient_public ∈ recipient_public_keys ->
  other_boxes_rejected sender_private recipient_public_keys
    ephemeral_private encryption_key recipient_private ->
  exists header packets recipient_index,
    ciphertext = packb header ++ concat (packb <$> packets)
    /\ recipient_public_keys !! recipient_index = Some recipient_public
    /\ (recipient_public ∉ take recipient_index recipient_public_keys)
    /\ (forall n bad rest e,
          (n < length packets)%nat ->
          unpack2 bad = Err e
          \/ (exists tag_boxes body,
                unpack2 bad = Ok (tag_boxes, body)
                /\ py_getitem tag_boxes recipient_index = Err e) ->
          outcome (decrypt (packb header
                            ++ concat (packb <$> take n packets)
                            ++ packb bad ++ rest) recipient_private)
          = Some (Err e)
          /\ e ∈ [TypeError; ValueError; IndexError; KeyError])
    /\ (forall packets' extra,
          Forall2 (fun packet packet' =>
                     exists tag_boxes tag_boxes' body,
                       packet = OList [OList tag_boxes; body]
                       /\ packet' = OList [OList tag_boxes'; body]
                       /\ tag_boxes' !! recipient_index
                          = tag_boxes !! recipient_index)
            packets packets' ->
          outcome (decrypt (packb header ++ concat (packb <$> packets')
                            ++ extra) recipient_private)
          = Some (Ok message)).
Proof.
  intros Henc Hesk Hrsk Hcs Hpub Hin Hiso.
  destruct (decrypt_encrypted _ _ _ _ _ _ _ _ _ _ Henc Hesk Hrsk Hcs Hpub Hin
              Hiso)
    as (epk & boxes & packets & body & sbn & i & tr_h & -> & Hcat & Hbody
        & Hopen & _ & Hi & Hfirst & Hdec).
  exists (header_for epk boxes), packets, i.
  do 3 (split; [done|]). split.
  - intros n bad rest e Hn Hbad. split.
    + rewrite Hdec, outcome_prepend.
      pose proof (packets_open_length _ _ _ _ _ _ _ Hopen) as Hlenp.
      rewrite length_app in Hlenp. cbn in Hlenp.
      pose proof (packets_open_take _ _ _ _ n _ _ _ Hopen) as Htake.
      rewrite take_app_le in Htake by lia.
      destruct (packets_open_counter _ _ _ _ _ _ _ Hopen n Hn) as [c Hc].
      pose proof (length_packets_le (take n packets)) as Hle.
      pose proof (packb_nonempty bad) as Hbad1.
      destruct (decrypt_packets_prefix _ _ _ _ _ _ _ Htake
                  (Forall_take _ n _ Hbody)
                  (S (length (concat (packb <$> take n packets)
                              ++ packb bad ++ rest)))
                  (packb bad ++ rest) []) as [t Hrun].
      { rewrite length_app. lia. }
      rewrite Hrun, outcome_prepend.
      destruct (S (length (concat (packb <$> take n packets)
                           ++ packb bad ++ rest))
                - length (take n packets))%nat as [|fuel] eqn:Hfuel.
      { rewrite !length_app in Hfuel. lia. }
      cbn [decrypt_packets].
      rewrite length_take, Nat.min_l by lia.
      by rewrite (decrypt_packet_malformed _ _ _ _ _ c bad rest e Hc Hbad).
    + destruct Hbad as [Hbad | (tag_boxes & b & _ & Hget)].
      * apply unpack2_error in Hbad. rewrite !elem_of_cons in *. tauto.
      * apply py_getitem_error in Hget. rewrite !elem_of_cons in *. tauto.
  - intros packets' extra Hsame.
    pose proof (packets_open_same_tag_boxes _ _ _ _ _ _ _ _ Hopen Hsame)
      as Hopen'.
    rewrite Hdec, outcome_prepend.
    destruct (decrypt_packets_complete _ _ _ _ packets' body extra [] Hopen'
                Hbody) as [t Hrun].
    rewrite Hrun. cbn. by rewrite Hcat.
Qed.

(** The loop of [decrypt] on a payload the libraries read. *)
Lemma reads_packet_run nonce_prefix sender_beforenm encryption_key
    recipient_index packetnum stream chunk rest tr :
  reads_packet nonce_prefix sender_beforenm encryption_key recipient_index
    packetnum stream chunk rest tr ->
  decrypt_packet nonce_prefix sender_beforenm encryption_key recipient_index
    stream packetnum = Some (Ok (chunk, rest), tr).
Proof.
  intros (packet & tag_boxes & body & tag_box & payload_tag & stripped
          & Hnum & Hunpack & Hpair & Hitem & Htag & Hbody & Hchunk & ->).
  unfold decrypt_packet.
  rewrite (counter_Ok _ Hnum), bind_lift_Ok, Hunpack, bind_lift_Ok, Hpair,
    bind_lift_Ok, Hitem, bind_lift_Ok.
  unfold bindings_crypto_box_open_afternm, bindings_crypto_secretbox_open.
  rewrite Htag. cbn [bind]. rewrite Hbody, bind_lift_Ok, Hchunk. done.
Qed.

Lemma reads_payload_run nonce_prefix sender_beforenm encryption_key
    recipient_index packetnum stream chunks tr :
  reads_payload nonce_prefix sender_beforenm encryption_key recipient_index
    packetnum stream chunks tr ->
  forall fuel output,
    (length stream < fuel)%nat ->
    decrypt_packets fuel nonce_prefix sender_beforenm encryption_key
      recipient_index stream packetnum output
    = Some (Ok (output ++ concat chunks), tr).
Proof.
  induction 1 as [j stream rest tr Hp
                 |j stream chunk rest chunks tr trs Hp Hne Hrest IH];
    intros fuel output Hfuel.
  - destruct fuel as [|fuel]; [lia|]. cbn [decrypt_packets].
    rewrite (reads_packet_run _ _ _ _ _ _ _ _ _ Hp). cbn [bind].
    rewrite decide_True by done. cbn. by rewrite !app_nil_r.
  - destruct fuel as [|fuel]; [lia|]. cbn [decrypt_packets].
    rewrite (reads_packet_run _ _ _ _ _ _ _ _ _ Hp). cbn [bind].
    rewrite decide_False by done.
    destruct Hp as (packet & ? & ? & ? & ? & ? & _ & Hunpack & _).
    apply unpack_consumes in Hunpack.
    rewrite IH by lia. cbn. by rewrite <- app_assoc.
Qed.

(** C6. With the header read and the shared secret of the ephemeral key
    and the recipient computed, [decrypt] opens the boxes of the recipient
    pairs in header order, each with nonce prefix + counter 0 and that
    shared secret. At the first box that opens it stops: the calls made
    are the attempts up to that box, whatever pairs follow; the opened
    bytes give the sender key and the encryption key; and the position of
    that pair is the index at which the tag box of every packet is taken:
    when the libraries read the stream as packets at that index, under
    the sender's shared secret and the encryption key, with the packet
    numbers from 2 on, up to the first empty chunk, [decrypt] returns the
    chunks joined, having made these calls and no other. If every box is
    rejected, [decrypt] raises
    RuntimeError('Failed to find matching recipient.'). *)
Theorem decrypt_first_opening_slot input recipient_private format_name
    version major minor mode ephemeral_public pairs stream
    ephemeral_beforenm :
  unpack input
  = Ok (OList [format_name; version; mode; OBytes ephemeral_public;
               OList pairs], stream) ->
  unpack2 version = Ok (major, minor) ->
  crypto_box_beforenm (OBytes ephemeral_public) recipient_private
  = Ok ephemeral_beforenm ->
  (forall before boxes pair' x box keys_bytes after keys sender_public
          encryption_key sender_beforenm chunks tr_payload,
     pairs = before ++ pair' :: after ->
     Forall2 (fun p b => exists y, unpack2 p = Ok (y, b)) before
       boxes ->
     Forall (fun b =>
               crypto_box_open_afternm b
                 (nonce_prefix_for ephemeral_public ++ to_bytes_big 8 0)
                 ephemeral_beforenm = Err CryptoError) boxes ->
     unpack2 pair' = Ok (x, box) ->
     crypto_box_open_afternm box
       (nonce_prefix_for ephemeral_public ++ to_bytes_big 8 0)
       ephemeral_beforenm = Ok keys_bytes ->
     unpackb keys_bytes = Ok keys ->
     unpack2 keys = Ok (sender_public, encryption_key) ->
     crypto_box_beforenm sender_public recipient_private
     = Ok sender_beforenm ->
     reads_payload (nonce_prefix_for ephemeral_public) sender_beforenm
       encryption_key (length before) 2 stream chunks tr_payload ->
     decrypt input recipient_private
     = Some (Ok (concat chunks),
             Call_box_beforenm (OBytes ephemeral_public) recipient_private
             :: ((fun b =>
                    Call_box_open_afternm b
                      (nonce_prefix_for ephemeral_public
                       ++ to_bytes_big 8 0)
                      ephemeral_beforenm) <$> (boxes ++ [box]))
             ++ Call_box_beforenm sender_public recipient_private
                :: tr_payload))
  /\ (forall boxes,
        Forall2 (fun p b => exists y, unpack2 p = Ok (y, b)) pairs
          boxes ->
        Forall (fun b =>
                  crypto_box_open_afternm b
                    (nonce_prefix_for ephemeral_public ++ to_bytes_big 8 0)
                    ephemeral_beforenm = Err CryptoError) boxes ->
        decrypt input recipient_private
        = Some (Err (RuntimeError "Failed to find matching recipient."),
                Call_box_beforenm (OBytes ephemeral_public)
                  recipient_private
                :: ((fun b =>
                       Call_box_open_afternm b
                         (nonce_prefix_for ephemeral_public
                          ++ to_bytes_big 8 0)
                         ephemeral_beforenm) <$> boxes))).
Proof.
  intros Hin Hv Hk. split.
  - intros before boxes pair' x box keys_bytes after keys sender_public
      encryption_key sender_beforenm chunks tr_payload -> Hbefore Hrej Hpair
      Hopen Hkeys Hkeys2 Hsbn Hpayload.
    pose proof (decrypt_recipients_first (nonce_prefix_for ephemeral_public)
                  ephemeral_beforenm before boxes pair' x box keys_bytes
                  after 0 Hbefore Hrej Hpair Hopen) as Hrec.
    cbn [Nat.add] in Hrec.
    unfold decrypt. rewrite Hin, bind_lift_Ok. cbn [unpack5 py_iter].
    rewrite bind_lift_Ok, Hv, bind_lift_Ok. cbn [as_bytes].
    rewrite bind_lift_Ok. unfold bindings_crypto_box_beforenm.
    rewrite Hk. cbn [bind py_iter]. rewrite bind_lift_Ok.
    fold (nonce_prefix_for ephemeral_public). rewrite Hrec. cbn [bind].
    unfold decrypt_payload. rewrite Hkeys, bind_lift_Ok, Hkeys2, bind_lift_Ok.
    unfold bindings_crypto_box_beforenm. rewrite Hsbn. cbn [bind].
    by rewrite (reads_payload_run _ _ _ _ _ _ _ _ Hpayload) by lia.
  - intros boxes Hpairs Hrej.
    pose proof (decrypt_recipients_none (nonce_prefix_for ephemeral_public)
                  ephemeral_beforenm pairs boxes 0 Hpairs Hrej) as Hrec.
    unfold decrypt. rewrite Hin, bind_lift_Ok. cbn [unpack5 py_iter].
    rewrite bind_lift_Ok, Hv, bind_lift_Ok. cbn [as_bytes].
    rewrite bind_lift_Ok. unfold bindings_crypto_box_beforenm.
    rewrite Hk. cbn [bind py_iter]. rewrite bind_lift_Ok.
    fold (nonce_prefix_for ephemeral_public). by rewrite Hrec.
Qed.
End Claims.

Section ClaimsOnReturn.
Context `{NaCl, Hashlib, Umsgpack}.
Context `{!NaClSpec, !HashlibSpec, !UmsgpackSpec}.


End ClaimsOnReturn.

(** * Further properties of the code *)

(** ** counter *)

Lemma Z_of_byte_of_Z z : 0 <= z < 256 -> Z_of_byte (byte_of_Z z) = z.
Proof.
  intros Hz. unfold Z_of_byte, byte_of_Z.
  destruct (Byte.of_N (Z.to_N z)) as [x|] eqn:Ex.
  - apply Byte.to_of_N in Ex. lia.
  - apply Byte.of_N_None_iff in Ex. lia.
Qed.

Lemma from_bytes_big_snoc b x :
  from_bytes_big (b ++ [x]) = from_bytes_big b * 256 + Z_of_byte x.
Proof. unfold from_bytes_big. by rewrite fold_left_app. Qed.

Lemma from_to_bytes_big len :
  forall i, 0 <= i < 256 ^ Z.of_nat len ->
    from_bytes_big (to_bytes_big len i) = i.
Proof.
  induction len as [|len IH]; intros i Hi.
  - cbn in *. lia.
  - cbn [to_bytes_big]. rewrite from_bytes_big_snoc.
    rewrite Nat2Z.inj_succ, Z.pow_succ_r in Hi by lia.
    rewrite IH, Z_of_byte_of_Z by
      (first [by apply Z.mod_pos_bound
             | split; [apply Z.div_pos; lia
                      | apply Z.div_lt_upper_bound; lia]]).
    pose proof (Z.div_mod i 256). lia.
Qed.

(** X1. [counter] returns exactly for the integers from 0 to 2^64 - 1, and
    raises OverflowError for every other one. What it returns has 8
    bytes and reads back, as a big-endian number, as the integer it was
    given; so two different integers never get the same counter. *)
Theorem counter_from_bytes_big (i : Z) :
  (0 <= i < 2 ^ 64 ->
     exists c, counter i = Ok c /\ length c = 8%nat /\ from_bytes_big c = i)
  /\ (i < 0 \/ 2 ^ 64 <= i -> counter i = Err OverflowError)
  /\ (forall j c, counter i = Ok c -> counter j = Ok c -> i = j).
Proof.
  split; [|split].
  - intros Hi. exists (to_bytes_big 8 i). split; [by apply counter_Ok|].
    split; [apply length_to_bytes_big|]. apply from_to_bytes_big.
    change (256 ^ Z.of_nat 8) with (2 ^ 64). lia.
  - intros Hi. unfold counter.
    destruct (Z.leb_spec 0 i); destruct (Z.ltb_spec i (2 ^ 64)); cbn;
      try done; lia.
  - intros j c. apply counter_inj.
Qed.

(** ** chunks_with_empty, chunk by chunk *)

Lemma chunks_loop_slices (message : bytes) (chunk_size : Z) :
  1 <= chunk_size ->
  forall fuel chunk_start chunks,
    0 <= chunk_start ->
    (Z.to_nat (Z.of_nat (length message) - chunk_start) < fuel)%nat ->
    exists new,
      chunks_loop fuel message chunk_size chunk_start chunks
      = Some (chunks ++ new ++ [[]])
      /\ Z.of_nat (length new)
         = (Z.max 0 (Z.of_nat (length message) - chunk_start)
            + chunk_size - 1) / chunk_size
      /\ forall j, (j < length new)%nat ->
           new !! j
           = Some (py_slice message
                     (chunk_start + Z.of_nat j * chunk_size)
                     (chunk_start + Z.of_nat j * chunk_size + chunk_size)).
Proof.
  intros Hc. induction fuel as [|fuel IH]; intros chunk_start chunks Hs Hf.
  - lia.
  - cbn [chunks_loop].
    destruct (Z.ltb_spec chunk_start (Z.of_nat (length message))) as [Hlt|Hge].
    + destruct (IH (chunk_start + chunk_size)
                  (chunks ++
                   [py_slice message chunk_start (chunk_start + chunk_size)]))
        as (new & Hrun & Hlen & Hnew); [lia|lia|].
      exists (py_slice message chunk_start (chunk_start + chunk_size) :: new).
      split; [|split].
      * rewrite Hrun. f_equal. by rewrite <- app_assoc.
      * cbn [length]. rewrite Nat2Z.inj_succ, Hlen.
        destruct (Z.le_gt_cases
                    (chunk_start + chunk_size) (Z.of_nat (length message)))
          as [Hle|Hgt].
        -- rewrite !Z.max_r by lia.
           replace (Z.of_nat (length message) - chunk_start + chunk_size - 1)
             with (Z.of_nat (length message) - (chunk_start + chunk_size)
                   + chunk_size - 1 + 1 * chunk_size) by lia.
           rewrite Z.div_add by lia. lia.
        -- rewrite Z.max_l, Z.max_r by lia.
           rewrite (Z.div_small (0 + chunk_size - 1)) by lia.
           change (Z.succ 0) with 1.
           apply (Z.div_unique _ _ 1
                    (Z.of_nat (length message) - chunk_start - 1)); lia.
      * intros [|j] Hj.
        -- cbn. do 2 f_equal; lia.
        -- cbn [lookup list_lookup]. cbn in Hj.
           change (new !! j = Some
                     (py_slice message
                        (chunk_start + Z.of_nat (S j) * chunk_size)
                        (chunk_start + Z.of_nat (S j) * chunk_size
                         + chunk_size))).
           rewrite Hnew by lia. do 2 f_equal; lia.
    + exists []. split; [done|]. split; [|cbn; lia].
      rewrite Z.max_l by lia. cbn [length].
      by rewrite (Z.div_small (0 + chunk_size - 1)) by lia.
Qed.

(** X2. For a chunk size of at least 1, [chunks_with_empty] returns
    ceil(len(message) / chunk_size) + 1 chunks: chunk [j] (the last one
    apart) is the slice message[j*chunk_size : (j+1)*chunk_size], every
    chunk before the last two has exactly [chunk_size] bytes, and the
    last one is empty. *)
Theorem chunks_with_empty_slices (message : bytes) (chunk_size : Z) :
  1 <= chunk_size ->
  exists chunks,
    chunks_with_empty message chunk_size = Some chunks
    /\ Z.of_nat (length chunks)
       = (Z.of_nat (length message) + chunk_size - 1) / chunk_size + 1
    /\ (forall j, (S j < length chunks)%nat ->
          chunks !! j
          = Some (py_slice message (Z.of_nat j * chunk_size)
                    (Z.of_nat j * chunk_size + chunk_size)))
    /\ (forall j c, (S (S j) < length chunks)%nat ->
          chunks !! j = Some c -> Z.of_nat (length c) = chunk_size)
    /\ list.last chunks = Some [].
Proof.
  intros Hc.
  destruct (chunks_loop_slices message chunk_size Hc (S (length message)) 0 [])
    as (new & Hrun & Hlen & Hnew); [lia|lia|].
  rewrite Z.sub_0_r, Z.max_r in Hlen by lia.
  exists (new ++ [[]]). split; [done|].
  assert (forall j, (S j < length (new ++ [[]]))%nat ->
            (new ++ [[]]) !! j
            = Some (py_slice message (Z.of_nat j * chunk_size)
                      (Z.of_nat j * chunk_size + chunk_size))) as Hslice.
  { intros j Hj. rewrite length_app in Hj. cbn in Hj.
    rewrite lookup_app_l by lia. by rewrite Hnew by lia. }
  split; [|split; [done|split]].
  - rewrite length_app. cbn [length]. lia.
  - intros j c Hj Hjc. rewrite Hslice in Hjc by lia. injection Hjc as <-.
    rewrite length_app in Hj. cbn in Hj.
    pose proof (Z.mul_div_le
                  (Z.of_nat (length message) + chunk_size - 1) chunk_size)
      as Hdiv.
    assert (Z.of_nat j * chunk_size + chunk_size
            <= Z.of_nat (length message)) as Hfull by nia.
    rewrite py_slice_chunk by nia.
    rewrite length_take, length_drop. nia.
  - by rewrite last_snoc.
Qed.


(** ** [encrypt] and the chunk size; [decrypt] by a stranger *)

Lemma bind_Ok_None {A B} (m : M A) (k : A -> M B) a tr :
  m = Some (Ok a, tr) -> k a = None -> bind m k = None.
Proof. intros -> Hk. cbn. by rewrite Hk. Qed.

Lemma bind_None_of_Ok {A B} (m : M A) (k k' : A -> M B) b tr :
  bind m k' = Some (Ok b, tr) ->
  (forall a b' tr', k' a = Some (Ok b', tr') -> k a = None) ->
  bind m k = None.
Proof.
  destruct m as [[[a|e] t]|]; cbn; try done. intros Hk' Hall.
  destruct (k' a) as [[[b'|e] t']|] eqn:Hka; try done.
  by rewrite (Hall a b' t' Hka).
Qed.

Section EncryptMore.
Context `{NaCl, Hashlib, Umsgpack}.

(** X3. [encrypt] checks nothing of the chunk size. With a chunk size of
    0 or less and a message that is not empty, [encrypt] never returns a
    ciphertext, and with keys and random draws for which it returns one
    for some message and chunk size, it never returns at all: the header
    is computed and the chunking never ends. [encrypt] of the empty
    message does what it does with a chunk size of 1. *)
Theorem encrypt_nonpositive_chunk_size sender_private recipient_public_keys
    message chunk_size ephemeral_private encryption_key :
  chunk_size <= 0 ->
  (message <> [] ->
   (forall output tr,
      encrypt sender_private recipient_public_keys message chunk_size
        ephemeral_private encryption_key <> Some (Ok output, tr))
   /\ (forall message' chunk_size' output tr,
         encrypt sender_private recipient_public_keys message' chunk_size'
           ephemeral_private encryption_key = Some (Ok output, tr) ->
         encrypt sender_private recipient_public_keys message chunk_size
           ephemeral_private encryption_key = None))
  /\ (message = [] ->
      encrypt sender_private recipient_public_keys message chunk_size
        ephemeral_private encryption_key
      = encrypt sender_private recipient_public_keys message 1
          ephemeral_private encryption_key).
Proof.
  intros Hcs. split.
  - intros Hm.
    assert (forall message' chunk_size' output tr,
              encrypt sender_private recipient_public_keys message'
                chunk_size' ephemeral_private encryption_key
              = Some (Ok output, tr) ->
              encrypt sender_private recipient_public_keys message chunk_size
                ephemeral_private encryption_key = None) as Hnone.
    { intros message' chunk_size' output tr Henc. unfold encrypt in *.
      do 6 (eapply bind_None_of_Ok; [exact Henc|]; clear Henc;
            intros ? ? ? Henc; cbn beta iota zeta in *;
            try match goal with
                | p : (_ * _)%type |- _ => destruct p
                end).
      unfold chunks_with_empty, chunks_with_empty_fuel.
      by rewrite chunks_loop_diverges by (done || lia). }
    split; [|done].
    intros output tr Henc. by rewrite (Hnone _ _ _ _ Henc) in Henc.
  - intros ->. unfold encrypt.
    by replace (chunks_with_empty [] chunk_size)
      with (chunks_with_empty [] 1) by reflexivity.
Qed.

Context `{!NaClCore, !HashlibSpec}.

(** With a chunk size of 0 or less and a message that is not empty, the
    header is computed and the chunking never ends. *)
Lemma encrypt_diverges sender_private recipient_public_keys message
    chunk_size ephemeral_private encryption_key :
  (forall v, packb_raises v = None) ->
  length sender_private = 32%nat ->
  Forall (fun pk : bytes =>
            (exists k, crypto_box_beforenm (OBytes pk) ephemeral_private
                       = Ok k)
            /\ (exists k, crypto_box_beforenm (OBytes pk) sender_private
                          = Ok k)) recipient_public_keys ->
  length ephemeral_private = 32%nat ->
  chunk_size <= 0 ->
  message <> [] ->
  encrypt sender_private recipient_public_keys message chunk_size
    ephemeral_private encryption_key = None.
Proof.
  intros Hpack Hsk Hpks Hesk Hcs Hm. unfold encrypt.
  destruct (scalarmult_base_ok sender_private Hsk) as (spk & Hspk & _).
  destruct (scalarmult_base_ok ephemeral_private Hesk) as (epk & Hepk & _).
  unfold bindings_crypto_scalarmult_base. rewrite Hspk, Hepk.
  destruct (encrypt_recipients_runs
              (packb (OList [OBytes spk; OBytes encryption_key]))
              (nonce_prefix_for epk ++ to_bytes_big 8 0)
              ephemeral_private sender_private (length_nonce _ _)
              recipient_public_keys [] ∅ Hpks) as ([pairs d] & t1 & Hrec).
  eapply bind_Ok_None; [done|]. eapply bind_Ok_None; [done|].
  cbn beta zeta.
  rewrite (umsgpack_packb_None _ (Hpack _)), bind_ret.
  rewrite counter_0, bind_lift_Ok.
  eapply bind_Ok_None; [exact Hrec|]. cbn beta iota zeta.
  rewrite (umsgpack_packb_None _ (Hpack _)), bind_ret.
  unfold chunks_with_empty, chunks_with_empty_fuel.
  by rewrite chunks_loop_diverges by (done || lia).
Qed.

Context `{!UmsgpackCore}.

(** X4. A private key whose public key is not among the recipients, and
    which opens none of the recipient boxes of the message, gets
    RuntimeError('Failed to find matching recipient.') from [decrypt]
    on what [encrypt] returned; so does every private key when the list
    of recipients is empty. *)
Theorem decrypt_non_recipient sender_private recipient_public_keys message
    chunk_size ephemeral_private encryption_key recipient_private
    recipient_public output tr :
  encrypt sender_private recipient_public_keys message chunk_size
    ephemeral_private encryption_key = Some (Ok output, tr) ->
  length ephemeral_private = 32%nat ->
  length recipient_private = 32%nat ->
  crypto_scalarmult_base recipient_private = Ok recipient_public ->
  recipient_public ∉ recipient_public_keys ->
  other_boxes_rejected sender_private recipient_public_keys
    ephemeral_private encryption_key recipient_private ->
  outcome (decrypt output recipient_private)
  = Some (Err (RuntimeError "Failed to find matching recipient.")).
Proof.
  intros Henc Hesk Hrsk Hpub Hnotin Hiso.
  apply encrypt_inv in Henc
    as (spk & epk & boxes & d & chunks & packets & tr_p & Hspk & Hepk
        & Hboxes & _ & _ & _ & _ & -> & _).
  destruct (scalarmult_base_ok ephemeral_private Hesk) as (q & Hq & Hlen).
  rewrite Hepk in Hq. injection Hq as <-.
  destruct (box_beforenm_derived ephemeral_private epk recipient_private
              Hesk Hepk Hrsk) as [ek Hek].
  assert (Forall (fun b =>
                    crypto_box_open_afternm b
                      (nonce_prefix_for epk ++ to_bytes_big 8 0) ek
                    = Err CryptoError) (OBytes <$> boxes)) as Hrej.
  { apply Forall_fmap, Forall_lookup_2. intros j b Hj.
    destruct (Forall2_lookup_r _ _ _ _ _ Hboxes Hj) as (pk & Hpk & Hb).
    apply list_elem_of_lookup_2 in Hpk. cbn.
    apply (Hiso spk epk recipient_public ek pk b Hspk Hepk Hpub Hek Hpk);
      [|done].
    by intros ->. }
  pose proof (decrypt_recipients_none (nonce_prefix_for epk) ek
                (recipient_pair_for <$> boxes) (OBytes <$> boxes) 0
                (recipient_pairs_unpack boxes) Hrej) as Hrec.
  unfold decrypt, header_for.
  rewrite unpack_packb, bind_lift_Ok. cbn [unpack5 py_iter].
  rewrite bind_lift_Ok. cbn [unpack2 py_iter]. rewrite bind_lift_Ok.
  cbn [as_bytes]. rewrite bind_lift_Ok.
  unfold bindings_crypto_box_beforenm. rewrite Hek. cbn [bind py_iter].
  rewrite bind_lift_Ok. fold (nonce_prefix_for epk).
  by rewrite Hrec.
Qed.
End EncryptMore.

(** ** The calls of [decrypt], on any input *)

Lemma all_calls_lift {A} P (r : result A) : all_calls P (lift r).
Proof. intros r' tr [= _ <-]. constructor. Qed.

Lemma all_calls_ret {A} P (a : A) : all_calls P (ret a).
Proof. intros r' tr [= _ <-]. constructor. Qed.

Lemma all_calls_raise {A} P e : all_calls P (@raise A e).
Proof. intros r' tr [= _ <-]. constructor. Qed.

Lemma all_calls_bind {A B} P (m : M A) (k : A -> M B) :
  all_calls P m ->
  (forall a tr, m = Some (Ok a, tr) -> all_calls P (k a)) ->
  all_calls P (bind m k).
Proof.
  intros Hm Hk r tr. destruct m as [[[a|e] t1]|]; cbn; [| |done].
  - destruct (k a) as [[r2 t2]|] eqn:E; cbn; [|done].
    intros [= <- <-]. apply Forall_app. split; [by eapply Hm|].
    by eapply (Hk a t1).
  - intros [= <- <-]. by eapply Hm.
Qed.

Lemma all_calls_try {A} P (body handler : M A) :
  all_calls P body -> all_calls P handler ->
  all_calls P (try_except_CryptoError body handler).
Proof.
  intros Hb Hh r tr. unfold try_except_CryptoError.
  destruct body as [[[a|e] t1]|] eqn:E; [by apply Hb| |done].
  destruct e; try by apply Hb.
  destruct handler as [[r2 t2]|]; cbn; [|done].
  intros [= <- <-]. apply Forall_app. split; [by eapply Hb|by eapply Hh].
Qed.

Lemma lift_Ok_inv {A} (r : result A) a tr :
  lift r = Some (Ok a, tr) -> r = Ok a.
Proof. by intros [= ->]. Qed.

Section DecryptCalls.
Context `{NaCl, Hashlib, Umsgpack}.

Lemma all_calls_beforenm P pk sk :
  P (Call_box_beforenm pk sk) ->
  all_calls P (bindings_crypto_box_beforenm pk sk).
Proof. intros HP r tr [= _ <-]. by constructor. Qed.

Lemma all_calls_open_afternm P ciphertext nonce k :
  P (Call_box_open_afternm ciphertext nonce k) ->
  all_calls P (bindings_crypto_box_open_afternm ciphertext nonce k).
Proof. intros HP r tr [= _ <-]. by constructor. Qed.

Lemma all_calls_secretbox_open P ciphertext nonce key :
  P (Call_secretbox_open ciphertext nonce key) ->
  all_calls P (bindings_crypto_secretbox_open ciphertext nonce key).
Proof. intros HP r tr [= _ <-]. by constructor. Qed.

Lemma decrypt_recipients_calls nonce_prefix ephemeral_beforenm :
  forall pairs recipient_index,
    all_calls (decrypt_call nonce_prefix)
      (decrypt_recipients nonce_prefix ephemeral_beforenm pairs
         recipient_index).
Proof.
  induction pairs as [|p pairs IH]; intros recipient_index.
  - apply all_calls_raise.
  - cbn [decrypt_recipients].
    apply all_calls_bind; [apply all_calls_lift|]. intros [x box] _ _.
    apply all_calls_try; [|apply IH].
    apply all_calls_bind; [apply all_calls_lift|].
    intros c t [_ ->]%lift_Ok_inv%counter_inv.
    apply all_calls_bind; [|intros; apply all_calls_ret].
    apply all_calls_open_afternm. exists 0. split; [by left|done].
Qed.

Lemma decrypt_packet_calls nonce_prefix sender_beforenm key recipient_index
    stream packetnum :
  2 <= packetnum ->
  all_calls (decrypt_call nonce_prefix)
    (decrypt_packet nonce_prefix sender_beforenm key recipient_index stream
       packetnum).
Proof.
  intros Hj. unfold decrypt_packet.
  apply all_calls_bind; [apply all_calls_lift|].
  intros c t [Hc ->]%lift_Ok_inv%counter_inv.
  apply all_calls_bind; [apply all_calls_lift|]. intros [packet rest] _ _.
  apply all_calls_bind; [apply all_calls_lift|]. intros [tbs body] _ _.
  apply all_calls_bind; [apply all_calls_lift|]. intros tb _ _.
  apply all_calls_bind.
  { apply all_calls_open_afternm. exists packetnum. split; [right; lia|done]. }
  intros tag _ _.
  apply all_calls_bind; [apply all_calls_lift|]. intros stripped _ _.
  apply all_calls_bind; [|intros; apply all_calls_ret].
  apply all_calls_secretbox_open. exists packetnum. split; [lia|done].
Qed.

Lemma decrypt_packets_calls nonce_prefix sender_beforenm key recipient_index :
  forall fuel stream packetnum output,
    2 <= packetnum ->
    all_calls (decrypt_call nonce_prefix)
      (decrypt_packets fuel nonce_prefix sender_beforenm key recipient_index
         stream packetnum output).
Proof.
  induction fuel as [|fuel IH]; intros stream packetnum output Hj.
  - by intros r tr.
  - cbn [decrypt_packets].
    apply all_calls_bind; [by apply decrypt_packet_calls|].
    intros [chunk rest] _ _.
    destruct (decide (chunk = [])); [apply all_calls_ret|].
    apply IH. lia.
Qed.

Lemma decrypt_call_nonce `{!HashlibSpec} ephemeral_public x nonce :
  decrypt_call (nonce_prefix_for ephemeral_public) x ->
  call_nonce x = Some nonce ->
  length nonce = 24%nat
  /\ nonce <> nonce_prefix_for ephemeral_public ++ to_bytes_big 8 1.
Proof.
  assert (forall j, (j = 0 \/ 2 <= j < 2 ^ 64) ->
            nonce = nonce_prefix_for ephemeral_public ++ to_bytes_big 8 j ->
            length nonce = 24%nat
            /\ nonce
               <> nonce_prefix_for ephemeral_public ++ to_bytes_big 8 1)
    as Hj.
  { intros j Hj ->. split; [apply length_nonce|].
    intros Heq%app_inv_head.
    apply (to_bytes_big_inj 8) in Heq;
      change (256 ^ Z.of_nat 8) with (2 ^ 64); lia. }
  destruct x; cbn; try done.
  - intros (j & Hr & Hn) [= <-]. by apply (Hj j).
  - intros (j & Hr & Hn) [= <-]. apply (Hj j); [right; lia|done].
Qed.

(** X5. On any input with a well-formed header, whether [decrypt] returns
    or raises, every PyNaCl call it made is a key agreement or the opening
    of a box or a secretbox; [decrypt] seals nothing. Every nonce it used
    has 24 bytes and is the nonce prefix of the header's ephemeral key
    followed by an 8-byte counter: 0 or a packet number from 2 on for a
    box, a packet number from 2 on for a secretbox, never 1. *)
Theorem decrypt_nonces `{!HashlibSpec} input recipient_private format_name
    version mode ephemeral_public recipient_pairs stream r tr :
  unpack input
  = Ok (OList [format_name; version; mode; OBytes ephemeral_public;
               recipient_pairs], stream) ->
  decrypt input recipient_private = Some (r, tr) ->
  Forall (decrypt_call (nonce_prefix_for ephemeral_public)) tr
  /\ forall x nonce,
       x ∈ tr -> call_nonce x = Some nonce ->
       length nonce = 24%nat
       /\ nonce <> nonce_prefix_for ephemeral_public ++ to_bytes_big 8 1.
Proof.
  intros Hin Hrun.
  assert (Forall (decrypt_call (nonce_prefix_for ephemeral_public)) tr)
    as Hall.
  { revert r tr Hrun.
    change (all_calls (decrypt_call (nonce_prefix_for ephemeral_public))
              (decrypt input recipient_private)).
    unfold decrypt. rewrite Hin, bind_lift_Ok. cbn [unpack5 py_iter].
    rewrite bind_lift_Ok.
    apply all_calls_bind; [apply all_calls_lift|]. intros [major minor] _ _.
    cbn [as_bytes]. rewrite bind_lift_Ok.
    fold (nonce_prefix_for ephemeral_public).
    apply all_calls_bind; [by apply all_calls_beforenm|]. intros ek _ _.
    apply all_calls_bind; [apply all_calls_lift|]. intros pairs _ _.
    apply all_calls_bind; [apply decrypt_recipients_calls|].
    intros [i keys_bytes] _ _. unfold decrypt_payload.
    apply all_calls_bind; [apply all_calls_lift|]. intros keys _ _.
    apply all_calls_bind; [apply all_calls_lift|]. intros [spk key] _ _.
    apply all_calls_bind; [by apply all_calls_beforenm|]. intros sbn _ _.
    by apply decrypt_packets_calls. }
  split; [done|]. intros x nonce Hx Hn.
  rewrite Forall_forall in Hall.
  apply (decrypt_call_nonce ephemeral_public x nonce); [|done].
  apply Hall. by apply list_elem_of_In.
Qed.

Lemma lift_inv {A} (r : result A) a tr :
  lift r = Some (Ok a, tr) -> r = Ok a /\ tr = [].
Proof. by intros [= -> <-]. Qed.

Lemma ret_inv {A} (a b : A) tr : ret a = Some (Ok b, tr) -> a = b /\ tr = [].
Proof. by intros [= -> <-]. Qed.

Lemma prepend_Ok_inv {A} t (m : M A) a tr :
  prepend t m = Some (Ok a, tr) ->
  exists t', m = Some (Ok a, t') /\ tr = t ++ t'.
Proof.
  destruct m as [[r t']|]; cbn; [|done]. intros [= -> <-]. by exists t'.
Qed.

Lemma decrypt_recipients_inv nonce_prefix ephemeral_beforenm :
  forall pairs recipient_index found keys_bytes tr,
    decrypt_recipients nonce_prefix ephemeral_beforenm pairs recipient_index
    = Some (Ok (found, keys_bytes), tr) ->
    exists pair' x recipient_box,
      (recipient_index <= found)%nat
      /\ pairs !! (found - recipient_index)%nat = Some pair'
      /\ unpack2 pair' = Ok (x, recipient_box)
      /\ crypto_box_open_afternm recipient_box
           (nonce_prefix ++ to_bytes_big 8 0) ephemeral_beforenm
         = Ok keys_bytes
      /\ Call_box_open_afternm recipient_box
           (nonce_prefix ++ to_bytes_big 8 0) ephemeral_beforenm ∈ tr.
Proof.
  induction pairs as [|p pairs IH]; intros i found kb tr Hrun; [done|].
  cbn [decrypt_recipients] in Hrun.
  apply bind_Ok_inv in Hrun as ([x box] & ? & ? & Hp & Hrun & ->).
  apply lift_inv in Hp as [Hp ->].
  rewrite counter_0, bind_lift_Ok in Hrun.
  unfold bindings_crypto_box_open_afternm in Hrun.
  destruct (crypto_box_open_afternm box (nonce_prefix ++ to_bytes_big 8 0)
              ephemeral_beforenm) as [kb'|e] eqn:Hopen.
  - cbn in Hrun. injection Hrun as <- <- <-.
    exists p, x, box. rewrite Nat.sub_diag. do 4 (split; [done|]).
    set_solver.
  - destruct e; try done. cbn in Hrun.
    apply prepend_Ok_inv in Hrun as (t' & Hrun & ->).
    apply IH in Hrun as (p' & x' & box' & Hle & Hlk & Hp' & Hopen' & Hcall).
    exists p', x', box'. split; [lia|]. split.
    { replace (found - i)%nat with (S (found - S i)) by lia. done. }
    do 2 (split; [done|]). set_solver.
Qed.

Lemma decrypt_packet_inv nonce_prefix sender_beforenm key recipient_index
    stream packetnum chunk rest tr :
  decrypt_packet nonce_prefix sender_beforenm key recipient_index stream
    packetnum = Some (Ok (chunk, rest), tr) ->
  exists packet tag_boxes tag_box payload_tag stripped,
    unpack stream = Ok (packet, rest)
    /\ unpack2 packet = Ok (tag_boxes, OBytes stripped)
    /\ py_getitem tag_boxes recipient_index = Ok tag_box
    /\ crypto_box_open_afternm tag_box
         (nonce_prefix ++ to_bytes_big 8 packetnum) sender_beforenm
       = Ok payload_tag
    /\ crypto_secretbox_open (payload_tag ++ stripped)
         (nonce_prefix ++ to_bytes_big 8 packetnum) key = Ok chunk
    /\ tr = [Call_box_open_afternm tag_box
               (nonce_prefix ++ to_bytes_big 8 packetnum) sender_beforenm;
             Call_secretbox_open (payload_tag ++ stripped)
               (nonce_prefix ++ to_bytes_big 8 packetnum) key].
Proof.
  unfold decrypt_packet. intros Hrun.
  apply bind_Ok_inv in Hrun as (c & ? & ? & Hc & Hrun & ->).
  apply lift_inv in Hc as [[_ ->]%counter_inv ->].
  apply bind_Ok_inv in Hrun as ([packet rest'] & ? & ? & Hp & Hrun & ->).
  apply lift_inv in Hp as [Hp ->].
  apply bind_Ok_inv in Hrun as ([tbs body] & ? & ? & Hu & Hrun & ->).
  apply lift_inv in Hu as [Hu ->].
  apply bind_Ok_inv in Hrun as (tb & ? & ? & Hg & Hrun & ->).
  apply lift_inv in Hg as [Hg ->].
  apply bind_Ok_inv in Hrun as (tag & ? & ? & Ho & Hrun & ->).
  injection Ho as Ho <-.
  apply bind_Ok_inv in Hrun as (stripped & ? & ? & Hs & Hrun & ->).
  apply lift_inv in Hs as [Hs ->].
  destruct body; try done. injection Hs as ->.
  apply bind_Ok_inv in Hrun as (chunk' & ? & ? & Hso & Hrun & ->).
  injection Hso as Hso <-.
  apply ret_inv in Hrun as [[= -> ->] ->].
  by exists packet, tbs, tb, tag, stripped.
Qed.

Lemma decrypt_packets_inv nonce_prefix sender_beforenm key recipient_index :
  forall fuel stream packetnum output result tr,
    decrypt_packets fuel nonce_prefix sender_beforenm key recipient_index
      stream packetnum output = Some (Ok result, tr) ->
    exists body,
      result = output ++ concat body
      /\ Forall (fun c : bytes => c <> []) body
      /\ forall j chunk,
           (body ++ [[]]) !! j = Some chunk ->
           exists tag_box payload_tag stripped,
             crypto_box_open_afternm tag_box
               (nonce_prefix ++ to_bytes_big 8 (packetnum + Z.of_nat j))
               sender_beforenm = Ok payload_tag
             /\ crypto_secretbox_open (payload_tag ++ stripped)
                  (nonce_prefix ++ to_bytes_big 8 (packetnum + Z.of_nat j))
                  key = Ok chunk
             /\ Call_box_open_afternm tag_box
                  (nonce_prefix ++ to_bytes_big 8 (packetnum + Z.of_nat j))
                  sender_beforenm ∈ tr
             /\ Call_secretbox_open (payload_tag ++ stripped)
                  (nonce_prefix ++ to_bytes_big 8 (packetnum + Z.of_nat j))
                  key ∈ tr.
Proof.
  induction fuel as [|fuel IH]; intros stream packetnum output result tr Hrun;
    [done|].
  cbn [decrypt_packets] in Hrun.
  apply bind_Ok_inv in Hrun as ([chunk rest] & ? & ? & Hp & Hrun & ->).
  apply decrypt_packet_inv in Hp
    as (packet & tbs & tb & tag & stripped & _ & _ & _ & Hopen & Hsopen & ->).
  destruct (decide (chunk = [])) as [->|Hne].
  - apply ret_inv in Hrun as [<- ->]. exists []. cbn [concat app].
    split; [done|]. split; [constructor|].
    intros [|j] c Hj; [|done]. injection Hj as <-.
    rewrite Z.add_0_r. exists tb, tag, stripped. set_solver.
  - apply IH in Hrun as (body & -> & Hbody & Hall).
    exists (chunk :: body). split; [|split].
    + cbn [concat]. by rewrite <- !app_assoc.
    + by constructor.
    + intros [|j] c Hj.
      * injection Hj as <-. rewrite Z.add_0_r.
        exists tb, tag, stripped. set_solver.
      * destruct (Hall j c Hj) as (tb' & tag' & s' & H1' & H2' & H3' & H4').
        replace (packetnum + Z.of_nat (S j))
          with (packetnum + 1 + Z.of_nat j) by lia.
        exists tb', tag', s'. set_solver.
Qed.

End DecryptCalls.

(** ** The command line *)

Lemma of_run_outcome {A} (m : M A) a :
  outcome m = Some (Ok a) -> of_run m = Some (Returns a).
Proof. destruct m as [[[b|e] tr]|]; cbn; [|done..]. by intros [= ->]. Qed.

Lemma cmd_bind_raises {A B} (m : Cmd A) (k : A -> Cmd B) :
  m <> None ->
  (forall a, m = Some (Returns a) -> exists e, k a = Some (Raises e)) ->
  exists e, cmd_bind m k = Some (Raises e).
Proof.
  intros Hm Hk. destruct m as [[a|e]|]; cbn; [by apply Hk|by exists e|done].
Qed.

Section CommandLineFacts.
Context `{NaCl, Hashlib, Umsgpack, Builtins}.
Variable decrypt_debug : bytes -> bytes -> Cmd bytes.

Lemma get_private_length args private :
  get_private args = Some (Returns private) -> length private = 32%nat.
Proof.
  unfold get_private.
  destruct (args_private args) as [[|c s]|]; cbn;
    try (intros [= <-]; reflexivity).
  destruct (binascii_unhexlify (c :: s)) as [b|e]; cbn; [|done].
  destruct (length b =? 32)%nat eqn:E; cbn; [|done].
  intros [= <-]. by apply Nat.eqb_eq.
Qed.

Lemma get_private_finishes args : get_private args <> None.
Proof.
  unfold get_private. destruct (args_private args) as [[|c s]|]; cbn; try done.
  destruct (binascii_unhexlify (c :: s)) as [b|e]; cbn; [|done].
  by destruct (length b =? 32)%nat.
Qed.

Lemma get_private_same args args' :
  args_private args = args_private args' ->
  get_private args = get_private args'.
Proof. unfold get_private. by intros ->. Qed.

(** X7. [get_private] never returns a key that does not have 32 bytes:
    without the argument, or with the empty string for it, the key is 32
    zero bytes; with an argument that decodes to 32 bytes it is the
    decoded bytes; a decoding failure and a decoded key of another length
    (AssertionError) both end the run. *)
Theorem get_private_key args :
  (forall private,
     get_private args = Some (Returns private) -> length private = 32%nat)
  /\ (args_private args = None \/ args_private args = Some [] ->
      get_private args = Some (Returns (replicate 32 x00)))
  /\ (forall hex,
        args_private args = Some hex -> hex <> [] ->
        get_private args
        = match binascii_unhexlify hex with
          | Returns private =>
              if decide (length private = 32%nat)
              then Some (Returns private)
              else Some (Raises AssertionError)
          | Raises e => Some (Raises e)
          end).
Proof.
  split; [|split].
  - intros private. apply get_private_length.
  - unfold get_private. by intros [-> | ->].
  - intros hex Hhex Hne. unfold get_private. rewrite Hhex.
    destruct hex as [|c s]; [done|]. cbn.
    destruct (binascii_unhexlify (c :: s)) as [b|e]; cbn; [|done].
    destruct (Nat.eqb_spec (length b) 32); cbn.
    + by rewrite decide_True.
    + by rewrite decide_False.
Qed.

Lemma get_recipients_loop_inv :
  forall rest recipients keys,
    get_recipients_loop rest recipients = Some (Returns keys) ->
    exists new,
      keys = recipients ++ new
      /\ Forall2 (fun recipient key =>
                    binascii_unhexlify recipient = Returns key) rest new
      /\ Forall (fun recipient : list N => length recipient = 32%nat) rest.
Proof.
  induction rest as [|r rest IH]; intros acc keys; cbn.
  - intros [= <-]. exists []. by rewrite app_nil_r.
  - destruct (binascii_unhexlify r) as [key|e] eqn:Ekey; cbn; [|done].
    destruct (Nat.eqb_spec (length r) 32) as [Hr|]; cbn; [|done].
    intros (new & -> & Hnew & Hall)%IH. exists (key :: new).
    rewrite <- app_assoc. split; [done|]. split; by constructor.
Qed.

Lemma get_recipients_loop_finishes :
  forall rest recipients, get_recipients_loop rest recipients <> None.
Proof.
  induction rest as [|r rest IH]; intros acc; cbn; [done|].
  destruct (binascii_unhexlify r) as [key|e]; cbn; [|done].
  destruct (length r =? 32)%nat; cbn; [apply IH|done].
Qed.

Lemma unhexlify_keys_16 `{!BuiltinsSpec} (recipients : list (list N))
    (keys : list bytes) :
  Forall2 (fun recipient key => binascii_unhexlify recipient = Returns key)
    recipients keys ->
  Forall (fun recipient : list N => length recipient = 32%nat) recipients ->
  Forall (fun key : bytes => length key = 16%nat) keys.
Proof.
  induction 1 as [|r k rs ks Hk _ IH]; intros Hall; [constructor|].
  inversion Hall as [|? ? Hr Hrs]; subst. constructor; [|by apply IH].
  apply unhexlify_length in Hk. lia.
Qed.

(** X8. With recipients on the command line, [get_recipients] returns
    only if every recipient string has exactly 32 characters (the
    [assert] measures the string, not the key), and then returns one key
    per recipient, in order, each the decoded string and each of 16
    bytes: never a key of 32 bytes. *)
Theorem get_recipients_explicit `{!BuiltinsSpec} args keys :
  args_recipients args <> [] ->
  get_recipients args = Some (Returns keys) ->
  Forall (fun recipient : list N => length recipient = 32%nat)
    (args_recipients args)
  /\ Forall2 (fun recipient key => binascii_unhexlify recipient = Returns key)
       (args_recipients args) keys
  /\ Forall (fun key : bytes => length key = 16%nat) keys.
Proof.
  intros Hne. unfold get_recipients.
  destruct (args_recipients args) as [|r rest] eqn:E; [done|].
  intros (new & -> & Hnew & Hall)%get_recipients_loop_inv.
  cbn [app]. do 2 (split; [done|]).
  by apply (unhexlify_keys_16 (r :: rest)).
Qed.

Lemma encrypt_short_key sender_private recipient_public rest message
    chunk_size ephemeral_private encryption_key :
  (forall message nonce pk sk,
     length pk <> 32%nat -> exists e, crypto_box message nonce pk sk = Err e) ->
  length recipient_public <> 32%nat ->
  exists e tr,
    encrypt sender_private (recipient_public :: rest) message chunk_size
      ephemeral_private encryption_key = Some (Err e, tr).
Proof.
  intros Hstrict Hlen. unfold encrypt, bindings_crypto_scalarmult_base.
  destruct (crypto_scalarmult_base sender_private) as [spk|e]; cbn [bind];
    [|by eexists _, _].
  destruct (crypto_scalarmult_base ephemeral_private) as [epk|e];
    cbn [bind prepend]; [|by eexists _, _].
  unfold umsgpack_packb.
  destruct (packb_raises (OList [OBytes spk; OBytes encryption_key]));
    [by eexists _, _|].
  rewrite bind_ret, counter_0, bind_lift_Ok. cbn [encrypt_recipients].
  unfold bindings_crypto_box.
  destruct (Hstrict (packb (OList [OBytes spk; OBytes encryption_key]))
              (take 16
                 (sha512
                    ((b_lit "SaltPack" ++ [x00]) ++
                     (b_lit "encryption nonce prefix" ++ [x00]) ++ epk))
               ++ to_bytes_big 8 0) recipient_public ephemeral_private Hlen)
    as [e He].
  rewrite He. cbn. by eexists _, _.
Qed.

(** X9. If PyNaCl's [crypto_box] raises on a public key that does not
    have 32 bytes, [do_encrypt] with recipients on the command line
    never writes a ciphertext: whatever the other arguments and the
    input, the run ends with an exception (a key that passes the [assert]
    of [get_recipients] has 16 bytes). It does not hang either. *)
Theorem do_encrypt_explicit_recipients_raise `{!BuiltinsSpec} args stdin
    ephemeral_private encryption_key :
  (forall message nonce pk sk,
     length pk <> 32%nat -> exists e, crypto_box message nonce pk sk = Err e) ->
  args_recipients args <> [] ->
  exists e,
    do_encrypt args stdin ephemeral_private encryption_key
    = Some (Raises e).
Proof.
  intros Hstrict Hne. unfold do_encrypt.
  apply cmd_bind_raises; [by destruct (args_message args)|].
  intros encoded_message _.
  apply cmd_bind_raises; [apply get_private_finishes|]. intros sender _.
  apply cmd_bind_raises; [by destruct (args_chunk args) as [[|? ?]|]|].
  intros chunk_size _.
  apply cmd_bind_raises.
  { unfold get_recipients. destruct (args_recipients args); [done|].
    apply get_recipients_loop_finishes. }
  intros keys Hkeys. unfold get_recipients in Hkeys.
  destruct (args_recipients args) as [|r rest]; [done|].
  apply get_recipients_loop_inv in Hkeys as (new & -> & Hdecoded & H32).
  pose proof (unhexlify_keys_16 _ _ Hdecoded H32) as H16.
  inversion Hdecoded as [|? key ? keys _ _]; subst. cbn [app].
  inversion H16 as [|? ? Hkey _]; subst.
  destruct (encrypt_short_key sender key keys encoded_message chunk_size
              ephemeral_private encryption_key Hstrict) as (e & tr & Hrun);
    [lia|].
  rewrite Hrun. cbn. by eexists.
Qed.

Context `{!NaClCore, !HashlibSpec, !UmsgpackCore}.

(** The recipient's [decrypt] of what [encrypt] returned, for a single
    recipient. *)
Lemma decrypt_sole_recipient sender_private message chunk_size
    ephemeral_private encryption_key recipient_private recipient_public
    output tr :
  encrypt sender_private [recipient_public] message chunk_size
    ephemeral_private encryption_key = Some (Ok output, tr) ->
  length ephemeral_private = 32%nat ->
  length recipient_private = 32%nat ->
  1 <= chunk_size ->
  crypto_scalarmult_base recipient_private = Ok recipient_public ->
  outcome (decrypt output recipient_private) = Some (Ok message).
Proof.
  intros Henc Hesk Hrsk Hcs Hpub.
  destruct (decrypt_encrypted _ _ _ _ _ _ _ _ _ _ Henc Hesk Hrsk Hcs Hpub)
    as (epk & boxes & packets & body & sbn & i & tr_h & -> & Hcat & Hbody
        & Hopen & _ & _ & _ & Hdec).
  { by left. }
  { by apply sole_recipient_boxes_rejected. }
  rewrite Hdec, outcome_prepend.
  destruct (decrypt_packets_complete _ _ _ _ packets body [] [] Hopen Hbody)
    as [t Hrun].
  rewrite app_nil_r in Hrun. rewrite Hrun. cbn. by rewrite Hcat.
Qed.

(** X11. The command line round trip. When [main] for [encrypt], with no
    recipient on the command line (the message goes to the sender's own
    public key), a message from [--message] or from the standard input
    and a chunk size ([--chunk], or 10^6 without it) of at least 1,
    writes a ciphertext, then [main] for [decrypt] with the same private
    key and without [--debug], given that ciphertext as its input, writes
    exactly the message. *)
Theorem main_encrypt_decrypt_roundtrip args args' stdin message chunk_size
    ephemeral_private encryption_key ciphertext :
  args_encrypt args = true ->
  args_recipients args = [] ->
  match args_message args with
  | None => Returns stdin
  | Some text => encode_utf8 text
  end = Returns message ->
  match args_chunk args with
  | Some ((_ :: _) as chunk) => py_int chunk
  | _ => Returns (10 ^ 6)
  end = Returns chunk_size ->
  1 <= chunk_size ->
  length ephemeral_private = 32%nat ->
  main decrypt_debug args stdin ephemeral_private encryption_key
  = Some (Returns ciphertext) ->
  args_encrypt args' = false ->
  args_debug args' = false ->
  args_private args' = args_private args ->
  forall ephemeral_private' encryption_key',
    main decrypt_debug args' ciphertext ephemeral_private' encryption_key'
    = Some (Returns message).
Proof.
  intros Henc Hrec Hmsg Hchunk Hcs Hesk Hmain Hdec Hdbg Hsame esk' key'.
  unfold main in Hmain. rewrite Henc in Hmain. unfold do_encrypt in Hmain.
  assert (match args_message args with
          | None => cmd_ret stdin
          | Some text => cmd_lift (encode_utf8 text)
          end = Some (Returns message)) as Hm.
  { destruct (args_message args); cbn; by rewrite <- Hmsg. }
  assert (match args_chunk args with
          | Some ((_ :: _) as chunk) => cmd_lift (py_int chunk)
          | _ => cmd_ret (10 ^ 6)
          end = Some (Returns chunk_size)) as Hc.
  { destruct (args_chunk args) as [[|? ?]|]; cbn; by rewrite <- Hchunk. }
  rewrite Hm in Hmain. cbn [cmd_bind] in Hmain.
  destruct (get_private args) as [[private|e]|] eqn:Hpriv; [|done..].
  cbn [cmd_bind] in Hmain. rewrite Hc in Hmain. cbn [cmd_bind] in Hmain.
  unfold get_recipients in Hmain. rewrite Hrec, Hpriv in Hmain.
  cbn [cmd_bind] in Hmain. unfold bindings_crypto_scalarmult_base in Hmain.
  destruct (crypto_scalarmult_base private) as [public|e] eqn:Hpub;
    [|done].
  cbn [cmd_bind of_run cmd_ret] in Hmain.
  destruct (encrypt private [public] message chunk_size ephemeral_private
              encryption_key) as [[[output|e] tr]|] eqn:Hrun; [|done..].
  cbn in Hmain. injection Hmain as ->.
  pose proof (get_private_length _ _ Hpriv) as Hplen.
  unfold main. rewrite Hdec. unfold do_decrypt.
  rewrite (get_private_same args' args Hsame), Hpriv, Hdbg.
  cbn [cmd_bind].
  rewrite (of_run_outcome _ message); [done|].
  by eapply decrypt_sole_recipient.
Qed.

(** X12. Empty input. [do_decrypt] with an accepted private key, without
    [--debug], and nothing on its standard input ends with
    umsgpack.InsufficientDataException: [decrypt] fails on reading the
    header, before any PyNaCl call, and nothing is written. *)
Theorem do_decrypt_empty_input `{!UmsgpackEOF} args private :
  get_private args = Some (Returns private) ->
  args_debug args = false ->
  do_decrypt decrypt_debug args []
  = Some (Raises (Raised InsufficientDataException))
  /\ decrypt [] private = Some (Err InsufficientDataException, []).
Proof.
  intros Hpriv Hdbg.
  assert (unpack [] = Err InsufficientDataException) as Hempty.
  { apply (unpack_truncated ONone [] (packb ONone)); [done|].
    pose proof (packb_nonempty ONone) as Hlen. intros Heq.
    rewrite Heq in Hlen. cbn in Hlen. lia. }
  assert (decrypt [] private = Some (Err InsufficientDataException, []))
    as Hrun.
  { unfold decrypt. by rewrite Hempty. }
  split; [|done]. unfold do_decrypt. rewrite Hpriv, Hdbg. cbn [cmd_bind].
  by rewrite Hrun.
Qed.
End CommandLineFacts.

Section CommandLineChunk.
Context `{NaCl, Hashlib, Umsgpack, Builtins}.
Context `{!NaClCore, !HashlibSpec, !UmsgpackSpec}.

(** X10. [do_encrypt] hands the chunk size to [encrypt] unchecked. With
    [--chunk] an integer of 0 or less, an accepted private key, no
    recipient on the command line and a message that is not empty, the
    run never ends and writes nothing. *)
Theorem do_encrypt_nonpositive_chunk args stdin message chunk chunk_size
    private ephemeral_private encryption_key :
  match args_message args with
  | None => Returns stdin
  | Some text => encode_utf8 text
  end = Returns message ->
  message <> [] ->
  get_private args = Some (Returns private) ->
  args_chunk args = Some chunk ->
  chunk <> [] ->
  py_int chunk = Returns chunk_size ->
  chunk_size <= 0 ->
  args_recipients args = [] ->
  length ephemeral_private = 32%nat ->
  do_encrypt args stdin ephemeral_private encryption_key = None.
Proof.
  intros Hmsg Hne Hpriv Hchunk Hc Hint Hcs Hrec Hesk.
  pose proof (get_private_length _ _ Hpriv) as Hplen.
  destruct (scalarmult_base_ok private Hplen) as (public & Hpub & Hpublen).
  unfold do_encrypt.
  assert (match args_message args with
          | None => cmd_ret stdin
          | Some text => cmd_lift (encode_utf8 text)
          end = Some (Returns message)) as ->.
  { destruct (args_message args); cbn; by rewrite <- Hmsg. }
  cbn [cmd_bind]. rewrite Hpriv. cbn [cmd_bind]. rewrite Hchunk.
  destruct chunk as [|c s]; [done|]. rewrite Hint. cbn [cmd_bind cmd_lift].
  unfold get_recipients. rewrite Hrec, Hpriv. cbn [cmd_bind].
  unfold bindings_crypto_scalarmult_base. rewrite Hpub.
  cbn [cmd_bind of_run cmd_ret].
  rewrite encrypt_diverges; [done|apply packb_returns|done| |done..].
  repeat constructor; by eapply (box_beforenm_derived private).
Qed.
End CommandLineChunk.

(** * The claims on a concrete message

    The theorems above, applied to the message of [Examples] over the
    reference instance, and the inputs that separate the program from four
    of the claims as they were first stated. *)

Import Reference ReferenceFacts.

Lemma chunks_with_empty_tiles_witness :
  exists chunks,
    chunks_with_empty Examples.message 4 = Some chunks
    /\ concat chunks = Examples.message
    /\ Forall (fun c : bytes => Z.of_nat (length c) <= 4) chunks
    /\ list.last chunks = Some [].
Proof.
  destruct (chunks_with_empty_tiles Examples.message 4)
    as (chunks & Hrun & _ & Hcat & Hall & Hlast & _); [lia|].
  by exists chunks.
Defined.


(** The reference framing with the limits of MessagePack refuses the
    packet of a chunk of 2^32 bytes. *)
Lemma bounded_umsgpack_refuses_chunk (message nonce key sealed : bytes)
    (tag_boxes : list obj) :
  length key = 32%nat ->
  2 ^ 32 <= Z.of_nat (length message) ->
  crypto_secretbox message nonce key = Ok sealed ->
  @packb_raises Limits.bounded_umsgpack
    (OList [OList tag_boxes; OBytes (drop 16 sealed)])
  = Some UnsupportedTypeException.
Proof.
  intros Hkey Hlen Hsealed.
  change (ref_seal message nonce key = Ok sealed) in Hsealed.
  unfold ref_seal in Hsealed. injection Hsealed as <-.
  change (@packb_raises Limits.bounded_umsgpack ?v)
    with (if Limits.within_limits v then None
          else Some UnsupportedTypeException).
  assert ((Z.of_nat
             (length (drop 16 (enc_blob key ++ enc_blob nonce ++ message)))
           <? 2 ^ 32) = false) as Hbody.
  { apply Z.ltb_ge.
    rewrite length_drop, !length_app. unfold enc_blob.
    rewrite !length_app. lia. }
  cbn [Limits.within_limits forallb]. rewrite Hbody.
  by rewrite !andb_false_r.
Qed.





Lemma decrypt_malformed_packet_witness :
  exists header packets recipient_index,
    Examples.ciphertext = packb header ++ concat (packb <$> packets)
    /\ (forall n bad rest e,
          (n < length packets)%nat ->
          unpack2 bad = Err e
          \/ (exists tag_boxes body,
                unpack2 bad = Ok (tag_boxes, body)
                /\ py_getitem tag_boxes recipient_index = Err e) ->
          outcome (decrypt (packb header
                            ++ concat (packb <$> take n packets)
                            ++ packb bad ++ rest)
                     Examples.recipient_private)
          = Some (Err e))
    /\ (forall packets' extra,
          Forall2 (fun packet packet' =>
                     exists tag_boxes tag_boxes' body,
                       packet = OList [OList tag_boxes; body]
                       /\ packet' = OList [OList tag_boxes'; body]
                       /\ tag_boxes' !! recipient_index
                          = tag_boxes !! recipient_index)
            packets packets' ->
          outcome (decrypt (packb header ++ concat (packb <$> packets')
                            ++ extra) Examples.recipient_private)
          = Some (Ok Examples.message)).
Proof.
  destruct (decrypt_malformed_packet Examples.sender_private
              Examples.recipients Examples.message 4
              Examples.ephemeral_private Examples.encryption_key
              Examples.recipient_private
              (Examples.public_of Examples.recipient_private)
              Examples.ciphertext Examples.ciphertext_calls)
    as (header & packets & i & Hshape & _ & _ & Hbad & Hsame).
  - vm_compute. reflexivity.
  - reflexivity.
  - reflexivity.
  - lia.
  - reflexivity.
  - vm_compute. repeat constructor.
  - apply isolation_other_boxes_rejected.
  - exists header, packets, i. split; [done|]. split; [|done].
    intros n bad rest e Hn Hb. by destruct (Hbad n bad rest e Hn Hb).
Defined.

(** C5, as first stated, fails: every packet carries three tag boxes, the
    header two recipient pairs, and [decrypt] returns the message. *)
Lemma decrypt_accepts_extra_tag_box :
  Examples.header_pairs Examples.ciphertext_extra_tag_box = Some 2%nat
  /\ Examples.packet_tag_boxes Examples.ciphertext_extra_tag_box
     = [Some 3%nat; Some 3%nat; Some 3%nat; Some 3%nat]
  /\ outcome (decrypt Examples.ciphertext_extra_tag_box
                Examples.recipient_private)
     = Some (Ok Examples.message).
Proof. repeat split; vm_compute; reflexivity. Qed.

(** C2, as first stated, fails: the header carries version [2, 0] and
    mode 1, and [decrypt] returns the message. *)
Lemma decrypt_accepts_version_2_mode_1 :
  Examples.header_version_mode Examples.ciphertext_version_2_mode_1
  = Some (OList [OInt 2; OInt 0], OInt 1)
  /\ outcome (decrypt Examples.ciphertext_version_2_mode_1
                Examples.recipient_private)
     = Some (Ok Examples.message).
Proof. split; vm_compute; reflexivity. Qed.

Lemma decrypt_ignores_format_version_mode_witness :
  decrypt Examples.ciphertext Examples.recipient_private
  = decrypt Examples.ciphertext_version_2_mode_1 Examples.recipient_private.
Proof.
  eapply decrypt_ignores_format_version_mode.
  - vm_compute. reflexivity.
  - vm_compute. reflexivity.
  - reflexivity.
  - reflexivity.
Defined.

Lemma decrypt_ignores_recipient_ids_witness :
  decrypt Examples.ciphertext Examples.recipient_private
  = decrypt Examples.ciphertext_with_recipient_ids Examples.recipient_private.
Proof.
  eapply decrypt_ignores_recipient_ids.
  - vm_compute. reflexivity.
  - vm_compute. reflexivity.
  - repeat (constructor; [right; by eexists _, _, _|]). constructor.
Defined.

Lemma encrypt_packet_contents_witness :
  exists ephemeral_public boxes chunks packets,
    chunks_with_empty Examples.message 4 = Some chunks
    /\ Examples.ciphertext
       = packb (header_for ephemeral_public boxes)
         ++ concat (packb <$> packets)
    /\ length packets = length chunks.
Proof.
  destruct (encrypt_packet_contents Examples.sender_private
              Examples.recipients Examples.message 4
              Examples.ephemeral_private Examples.encryption_key
              Examples.ciphertext Examples.ciphertext_calls)
    as (spk & epk & boxes & chunks & packets & _ & _ & Hch & Hout & Hlen & _).
  - vm_compute. reflexivity.
  - by exists epk, boxes, chunks, packets.
Defined.

Lemma encrypt_nonces_witness :
  Forall (fun x =>
            call_nonce x
            <> Some (nonce_prefix_for
                       (Examples.public_of Examples.ephemeral_private)
                     ++ to_bytes_big 8 1))
    Examples.ciphertext_calls.
Proof.
  destruct (encrypt_nonces Examples.sender_private Examples.recipients
              Examples.message 4 Examples.ephemeral_private
              Examples.encryption_key Examples.ciphertext
              Examples.ciphertext_calls)
    as (epk & chunks & Hepk & _ & _ & _ & _ & _ & Hone).
  - vm_compute. reflexivity.
  - injection Hepk as <-. apply Forall_forall. intros x Hx.
    apply Hone. by apply list_elem_of_In.
Defined.

Ltac reads_packet_by_evaluation :=
  do 6 eexists; split; [lia|];
  do 6 (split; [vm_compute; reflexivity|]); reflexivity.

Lemma decrypt_first_opening_slot_witness :
  decrypt Examples.ciphertext Examples.recipient_private
  = Some (Ok Examples.message, CommandLines.decrypt_calls).
Proof.
  edestruct (decrypt_first_opening_slot Examples.ciphertext
               Examples.recipient_private) as [Hfirst _].
  - vm_compute. reflexivity.
  - vm_compute. reflexivity.
  - vm_compute. reflexivity.
  - pose proof (fun p0 b0 p1 x b1 kb => Hfirst [p0] [b0] p1 x b1 kb [])
      as Hone.
    etrans.
    + eapply Hone.
      * reflexivity.
      * constructor; [|constructor]. eexists. vm_compute. reflexivity.
      * constructor; [|constructor]. vm_compute. reflexivity.
      * vm_compute. reflexivity.
      * vm_compute. reflexivity.
      * vm_compute. reflexivity.
      * vm_compute. reflexivity.
      * vm_compute. reflexivity.
      * repeat (eapply reads_payload_more;
                [reads_packet_by_evaluation|discriminate|]).
        eapply reads_payload_last. reads_packet_by_evaluation.
    + vm_compute. reflexivity.
Defined.

(** * The further properties on concrete inputs *)

Module ReferenceBuiltinsFacts.
Import ReferenceBuiltins.

Lemma ref_unhexlify_length s :
  (forall b, ref_unhexlify s = Returns b -> length s = (2 * length b)%nat)
  /\ (forall x b,
        ref_unhexlify (x :: s) = Returns b ->
        length (x :: s) = (2 * length b)%nat).
Proof.
  induction s as [|a s [IH IH2]].
  - split; [by intros b [= <-]|done].
  - assert (forall x b,
              ref_unhexlify (x :: a :: s) = Returns b ->
              length (x :: a :: s) = (2 * length b)%nat) as Hpair.
    { intros x b. cbn [ref_unhexlify].
      destruct (hex_digit x), (hex_digit a); try done.
      destruct (ref_unhexlify s) as [b'|e] eqn:E; [|done].
      intros [= <-]. cbn [length]. rewrite (IH b' eq_refl). lia. }
    split; [|done]. intros b. apply IH2.
Qed.

#[export] Instance builtins_spec : BuiltinsSpec.
Proof. split. intros s b. apply ref_unhexlify_length. Qed.

Lemma strict_box_short_key message nonce pk sk :
  length pk <> 32%nat ->
  exists e, @crypto_box strict_nacl message nonce pk sk = Err e.
Proof.
  intros Hpk. cbn. unfold strict_box. rewrite decide_False by done.
  by eexists.
Qed.
End ReferenceBuiltinsFacts.

Import ReferenceBuiltins ReferenceBuiltinsFacts.

Lemma chunks_with_empty_slices_witness :
  exists chunks,
    chunks_with_empty Examples.message 4 = Some chunks
    /\ Z.of_nat (length chunks)
       = (Z.of_nat (length Examples.message) + 4 - 1) / 4 + 1
    /\ list.last chunks = Some [].
Proof.
  destruct (chunks_with_empty_slices Examples.message 4)
    as (chunks & Hrun & Hlen & _ & _ & Hlast); [lia|].
  by exists chunks.
Defined.

Lemma encrypt_nonpositive_chunk_size_witness :
  encrypt Examples.sender_private Examples.recipients Examples.message 0
    Examples.ephemeral_private Examples.encryption_key = None.
Proof.
  destruct (encrypt_nonpositive_chunk_size Examples.sender_private
              Examples.recipients Examples.message 0
              Examples.ephemeral_private Examples.encryption_key)
    as [Hmessage _]; [lia|].
  destruct Hmessage as [_ Hnone]; [discriminate|].
  apply (Hnone Examples.message 4 Examples.ciphertext
           Examples.ciphertext_calls).
  vm_compute. reflexivity.
Defined.

Lemma decrypt_non_recipient_witness :
  outcome (decrypt Examples.ciphertext CommandLines.stranger_private)
  = Some (Err (RuntimeError "Failed to find matching recipient.")).
Proof.
  apply (decrypt_non_recipient Examples.sender_private Examples.recipients
           Examples.message 4 Examples.ephemeral_private
           Examples.encryption_key CommandLines.stranger_private
           (Examples.public_of CommandLines.stranger_private)
           Examples.ciphertext Examples.ciphertext_calls).
  - vm_compute. reflexivity.
  - reflexivity.
  - reflexivity.
  - reflexivity.
  - apply (bool_decide_unpack _). vm_compute. exact I.
  - apply isolation_other_boxes_rejected.
Defined.

Lemma decrypt_nonces_witness :
  Forall (decrypt_call
            (nonce_prefix_for (Examples.public_of Examples.ephemeral_private)))
    CommandLines.decrypt_calls.
Proof.
  edestruct (decrypt_nonces Examples.ciphertext Examples.recipient_private)
    as [Hall _].
  - vm_compute. reflexivity.
  - vm_compute. reflexivity.
  - exact Hall.
Defined.


Lemma get_recipients_explicit_witness :
  Forall (fun key : bytes => length key = 16%nat)
    [CommandLines.recipient_key].
Proof.
  destruct (get_recipients_explicit CommandLines.encrypt_to_recipient
              [CommandLines.recipient_key]) as (_ & _ & H16).
  - discriminate.
  - vm_compute. reflexivity.
  - exact H16.
Defined.

Lemma do_encrypt_explicit_recipients_raise_witness :
  exists e,
    @do_encrypt strict_nacl _ _ _ CommandLines.encrypt_to_recipient
      Examples.message Examples.ephemeral_private Examples.encryption_key
    = Some (Raises e).
Proof.
  apply (@do_encrypt_explicit_recipients_raise strict_nacl _ _ _ _
           CommandLines.encrypt_to_recipient Examples.message
           Examples.ephemeral_private Examples.encryption_key).
  - intros message nonce pk sk. apply strict_box_short_key.
  - discriminate.
Defined.

Lemma do_encrypt_nonpositive_chunk_witness :
  do_encrypt CommandLines.encrypt_chunk_0 Examples.message
    Examples.ephemeral_private Examples.encryption_key = None.
Proof.
  eapply (do_encrypt_nonpositive_chunk CommandLines.encrypt_chunk_0
            Examples.message Examples.message).
  - reflexivity.
  - discriminate.
  - vm_compute. reflexivity.
  - reflexivity.
  - discriminate.
  - vm_compute. reflexivity.
  - lia.
  - reflexivity.
  - reflexivity.
Defined.

Lemma main_encrypt_decrypt_roundtrip_witness :
  exists ciphertext,
    main CommandLines.no_debug CommandLines.encrypt_hello []
      Examples.ephemeral_private Examples.encryption_key
    = Some (Returns ciphertext)
    /\ forall ephemeral_private' encryption_key',
         main CommandLines.no_debug CommandLines.decrypt_hello ciphertext
           ephemeral_private' encryption_key'
         = Some (Returns Examples.message).
Proof.
  eexists. split; [vm_compute; reflexivity|].
  eapply (main_encrypt_decrypt_roundtrip CommandLines.no_debug
            CommandLines.encrypt_hello CommandLines.decrypt_hello []
            Examples.message 4 Examples.ephemeral_private
            Examples.encryption_key).
  - reflexivity.
  - reflexivity.
  - vm_compute. reflexivity.
  - vm_compute. reflexivity.
  - lia.
  - reflexivity.
  - vm_compute. reflexivity.
  - reflexivity.
  - reflexivity.
  - reflexivity.
Defined.

Lemma do_decrypt_empty_input_witness :
  do_decrypt CommandLines.no_debug CommandLines.decrypt_hello []
  = Some (Raises (Raised InsufficientDataException)).
Proof.
  eapply (do_decrypt_empty_input CommandLines.no_debug
            CommandLines.decrypt_hello).
  - vm_compute. reflexivity.
  - reflexivity.
Defined.
